(** * Futoshiki: a shallow embedding of the constraint-satisfaction engine

    The development follows the Python sources file by file:
    [futoshiki_board.py] (the board and its constraint model),
    [inference.py] (forward checking and arc consistency),
    [heuristics.py] (MRV and LCV) and [csp_solver.py] (backtracking).

    How the Python data is represented:
    - integers are [Z]; a cell [(r, c)] is a pair of integers; an operator
      ['<'] or ['>'] is a constructor of [Op];
    - the grid is a list of rows, indexed the way Python indexes lists:
      negative indices count from the end, anything else out of range raises
      [IndexError]; the rows are distinct lists (no row is shared);
    - the [domains] dictionary is a [gmap] from cells to [gset Z], and a
      missing key raises [KeyError]; no two keys share a set object in the
      source, so updating the set of one key is an insertion at that key;
    - exceptions are values of the [res] monad, and every operation that
      mutates the board returns the new board;
    - Python does not fix the order in which a [set] is iterated: the model
      takes the enumeration from a [SetOrder], and the theorems hold for all
      of them;
    - the functions of [inference.py] and [heuristics.py] receive the solver
      object only to reach [csp.board]; here they receive the board;
    - [display] is modelled by the list of the lines it prints; the
      wall-clock fields of the solver are left out, and so is the benchmark
      script [futoshiki_solver.py] (timing and plotting).

    The two loops that are not structural get fuel: the work queue of [ac2]
    (with a bound, proved sufficient for every board) and the recursion of
    [_backtracking_search] (one frame per cell, proved sufficient on
    well-formed boards). *)

From Stdlib Require Import ZArith Lia.
From stdpp Require Import gmap list sorting strings pretty.

Local Open Scope Z_scope.

(** ** Exceptions and the result monad *)

Inductive exn := IndexError | KeyError.

(** [Diverge] is the outcome of a fuel-bounded loop that ran out of fuel;
    it never escapes [ac2], nor [solve] on a well-formed board, and more
    fuel never changes another outcome. *)
Inductive res (A : Type) : Type :=
| Ok (a : A)
| Raise (e : exn)
| Diverge.
Arguments Ok {A} a.
Arguments Raise {A} e.
Arguments Diverge {A}.

#[global] Instance res_bind : MBind res := λ A B k m,
  match m with
  | Ok a => k a
  | Raise e => Raise e
  | Diverge => Diverge
  end.

(** Loops over a Python list, with the early exits the source uses. *)
Fixpoint foldM {A S} (f : S → A → res S) (s : S) (l : list A) : res S :=
  match l with
  | [] => Ok s
  | x :: l' => s' ← f s x; foldM f s' l'
  end.

(** [for x in l: if p(x): return True] ... [return False]. *)
Fixpoint anyM {A} (p : A → res bool) (l : list A) : res bool :=
  match l with
  | [] => Ok false
  | x :: l' => b ← p x; if b : bool then Ok true else anyM p l'
  end.

(** [[x for x in l if p(x)]]. *)
Fixpoint filterM {A} (p : A → res bool) (l : list A) : res (list A) :=
  match l with
  | [] => Ok []
  | x :: l' => b ← p x; r ← filterM p l'; Ok (if b : bool then x :: r else r)
  end.

(** ** Data model *)

Definition cell : Type := Z * Z.

Inductive Op := OpLt | OpGt.

#[global] Instance Op_eq_dec : EqDecision Op.
Proof. solve_decision. Defined.

(** [(A, B, op)]: value(A) op value(B). *)
Definition constraint : Type := cell * cell * Op.

Definition op_holds (op : Op) (a b : Z) : bool :=
  match op with
  | OpLt => bool_decide (a < b)
  | OpGt => bool_decide (a > b)
  end.

Record FutoshikiBoard := mkBoard {
  board_size : Z;
  grid : list (list Z);
  domains : gmap cell (gset Z);
  inequality_constraints : list constraint
}.

Definition set_domains (b : FutoshikiBoard) (d : gmap cell (gset Z)) : FutoshikiBoard :=
  mkBoard (board_size b) (grid b) d (inequality_constraints b).

(** Python containers *)

(** [range(n)] and [range(1, n + 1)]; both are empty when [n <= 0]. *)
Definition range (n : Z) : list Z := seqZ 0 n.

Definition full_domain (n : Z) : gset Z := list_to_set (seqZ 1 n).

(** Position of index [i] in a list of length [len], as Python resolves it. *)
Definition py_index (len i : Z) : option nat :=
  if bool_decide (0 ≤ i < len) then Some (Z.to_nat i)
  else if bool_decide (- len ≤ i < 0) then Some (Z.to_nat (len + i))
  else None.

Definition list_get {A} (l : list A) (i : Z) : res A :=
  match py_index (Z.of_nat (length l)) i with
  | Some n => match l !! n with Some x => Ok x | None => Raise IndexError end
  | None => Raise IndexError
  end.

Definition list_set {A} (l : list A) (i : Z) (x : A) : res (list A) :=
  match py_index (Z.of_nat (length l)) i with
  | Some n => Ok (<[n := x]> l)
  | None => Raise IndexError
  end.

(** [grid[r][c]] *)
Definition grid_get (g : list (list Z)) (v : cell) : res Z :=
  row ← list_get g v.1; list_get row v.2.

(** [grid[r][c] = x] *)
Definition grid_set (g : list (list Z)) (v : cell) (x : Z) : res (list (list Z)) :=
  row ← list_get g v.1; row' ← list_set row v.2 x; list_set g v.1 row'.

(** [domains[v]] *)
Definition dom_get (d : gmap cell (gset Z)) (v : cell) : res (gset Z) :=
  match d !! v with
  | Some D => Ok D
  | None => Raise KeyError
  end.

(** Python leaves the iteration order of a [set] unspecified.  Wherever the
    source iterates over a set (or builds a list from one) the model asks a
    [SetOrder] for the enumeration; every theorem below holds for all of
    them. *)
Class SetOrder := {
  iter_vals : gset Z → list Z;
  iter_vals_perm : ∀ D, iter_vals D ≡ₚ elements D;
  iter_cells : gset cell → list cell;
  iter_cells_perm : ∀ D, iter_cells D ≡ₚ elements D
}.

(** All cells in row-major order:
    [for r in range(size): for c in range(size)]. *)
Definition all_cells (n : Z) : list cell :=
  r ← range n; c ← range n; [(r, c)].

(** ** futoshiki_board.py *)

(** [_enforce_all_different_constraints]: one step,
    [if v in domains.get(k, set()): domains[k].discard(v)]. *)
Definition discard_at (d : gmap cell (gset Z)) (k : cell) (v : Z) : gmap cell (gset Z) :=
  match d !! k with
  | Some D => if decide (v ∈ D) then <[k := D ∖ {[v]}]> d else d
  | None => d
  end.

Definition _enforce_all_different_constraints
    (b : FutoshikiBoard) (fixed_var : cell) (fixed_value : Z) : FutoshikiBoard :=
  let '(r, c) := fixed_var in
  let d1 := foldl (λ d col, if decide (col ≠ c) then discard_at d (r, col) fixed_value else d)
                  (domains b) (range (board_size b)) in
  let d2 := foldl (λ d row, if decide (row ≠ r) then discard_at d (row, c) fixed_value else d)
                  d1 (range (board_size b)) in
  set_domains b d2.

Definition _prune_initial_domains (b : FutoshikiBoard) : res FutoshikiBoard :=
  foldM (λ b v,
           x ← grid_get (grid b) v;
           Ok (if decide (x ≠ 0) then _enforce_all_different_constraints b v x else b))
        b (all_cells (board_size b)).

(** [FutoshikiBoard.__init__].  [None] and the empty list are both falsy, so
    either gives the all-zero grid (resp. no constraints). *)
Definition zero_grid (n : Z) : list (list Z) :=
  (λ _, (λ _, 0) <$> range n) <$> range n.

Definition truthy {A} (o : option (list A)) : option (list A) :=
  match o with
  | Some (x :: l) => Some (x :: l)
  | _ => None
  end.

Definition __init__ (size : Z) (initial_grid : option (list (list Z)))
    (constraints : option (list constraint)) : res FutoshikiBoard :=
  let g := default (zero_grid size) (truthy initial_grid) in
  d ← foldM (λ d v,
               x ← grid_get g v;
               Ok (<[v := if decide (x = 0) then full_domain size else {[x]}]> d))
            ∅ (all_cells size);
  _prune_initial_domains (mkBoard size g d (default [] (truthy constraints))).

Definition assign (b : FutoshikiBoard) (var : cell) (value : Z) : res FutoshikiBoard :=
  g ← grid_set (grid b) var value;
  Ok (mkBoard (board_size b) g (<[var := {[value]}]> (domains b)) (inequality_constraints b)).

Definition unassign (b : FutoshikiBoard) (var : cell) : res FutoshikiBoard :=
  g ← grid_set (grid b) var 0;
  Ok (mkBoard (board_size b) g (<[var := full_domain (board_size b)]> (domains b))
        (inequality_constraints b)).

Definition get_unassigned_variables (b : FutoshikiBoard) : res (list cell) :=
  filterM (λ v, x ← grid_get (grid b) v; Ok (bool_decide (x = 0)))
          (all_cells (board_size b)).

(** One iteration of the inequality loop of [is_consistent]: does this
    constraint make the check return [False]? *)
Definition ineq_violated (g : list (list Z)) (var : cell) (value : Z)
    (k : constraint) : res bool :=
  let '(v1, v2, op) := k in
  val1 ← grid_get g v1;
  val2 ← grid_get g v2;
  Ok (if bool_decide (v1 = var) && bool_decide (val2 ≠ 0) then
        negb (op_holds op value val2)
      else if bool_decide (v2 = var) && bool_decide (val1 ≠ 0) then
        negb (op_holds op val1 value)
      else if bool_decide (val1 ≠ 0) && bool_decide (val2 ≠ 0)
              && (bool_decide (v1 ≠ var) && bool_decide (v2 ≠ var)) then
        negb (op_holds op val1 val2)
      else false).

Definition is_consistent (b : FutoshikiBoard) (var : cell) (value : Z) : res bool :=
  let '(r, c) := var in
  clash ← anyM (λ col, if decide (col ≠ c)
                        then x ← grid_get (grid b) (r, col); Ok (bool_decide (x = value))
                        else Ok false)
               (range (board_size b));
  if clash : bool then Ok false else
  clash ← anyM (λ row, if decide (row ≠ r)
                        then x ← grid_get (grid b) (row, c); Ok (bool_decide (x = value))
                        else Ok false)
               (range (board_size b));
  if clash : bool then Ok false else
  bad ← anyM (ineq_violated (grid b) var value) (inequality_constraints b);
  Ok (negb bad).

(** The set built by [get_neighbors] before it is turned into a list. *)
Definition ineq_neighbors (cs : list constraint) (var : cell) : gset cell :=
  foldl (λ (acc : gset cell) (k : constraint),
           let '(v1, v2, _) := k in
           if decide (v1 = var) then acc ∪ {[v2]}
           else if decide (v2 = var) then acc ∪ {[v1]}
           else acc)
        ∅ cs.

Definition neighbor_set (b : FutoshikiBoard) (var : cell) : gset cell :=
  let '(r, c) := var in
  list_to_set ((λ col, (r, col)) <$> filter (λ col, col ≠ c) (range (board_size b)))
  ∪ list_to_set ((λ row, (row, c)) <$> filter (λ row, row ≠ r) (range (board_size b)))
  ∪ ineq_neighbors (inequality_constraints b) var.

Definition get_neighbors {ord : SetOrder} (b : FutoshikiBoard) (var : cell) : list cell :=
  iter_cells (neighbor_set b var).

(** A concrete enumeration, used to run the model: values ascending, cells in
    lexicographic order. *)
Definition cell_le (a b : cell) : Prop := a.1 < b.1 ∨ (a.1 = b.1 ∧ a.2 ≤ b.2).

#[global] Instance cell_le_dec a b : Decision (cell_le a b).
Proof. unfold cell_le. apply _. Defined.

Definition sorted_order : SetOrder := {|
  iter_vals D := merge_sort Z.le (elements D);
  iter_vals_perm D := merge_sort_Permutation Z.le (elements D);
  iter_cells D := merge_sort cell_le (elements D);
  iter_cells_perm D := merge_sort_Permutation cell_le (elements D)
|}.

(** ** inference.py *)

Definition same_line (a b : cell) : bool :=
  bool_decide (a.1 = b.1) || bool_decide (a.2 = b.2).

(** The first constraint of the list that links [var] and [neighbor], in
    either direction: the inner [for ... break] of [forward_check]. *)
Fixpoint first_link (cs : list constraint) (var neighbor : cell) : option constraint :=
  match cs with
  | [] => None
  | (v1, v2, op) :: cs' =>
      if bool_decide (v1 = var ∧ v2 = neighbor) || bool_decide (v2 = var ∧ v1 = neighbor)
      then Some (v1, v2, op)
      else first_link cs' var neighbor
  end.

(** Is [val_n] discarded from the neighbor's domain once [var = value]? *)
Definition fc_discards (cs : list constraint) (var : cell) (value : Z)
    (neighbor : cell) (val_n : Z) : bool :=
  (bool_decide (val_n = value) && same_line var neighbor)
  || match first_link cs var neighbor with
     | Some (v1, v2, op) =>
         if bool_decide (v1 = var ∧ v2 = neighbor)
         then negb (op_holds op value val_n)
         else negb (op_holds op val_n value)
     | None => false
     end.

(** [for p_var, p_vals in pruned_values.items(): domains[p_var].update(p_vals)] *)
Definition restore_pruned (pruned : list (cell * gset Z)) (d : gmap cell (gset Z))
    : res (gmap cell (gset Z)) :=
  foldM (λ d '(p_var, p_vals), D ← dom_get d p_var; Ok (<[p_var := D ∪ p_vals]> d))
        d pruned.

Section with_order.
Context {ord : SetOrder}.

(** The loop of [forward_check] over the neighbors.  [pruned] is the
    dictionary [pruned_values] in insertion order; the result is [None] where
    the source returns [False]. *)
Fixpoint fc_loop (b : FutoshikiBoard) (var : cell) (value : Z) (original_domain : gset Z)
    (neighbors : list cell) (d : gmap cell (gset Z)) (pruned : list (cell * gset Z))
    : res (option (list (cell * gset Z)) * gmap cell (gset Z)) :=
  match neighbors with
  | [] => Ok (Some pruned, <[var := original_domain]> d)
  | neighbor :: rest =>
      x ← grid_get (grid b) neighbor;
      if decide (x = 0) then
        original_neighbor_domain ← dom_get d neighbor;
        let Dn := foldl (λ D val_n,
                           if fc_discards (inequality_constraints b) var value neighbor val_n
                           then D ∖ {[val_n]} else D)
                        original_neighbor_domain (iter_vals original_neighbor_domain) in
        let d' := <[neighbor := Dn]> d in
        if decide (Dn = ∅) then
          d'' ← restore_pruned pruned (<[var := original_domain]> d');
          Ok (None, d'')
        else
          fc_loop b var value original_domain rest d'
                  (pruned ++ [(neighbor, original_neighbor_domain ∖ Dn)])
      else fc_loop b var value original_domain rest d pruned
  end.

Definition forward_check (b : FutoshikiBoard) (var : cell) (value : Z)
    : res (option (list (cell * gset Z)) * FutoshikiBoard) :=
  original_domain ← dom_get (domains b) var;
  '(r, d) ← fc_loop b var value original_domain (get_neighbors b var)
              (<[var := {[value]}]> (domains b)) [];
  Ok (r, set_domains b d).

(** The scan of the inequality list inside [revise], for one pair [(x, y)]:
    the flags [is_inequality] and [consistent_found] when the loop ends. *)
Fixpoint scan_inequalities (cs : list constraint) (xi xj : cell) (x y : Z)
    (is_inequality : bool) : bool * bool :=
  match cs with
  | [] => (is_inequality, false)
  | (v1, v2, op) :: cs' =>
      if bool_decide (v1 = xi ∧ v2 = xj) then
        if op_holds op x y then (true, true)
        else scan_inequalities cs' xi xj x y true
      else if bool_decide (v1 = xj ∧ v2 = xi) then
        if op_holds op y x then (true, true)
        else scan_inequalities cs' xi xj x y true
      else scan_inequalities cs' xi xj x y is_inequality
  end.

(** The loop [for y in domains[xj]] of [revise]: the final value of
    [consistent_found]. *)
Fixpoint consistent_found (cs : list constraint) (xi xj : cell) (x : Z) (ys : list Z) : bool :=
  match ys with
  | [] => false
  | y :: ys' =>
      if same_line xi xj && bool_decide (x = y) then consistent_found cs xi xj x ys'
      else
        let '(is_inequality, found) := scan_inequalities cs xi xj x y false in
        let found := found || (negb is_inequality && negb (same_line xi xj)) in
        if is_inequality && found then true
        else if negb is_inequality && same_line xi xj then
          if bool_decide (x ≠ y) then true else consistent_found cs xi xj x ys'
        else if negb is_inequality && negb (same_line xi xj) then true
        else consistent_found cs xi xj x ys'
  end.

Definition revise (b : FutoshikiBoard) (xi xj : cell) : res (bool * FutoshikiBoard) :=
  Di ← dom_get (domains b) xi;
  to_remove ← filterM (λ x, Dj ← dom_get (domains b) xj;
                            Ok (negb (consistent_found (inequality_constraints b) xi xj x
                                        (iter_vals Dj))))
                      (iter_vals Di);
  match to_remove with
  | [] => Ok (false, b)
  | _ => Ok (true, set_domains b (<[xi := Di ∖ list_to_set to_remove]> (domains b)))
  end.

(** Is there a direct constraint between [xi] and [xj] ([ac2], queue
    initialisation)? *)
Definition is_constrained (cs : list constraint) (xi xj : cell) : bool :=
  same_line xi xj
  || existsb (λ '(v1, v2, _), bool_decide (v1 = xi ∧ v2 = xj) || bool_decide (v1 = xj ∧ v2 = xi)) cs.

Fixpoint initial_queue (cs : list constraint) (variables : list cell) : list (cell * cell) :=
  match variables with
  | [] => []
  | xi :: rest =>
      (xj ← rest; if is_constrained cs xi xj then [(xi, xj); (xj, xi)] else [])
      ++ initial_queue cs rest
  end.

(** [while queue: ...]; one unit of fuel per popped arc. *)
Fixpoint ac2_loop (fuel : nat) (b : FutoshikiBoard) (queue : list (cell * cell))
    : res (bool * FutoshikiBoard) :=
  match queue with
  | [] => Ok (true, b)
  | (xi, xj) :: queue' =>
      match fuel with
      | O => Diverge
      | S fuel' =>
          '(revised, b') ← revise b xi xj;
          if revised : bool then
            Di ← dom_get (domains b') xi;
            if decide (Di = ∅) then Ok (false, b')
            else ac2_loop fuel' b'
                   (queue' ++ ((λ xk, (xk, xi)) <$> filter (λ xk, xk ≠ xj) (get_neighbors b' xi)))
          else ac2_loop fuel' b' queue'
      end
  end.

Definition ac2_fuel (fuel : nat) (b : FutoshikiBoard) : res (bool * FutoshikiBoard) :=
  ac2_loop fuel b (initial_queue (inequality_constraints b) (all_cells (board_size b))).

(** Fuel that always suffices: every popped arc either shortens the queue or
    removes a value from a domain, and a removal enqueues at most one arc per
    neighbor. *)
Definition total_domain_size (d : gmap cell (gset Z)) : nat :=
  sum_list_with (λ kv, size kv.2) (map_to_list d).

Definition neighbor_bound (b : FutoshikiBoard) : nat :=
  (2 * Z.to_nat (board_size b) + length (inequality_constraints b))%nat.

Definition ac2_bound (b : FutoshikiBoard) : nat :=
  (length (initial_queue (inequality_constraints b) (all_cells (board_size b)))
   + total_domain_size (domains b) * neighbor_bound b)%nat.

Definition ac2 (b : FutoshikiBoard) : res (bool * FutoshikiBoard) :=
  ac2_fuel (ac2_bound b) b.

(** ** heuristics.py *)

(** [min_domain_size] starts at [float('inf')], here [None]. *)
Definition select_unassigned_variable_mrv (b : FutoshikiBoard) : res (option cell) :=
  unassigned_vars ← get_unassigned_variables b;
  '(_, best_var) ← foldM (λ '(min_domain_size, best_var) var,
                            D ← dom_get (domains b) var;
                            let domain_size := size D in
                            Ok (match min_domain_size with
                                | Some m => if decide (domain_size < m)%nat
                                            then (Some domain_size, Some var)
                                            else (Some m, best_var)
                                | None => (Some domain_size, Some var)
                                end))
                         (None, None) unassigned_vars;
  Ok best_var.

(** The penalty one inequality constraint adds for one neighbor. *)
Definition lcv_inequality_penalty (var : cell) (value : Z) (neighbor : cell)
    (Dn : gset Z) (k : constraint) : Z :=
  let '(v1, v2, op) := k in
  if bool_decide (v1 = var ∧ v2 = neighbor) || bool_decide (v2 = var ∧ v1 = neighbor) then
    let temp_neighbor_domain : gset Z :=
      if bool_decide (v1 = var ∧ v2 = neighbor) then
        match op with
        | OpLt => filter (λ x, x > value) Dn
        | OpGt => filter (λ x, x < value) Dn
        end
      else
        match op with
        | OpLt => filter (λ x, x < value) Dn
        | OpGt => filter (λ x, x > value) Dn
        end in
    if decide (temp_neighbor_domain = ∅) then 100 else 0
  else 0.

Definition lcv_neighbor_penalty (b : FutoshikiBoard) (var : cell) (value : Z)
    (neighbor : cell) : res Z :=
  x ← grid_get (grid b) neighbor;
  if decide (x = 0) then
    Dn ← dom_get (domains b) neighbor;
    Ok ((if decide (value ∈ Dn ∧ size Dn = 1%nat) then 100 else 0)
        + foldl (λ acc k, acc + lcv_inequality_penalty var value neighbor Dn k)
                0 (inequality_constraints b))
  else Ok 0.

(** [list.sort(key=...)] is stable. *)
Fixpoint insert_by_count (x : Z * Z) (l : list (Z * Z)) : list (Z * Z) :=
  match l with
  | [] => [x]
  | y :: l' => if decide (x.2 ≤ y.2) then x :: y :: l' else y :: insert_by_count x l'
  end.

Definition sort_by_count (l : list (Z * Z)) : list (Z * Z) :=
  foldr insert_by_count [] l.

Definition order_domain_values_lcv (var : cell) (b : FutoshikiBoard)
    : res (list Z * FutoshikiBoard) :=
  D ← dom_get (domains b) var;
  '(value_constraint_counts, b') ←
    foldM (λ '(counts, b) value,
             b1 ← assign b var value;
             constraining_count ←
               foldM (λ acc neighbor, p ← lcv_neighbor_penalty b1 var value neighbor; Ok (acc + p))
                     0 (get_neighbors b1 var);
             b2 ← unassign b1 var;
             Ok (counts ++ [(value, constraining_count)], b2))
          ([], b) (iter_vals D);
  Ok ((sort_by_count value_constraint_counts).*1, b').

(** ** csp_solver.py *)

Record CSPSolver := mkSolver {
  board : FutoshikiBoard;
  use_forward_checking : bool;
  use_ac2 : bool;
  use_mrv : bool;
  use_lcv : bool;
  backtracks : Z
}.

Definition with_board (s : CSPSolver) (b : FutoshikiBoard) : CSPSolver :=
  mkSolver b (use_forward_checking s) (use_ac2 s) (use_mrv s) (use_lcv s) (backtracks s).

(** The inference step after a consistent tentative assignment: the final
    value of [is_consistent_after_inference] and the board. *)
Definition infer (s : CSPSolver) (b : FutoshikiBoard) (var : cell) (value : Z)
    : res (bool * FutoshikiBoard) :=
  '(ok, b1) ← (if use_forward_checking s
               then '(fc_result, b1) ← forward_check b var value;
                    Ok (bool_decide (is_Some fc_result), b1)
               else Ok (true, b));
  if ok && use_ac2 s then ac2 b1 else Ok (ok, b1).

(** [for value in domain_values: ...]; [rec] is the recursive call. *)
Fixpoint try_values (rec : CSPSolver → res (bool * CSPSolver)) (var : cell)
    (domain_values : list Z) (s : CSPSolver) : res (bool * CSPSolver) :=
  match domain_values with
  | [] => Ok (false, s)
  | value :: rest =>
      let original_domains_copy := domains (board s) in
      original_grid_value ← grid_get (grid (board s)) var;
      b ← assign (board s) var value;
      consistent ← is_consistent b var value;
      '(found, s') ←
        (if consistent : bool then
           '(ok, b') ← infer s b var value;
           if ok : bool then rec (with_board s b') else Ok (false, with_board s b')
         else Ok (false, with_board s b));
      if found : bool then Ok (true, s')
      else
        b'' ← unassign (board s') var;
        try_values rec var rest
          (mkSolver (set_domains b'' original_domains_copy)
             (use_forward_checking s') (use_ac2 s') (use_mrv s') (use_lcv s')
             (backtracks s' + 1))
  end.

Fixpoint _backtracking_search (fuel : nat) (s : CSPSolver) : res (bool * CSPSolver) :=
  match fuel with
  | O => Diverge
  | S fuel' =>
      unassigned ← get_unassigned_variables (board s);
      match unassigned with
      | [] => Ok (true, s)
      | first :: _ =>
          selected ← (if use_mrv s then select_unassigned_variable_mrv (board s)
                      else Ok (Some first));
          match selected with
          | None => Raise KeyError
          | Some var =>
              '(domain_values, b) ←
                (if use_lcv s then order_domain_values_lcv var (board s)
                 else D ← dom_get (domains (board s)) var; Ok (iter_vals D, board s));
              try_values (_backtracking_search fuel') var domain_values (with_board s b)
          end
      end
  end.

(** The recursion is at most one frame per cell deep. *)
Definition search_fuel (b : FutoshikiBoard) : nat :=
  S (length (all_cells (board_size b))).

(** [solve] with the recursion depth allowed to the search. *)
Definition solve_fuel (fuel : nat) (s : CSPSolver) : res (bool * CSPSolver) :=
  let s := mkSolver (board s) (use_forward_checking s) (use_ac2 s) (use_mrv s) (use_lcv s) 0 in
  if use_ac2 s then
    '(ok, b) ← ac2 (board s);
    if ok : bool then _backtracking_search fuel (with_board s b)
    else Ok (false, with_board s b)
  else _backtracking_search fuel s.

Definition solve (s : CSPSolver) : res (bool * CSPSolver) :=
  solve_fuel (search_fuel (board s)) s.

End with_order.

(** ** heuristics.py: the count of one value *)

(** The constraining count [order_domain_values_lcv] computes for one value
    of [var]: the board is probed with [assign], and the penalties of the
    neighbors are added up. *)
Definition lcv_constraining_count {ord : SetOrder} (b : FutoshikiBoard) (var : cell)
    (value : Z) : res Z :=
  b1 ← assign b var value;
  foldM (λ acc neighbor, p ← lcv_neighbor_penalty b1 var value neighbor; Ok (acc + p))
        0 (get_neighbors b1 var).

(** ** futoshiki_board.py: [display] *)








(** ** Specification vocabulary *)

Definition in_board (n : Z) (v : cell) : Prop := 0 ≤ v.1 < n ∧ 0 ≤ v.2 < n.

(** The grid is a list of [n] rows of [n] entries. *)
Definition grid_shape (n : Z) (g : list (list Z)) : Prop :=
  length g = Z.to_nat n ∧ Forall (λ row, length row = Z.to_nat n) g.

(** The entry of a cell of the board (0 outside the grid). *)
Definition cell_value (g : list (list Z)) (v : cell) : Z :=
  default 0 (row ← g !! Z.to_nat v.1; row !! Z.to_nat v.2).

(** Two boards that differ at most in their domains. *)
Definition same_frame (b b' : FutoshikiBoard) : Prop :=
  board_size b' = board_size b ∧ grid b' = grid b
  ∧ inequality_constraints b' = inequality_constraints b.

Definition op_rel (op : Op) (a b : Z) : Prop :=
  match op with
  | OpLt => a < b
  | OpGt => a > b
  end.

Definition shares_line (v w : cell) : Prop := v.1 = w.1 ∨ v.2 = w.2.

(** The assigned cells of a grid respect the rules of the puzzle: values in
    [1, n], no value twice in a row or column, every inequality between two
    assigned cells satisfied. *)
Record consistent_grid (n : Z) (cs : list constraint) (g : list (list Z)) : Prop := {
  cg_range : ∀ v, in_board n v → cell_value g v ≠ 0 → 1 ≤ cell_value g v ≤ n;
  cg_distinct : ∀ v w, in_board n v → in_board n w → v ≠ w → shares_line v w →
                cell_value g v ≠ 0 → cell_value g v ≠ cell_value g w;
  cg_ineq : ∀ a c op, (a, c, op) ∈ cs → cell_value g a ≠ 0 → cell_value g c ≠ 0 →
            op_rel op (cell_value g a) (cell_value g c)
}.

Definition complete_grid (n : Z) (g : list (list Z)) : Prop :=
  ∀ v, in_board n v → cell_value g v ≠ 0.

Definition is_solution (n : Z) (cs : list constraint) (sol : list (list Z)) : Prop :=
  grid_shape n sol ∧ complete_grid n sol ∧ consistent_grid n cs sol.

(** [sol] keeps every assigned cell of [g]. *)
Definition extends (n : Z) (g sol : list (list Z)) : Prop :=
  ∀ v, in_board n v → cell_value g v ≠ 0 → cell_value sol v = cell_value g v.

(** A board on which no operation of the engine raises: the grid is
    size x size, constraints link cells of the board, and every cell has a
    domain within [1, size]. *)
Record board_wf (b : FutoshikiBoard) : Prop := {
  wf_shape : grid_shape (board_size b) (grid b);
  wf_constraints : ∀ a c op, (a, c, op) ∈ inequality_constraints b →
                   in_board (board_size b) a ∧ in_board (board_size b) c;
  wf_domains : ∀ v, in_board (board_size b) v →
               ∃ D, domains b !! v = Some D ∧ ∀ x, x ∈ D → 1 ≤ x ≤ board_size b
}.

(** The domains still allow the complete assignment [sol]. *)
Definition admits (b : FutoshikiBoard) (sol : list (list Z)) : Prop :=
  ∀ v D, in_board (board_size b) v → domains b !! v = Some D → cell_value sol v ∈ D.

(** The verdict of one iteration of the inequality loop of [is_consistent],
    read off the grid entries. *)
Definition violates (g : list (list Z)) (var : cell) (value : Z) (k : constraint) : bool :=
  let '(v1, v2, op) := k in
  let val1 := cell_value g v1 in
  let val2 := cell_value g v2 in
  if bool_decide (v1 = var) && bool_decide (val2 ≠ 0) then
    negb (op_holds op value val2)
  else if bool_decide (v2 = var) && bool_decide (val1 ≠ 0) then
    negb (op_holds op val1 value)
  else if bool_decide (val1 ≠ 0) && bool_decide (val2 ≠ 0)
          && (bool_decide (v1 ≠ var) && bool_decide (v2 ≠ var)) then
    negb (op_holds op val1 val2)
  else false.

(** Some inequality constraint links the two cells, in either direction. *)
Definition linked (cs : list constraint) (xi xj : cell) : Prop :=
  ∃ op, (xi, xj, op) ∈ cs ∨ (xj, xi, op) ∈ cs.

(** Two distinct cells in the same row or column, or linked by an
    inequality. *)
Definition directly_constrained (cs : list constraint) (xi xj : cell) : Prop :=
  xi ≠ xj ∧ (shares_line xi xj ∨ linked cs xi xj).

(** [x] at [xi] and [y] at [xj] satisfy everything the puzzle asks of the
    pair: all-different when they share a line, and every inequality between
    them. *)
Definition jointly_satisfy (cs : list constraint) (xi xj : cell) (x y : Z) : Prop :=
  (shares_line xi xj → x ≠ y)
  ∧ (∀ op, (xi, xj, op) ∈ cs → op_rel op x y)
  ∧ (∀ op, (xj, xi, op) ∈ cs → op_rel op y x).

(** What [revise] accepts as support: all-different when the cells share a
    line and, when inequalities link them, one of those inequalities. *)
Definition supports (cs : list constraint) (xi xj : cell) (x y : Z) : Prop :=
  (shares_line xi xj → x ≠ y)
  ∧ (linked cs xi xj →
     ∃ op, ((xi, xj, op) ∈ cs ∧ op_rel op x y) ∨ ((xj, xi, op) ∈ cs ∧ op_rel op y x)).

(** No two entries of the constraint list link the same pair of cells (the
    assumption [forward_check] states: one inequality per pair of cells). *)
Definition single_inequality_per_pair (cs : list constraint) : Prop :=
  ∀ i j a c op a' c' op',
    cs !! i = Some (a, c, op) → cs !! j = Some (a', c', op') →
    (a = a' ∧ c = c') ∨ (a = c' ∧ c = a') → i = j.

(** Every value of [xi]'s domain has a support in [xj]'s domain. *)
Definition arc_supported (b : FutoshikiBoard) (xi xj : cell) : Prop :=
  ∀ Di Dj x, domains b !! xi = Some Di → domains b !! xj = Some Dj → x ∈ Di →
    ∃ y, y ∈ Dj ∧ supports (inequality_constraints b) xi xj x y.

(** The loop invariant of [ac2]: an arc that is not waiting in the queue is
    supported. *)
Definition ac2_invariant (b : FutoshikiBoard) (queue : list (cell * cell)) : Prop :=
  ∀ xi xj, in_board (board_size b) xi → in_board (board_size b) xj →
    directly_constrained (inequality_constraints b) xi xj →
    (xi, xj) ∈ queue ∨ arc_supported b xi xj.

(** Every domain of [b'] is within the corresponding domain of [b]. *)
Definition shrinks (b b' : FutoshikiBoard) : Prop :=
  ∀ v D, domains b !! v = Some D → ∃ D', domains b' !! v = Some D' ∧ D' ⊆ D.

(** Every cell of the board has a domain within [1, n]. *)
Definition dom_wf (n : Z) (d : gmap cell (gset Z)) : Prop :=
  ∀ v, in_board n v → ∃ D, d !! v = Some D ∧ ∀ x, x ∈ D → 1 ≤ x ≤ n.

(** The number of cells still at the sentinel 0. *)
Definition unassigned_count (b : FutoshikiBoard) : nat :=
  length (filter (λ v, cell_value (grid b) v = 0) (all_cells (board_size b))).

(** [b'] is a solved board that keeps the assigned cells of [b]. *)
Definition solved_from (b b' : FutoshikiBoard) : Prop :=
  board_size b' = board_size b
  ∧ inequality_constraints b' = inequality_constraints b
  ∧ is_solution (board_size b) (inequality_constraints b) (grid b')
  ∧ extends (board_size b) (grid b) (grid b').

(** What a search entered on board [b] returns: on success a solved board, on
    failure the same grid, and then no solution within the current domains
    keeps the assigned cells of [b]. *)
Definition search_post (b : FutoshikiBoard) (r : bool) (b' : FutoshikiBoard) : Prop :=
  if r then solved_from b b'
  else same_frame b b'
       ∧ ∀ sol, is_solution (board_size b) (inequality_constraints b) sol →
                extends (board_size b) (grid b) sol → admits b sol → False.

(** The domain [__init__] gives a cell before pruning. *)
Definition initial_domain (n : Z) (g : list (list Z)) (v : cell) : gset Z :=
  if decide (cell_value g v = 0) then full_domain n else {[cell_value g v]}.

(** [d'] is [d] with, at most, value [x] removed from domains of cells that
    share a line with [fixed]. *)
Definition prunes_only (n : Z) (fixed : cell) (x : Z) (d d' : gmap cell (gset Z)) : Prop :=
  ∀ k D, d !! k = Some D →
    ∃ D', d' !! k = Some D' ∧ D' ⊆ D
      ∧ ∀ y, y ∈ D → y ∉ D' → y = x ∧ k ≠ fixed ∧ shares_line fixed k ∧ in_board n k.

(** The domains after [_prune_initial_domains]: within the initial ones, and
    a missing value is a clue on the same line. *)
Definition pruned_by_clues (n : Z) (g : list (list Z)) (d d' : gmap cell (gset Z)) : Prop :=
  ∀ k D, d !! k = Some D →
    ∃ D', d' !! k = Some D' ∧ D' ⊆ D
      ∧ ∀ y, y ∈ D → y ∉ D' →
          ∃ w, in_board n w ∧ w ≠ k ∧ shares_line w k ∧ cell_value g w = y ∧ y ≠ 0
               ∧ in_board n k.

(** The cells whose domain [_enforce_all_different_constraints] visits for
    the fixed cell: the others of its row and of its column. *)
Definition line_mate (n : Z) (fixed k : cell) : Prop :=
  (k.1 = fixed.1 ∧ k.2 ≠ fixed.2 ∧ 0 ≤ k.2 < n) ∨ (k.2 = fixed.2 ∧ k.1 ≠ fixed.1 ∧ 0 ≤ k.1 < n).

#[global] Instance line_mate_dec n fixed k : Decision (line_mate n fixed k).
Proof. unfold line_mate. apply _. Defined.

(** The clue [y] of cell [w] stands on a line of [k]. *)
Definition clue_on_line (n : Z) (g : list (list Z)) (w k : cell) (y : Z) : Prop :=
  cell_value g w = y ∧ y ≠ 0 ∧ line_mate n w k.

(** Row-major order on cells. *)
Definition row_major (a b : cell) : Prop := a.1 < b.1 ∨ (a.1 = b.1 ∧ a.2 < b.2).

(** The state of the loop of MRV after the cells of [seen]: the best cell is
    the first of the cells seen whose domain has the least size. *)
Definition mrv_state (b : FutoshikiBoard) (seen : list cell)
    (st : option nat * option cell) : Prop :=
  match st with
  | (None, None) => seen = []
  | (Some m, Some v) =>
      ∃ pre post D, seen = pre ++ v :: post ∧ domains b !! v = Some D ∧ size D = m
        ∧ (∀ w, w ∈ pre → ∃ Dw, domains b !! w = Some Dw ∧ (m < size Dw)%nat)
        ∧ (∀ w, w ∈ post → ∃ Dw, domains b !! w = Some Dw ∧ (m ≤ size Dw)%nat)
  | _ => False
  end.


(** ** Concrete boards *)

Definition empty_board : FutoshikiBoard := mkBoard 0 [] ∅ [].

Definition board_of (r : res FutoshikiBoard) : FutoshikiBoard :=
  match r with
  | Ok b => b
  | _ => empty_board
  end.

Definition solver_of (r : res (bool * CSPSolver)) (s : CSPSolver) : CSPSolver :=
  match r with
  | Ok (_, s') => s'
  | _ => s
  end.

(** 2 x 2, one clue, no inequality; the only solution is [[1;2];[2;1]]. *)
Definition one_clue_grid : list (list Z) := [[1; 0]; [0; 0]].
Definition one_clue_board : FutoshikiBoard := board_of (__init__ 2 (Some one_clue_grid) None).
Definition one_clue_solution : list (list Z) := [[1; 2]; [2; 1]].

Definition one_clue_solver : CSPSolver := mkSolver one_clue_board true true true true 0.
Definition one_clue_final : CSPSolver :=
  solver_of (solve (ord := sorted_order) one_clue_solver) one_clue_solver.

Definition one_clue_after_lcv : FutoshikiBoard :=
  match order_domain_values_lcv (ord := sorted_order) (0, 1) one_clue_board with
  | Ok (_, b) => b
  | _ => empty_board
  end.

(** 2 x 2, every cell a clue, all equal. *)
Definition equal_clues_board : FutoshikiBoard :=
  board_of (__init__ 2 (Some [[1; 1]; [1; 1]]) None).

(** 2 x 2, two equal clues in the first row: no solution. *)
Definition clash_board : FutoshikiBoard := board_of (__init__ 2 (Some [[1; 1]; [0; 0]]) None).
Definition clash_solver : CSPSolver := mkSolver clash_board false false false false 0.
Definition clash_final : CSPSolver :=
  solver_of (solve (ord := sorted_order) clash_solver) clash_solver.

(** 2 x 2, three equal clues and one free cell: no solution either. The
    solver is the one [CSPSolver(board)] builds, all flags off. *)
Definition three_clues_grid : list (list Z) := [[1; 1]; [1; 0]].
Definition three_clues_board : FutoshikiBoard :=
  board_of (__init__ 2 (Some three_clues_grid) None).
Definition three_clues_solver : CSPSolver := mkSolver three_clues_board false false false false 0.
Definition three_clues_final : CSPSolver :=
  solver_of (solve (ord := sorted_order) three_clues_solver) three_clues_solver.

(** 2 x 2, no clue, (0,0) > (0,1); (0,0) has just been assigned 1, as the
    search does before it calls [forward_check]. *)
Definition greater_board : FutoshikiBoard :=
  board_of (b ← __init__ 2 None (Some [((0, 0), (0, 1), OpGt)]); assign b (0, 0) 1).

Definition greater_board_after_fc : FutoshikiBoard :=
  match forward_check (ord := sorted_order) greater_board (0, 0) 1 with
  | Ok (_, b) => b
  | _ => empty_board
  end.

(** 2 x 2, no clue, two contradictory inequalities on the same pair. *)
Definition contradictory_constraints : list constraint :=
  [((0, 0), (0, 1), OpLt); ((0, 0), (0, 1), OpGt)].
Definition contradictory_board : FutoshikiBoard :=
  board_of (__init__ 2 None (Some contradictory_constraints)).

(** 2 x 2, no clue, (0,0) < (0,1). *)
Definition less_constraints : list constraint := [((0, 0), (0, 1), OpLt)].
Definition less_board : FutoshikiBoard := board_of (__init__ 2 None (Some less_constraints)).
Definition less_board_ac2 : FutoshikiBoard :=
  match ac2 (ord := sorted_order) less_board with
  | Ok (_, b) => b
  | _ => empty_board
  end.

(** The one-clue board after [assign((0,1), 2)], and after the forward check
    that follows. *)
Definition one_clue_assigned : FutoshikiBoard := board_of (assign one_clue_board (0, 1) 2).

Definition one_clue_pruned : list (cell * gset Z) :=
  match forward_check (ord := sorted_order) one_clue_assigned (0, 1) 2 with
  | Ok (Some pruned, _) => pruned
  | _ => []
  end.

Definition one_clue_after_fc : FutoshikiBoard :=
  match forward_check (ord := sorted_order) one_clue_assigned (0, 1) 2 with
  | Ok (_, b) => b
  | _ => empty_board
  end.

Definition one_clue_ac2 : FutoshikiBoard :=
  match ac2 (ord := sorted_order) one_clue_board with
  | Ok (_, b) => b
  | _ => empty_board
  end.

(** The board with (0,0) < (0,1) after [revise((0,0), (0,1))]. *)
Definition less_board_revised : FutoshikiBoard :=
  match revise (ord := sorted_order) less_board (0, 0) (0, 1) with
  | Ok (_, b) => b
  | _ => empty_board
  end.

Definition clash_board_ac2 : FutoshikiBoard :=
  match ac2 (ord := sorted_order) clash_board with
  | Ok (_, b) => b
  | _ => empty_board
  end.

(** 3 x 3, no clue, (0,0) > (0,1): the value 1 at (0,0) leaves (0,1) without
    a smaller value, the values 2 and 3 do not. *)
Definition greater_three_board : FutoshikiBoard :=
  board_of (__init__ 3 None (Some [((0, 0), (0, 1), OpGt)])).
Definition greater_three_after_lcv : FutoshikiBoard :=
  match order_domain_values_lcv (ord := sorted_order) (0, 0) greater_three_board with
  | Ok (_, b) => b
  | _ => empty_board
  end.

(** * Proofs *)

(** ** Python list indexing *)

Lemma py_index_in_range len i : 0 ≤ i < len → py_index len i = Some (Z.to_nat i).
Proof. intros ?. unfold py_index. by rewrite bool_decide_eq_true_2. Qed.

Lemma py_index_lt len i n : py_index len i = Some n → (Z.of_nat n < len).
Proof.
  unfold py_index. repeat case_bool_decide; intros; simplify_eq; lia.
Qed.

Lemma list_get_Ok {A} (l : list A) i x :
  list_get l i = Ok x →
  ∃ n, py_index (Z.of_nat (length l)) i = Some n ∧ l !! n = Some x.
Proof.
  unfold list_get. destruct (py_index _ i) as [n|]; [|done].
  destruct (l !! n) eqn:E; [|done]. intros; simplify_eq. eauto.
Qed.

Lemma list_set_Ok {A} (l : list A) i x l' :
  list_set l i x = Ok l' →
  ∃ n, py_index (Z.of_nat (length l)) i = Some n ∧ l' = <[n := x]> l.
Proof.
  unfold list_set. destruct (py_index _ i) as [n|]; [|done].
  intros; simplify_eq. eauto.
Qed.

Lemma list_get_in_range {A} (l : list A) i x :
  0 ≤ i → l !! Z.to_nat i = Some x → list_get l i = Ok x.
Proof.
  intros Hi Hl. unfold list_get.
  rewrite py_index_in_range; [by rewrite Hl|].
  apply lookup_lt_Some in Hl. lia.
Qed.

Lemma list_set_in_range {A} (l : list A) i x :
  0 ≤ i < Z.of_nat (length l) → list_set l i x = Ok (<[Z.to_nat i := x]> l).
Proof. intros Hi. unfold list_set. by rewrite py_index_in_range. Qed.

Lemma res_bind_Ok {A B} (a : A) (k : A → res B) : Ok a ≫= k = k a.
Proof. done. Qed.

Lemma bind_Ok {A B} (m : res A) (k : A → res B) b :
  m ≫= k = Ok b → ∃ a, m = Ok a ∧ k a = Ok b.
Proof. destruct m; simpl; [eauto|done..]. Qed.

Lemma list_get_at {A} (l : list A) i n x :
  py_index (Z.of_nat (length l)) i = Some n → l !! n = Some x → list_get l i = Ok x.
Proof. intros Hn Hl. unfold list_get. by rewrite Hn, Hl. Qed.

Lemma list_set_at {A} (l : list A) i n x :
  py_index (Z.of_nat (length l)) i = Some n → list_set l i x = Ok (<[n := x]> l).
Proof. intros Hn. unfold list_set. by rewrite Hn. Qed.

(** Writing back what was read undoes a write. *)
Lemma grid_set_undo g v x a g1 :
  grid_get g v = Ok a → grid_set g v x = Ok g1 → grid_set g1 v a = Ok g.
Proof.
  unfold grid_get, grid_set. intros Hget Hset.
  apply bind_Ok in Hget as (row & Hrow & Hget).
  rewrite Hrow in Hset. simpl in Hset.
  apply bind_Ok in Hset as (row' & Hrow' & Hset).
  apply list_get_Ok in Hrow as (n & Hn & Hln).
  apply list_get_Ok in Hget as (m & Hm & Hlm).
  apply list_set_Ok in Hrow' as (m' & Hm' & ->).
  apply list_set_Ok in Hset as (n' & Hn' & ->).
  rewrite Hn in Hn'. rewrite Hm in Hm'. injection Hn' as <-. injection Hm' as <-.
  assert (Hlt : (n < length g)%nat) by by eapply lookup_lt_Some.
  rewrite (list_get_at _ v.1 n (<[m:=x]> row)).
  2: by rewrite length_insert.
  2: by rewrite list_lookup_insert_eq.
  simpl. rewrite (list_set_at _ v.2 m) by by rewrite length_insert.
  simpl. rewrite (list_set_at _ v.1 n) by by rewrite length_insert.
  f_equal. rewrite !list_insert_insert_eq.
  rewrite (list_insert_id row m a) by done.
  by rewrite list_insert_id.
Qed.

Lemma elem_of_range n i : i ∈ range n ↔ 0 ≤ i < n.
Proof. unfold range. rewrite elem_of_seqZ. lia. Qed.

Lemma elem_of_all_cells n v : v ∈ all_cells n ↔ in_board n v.
Proof.
  unfold all_cells, in_board. destruct v as [r c]. simpl.
  rewrite list_elem_of_bind. split.
  - intros (r' & Hc & Hr). apply list_elem_of_bind in Hc as (c' & Hrc & Hc).
    apply list_elem_of_singleton in Hrc. simplify_eq.
    by rewrite <- !elem_of_range.
  - intros [Hr Hc]. exists r. rewrite list_elem_of_bind, elem_of_range. split; [|done].
    exists c. rewrite elem_of_range, list_elem_of_singleton. done.
Qed.

Lemma grid_shape_lookup n g v :
  grid_shape n g → in_board n v →
  ∃ row, g !! Z.to_nat v.1 = Some row ∧ length row = Z.to_nat n
         ∧ row !! Z.to_nat v.2 = Some (cell_value g v).
Proof.
  intros [Hlen Hrows] [Hr Hc].
  destruct (lookup_lt_is_Some_2 g (Z.to_nat v.1)) as [row Hrow]; [lia|].
  assert (Hl : length row = Z.to_nat n).
  { rewrite Forall_forall in Hrows. apply Hrows. by eapply list_elem_of_lookup_2. }
  destruct (lookup_lt_is_Some_2 row (Z.to_nat v.2)) as [x Hx]; [lia|].
  exists row. split_and!; [done..|].
  unfold cell_value. rewrite Hrow. simpl. by rewrite Hx.
Qed.

Lemma grid_get_in_board n g v :
  grid_shape n g → in_board n v → grid_get g v = Ok (cell_value g v).
Proof.
  intros Hs Hv. destruct (grid_shape_lookup n g v Hs Hv) as (row & Hrow & Hl & Hx).
  destruct Hv as [Hr Hc]. unfold grid_get.
  rewrite (list_get_in_range g v.1 row) by (done || lia). simpl.
  apply list_get_in_range; [lia | done].
Qed.

Lemma grid_set_in_board n g v x :
  grid_shape n g → in_board n v →
  ∃ g', grid_set g v x = Ok g' ∧ grid_shape n g' ∧ cell_value g' v = x
        ∧ ∀ w, in_board n w → w ≠ v → cell_value g' w = cell_value g w.
Proof.
  intros Hs Hv. destruct (grid_shape_lookup n g v Hs Hv) as (row & Hrow & Hl & Hx).
  destruct Hs as [Hlen Hrows]. destruct (Hv) as [Hr Hc].
  exists (<[Z.to_nat v.1 := <[Z.to_nat v.2 := x]> row]> g). split_and!.
  - unfold grid_set. rewrite (list_get_in_range g v.1 row) by (done || lia). simpl.
    rewrite list_set_in_range by lia. simpl. apply list_set_in_range. lia.
  - split; [by rewrite length_insert|].
    apply Forall_insert; [done|]. by rewrite length_insert.
  - unfold cell_value. rewrite list_lookup_insert_eq by lia. simpl.
    rewrite list_lookup_insert_eq by lia. done.
  - intros w [Hwr Hwc] Hne. unfold cell_value.
    destruct (decide (Z.to_nat w.1 = Z.to_nat v.1)) as [Heq|Hneq].
    + rewrite Heq, list_lookup_insert_eq by lia. rewrite Hrow. simpl.
      rewrite list_lookup_insert_ne; [done|].
      intros Heq2. apply Hne. destruct w, v; simpl in *. f_equal; lia.
    + by rewrite list_lookup_insert_ne.
Qed.

(** ** Loops in the result monad *)

Lemma foldM_inv {A S} (P : S → Prop) (f : S → A → res S) l s s' :
  (∀ s x s', x ∈ l → P s → f s x = Ok s' → P s') →
  P s → foldM f s l = Ok s' → P s'.
Proof.
  revert s. induction l as [|x l IH]; simpl; intros s Hf Hs Hr.
  - by simplify_eq.
  - apply bind_Ok in Hr as (s1 & H1 & Hr). eapply IH; [| |done].
    + intros ????. apply Hf. by right.
    + eapply Hf; [by left|done..].
Qed.

Lemma foldM_cons {A S} (f : S → A → res S) s x l :
  foldM f s (x :: l) = s' ← f s x; foldM f s' l.
Proof. done. Qed.

Lemma foldM_total {A S} (P : S → Prop) (f : S → A → res S) l s :
  (∀ s x, x ∈ l → P s → ∃ s', f s x = Ok s' ∧ P s') →
  P s → ∃ s', foldM f s l = Ok s' ∧ P s'.
Proof.
  revert s. induction l as [|x l IH]; simpl; intros s Hf Hs; [eauto|].
  destruct (Hf s x) as (s1 & -> & H1); [by left|done|]. simpl.
  apply IH; [|done]. intros ????. apply Hf; [by right|done].
Qed.

Lemma filterM_Ok {A} (p : A → res bool) l r :
  filterM p l = Ok r → ∀ x, x ∈ r ↔ x ∈ l ∧ p x = Ok true.
Proof.
  revert r. induction l as [|y l IH]; simpl; intros r Hr x.
  - simplify_eq. set_solver.
  - apply bind_Ok in Hr as (b & Hb & Hr). apply bind_Ok in Hr as (r' & Hr' & Hr).
    simplify_eq. specialize (IH _ Hr' x). destruct b.
    + rewrite !elem_of_cons, IH. split; [intros [->|[??]]; eauto|].
      intros [[->|?] ?]; eauto.
    + rewrite IH, elem_of_cons. split; [intros [??]; eauto|].
      intros [[->|?] ?]; [congruence|eauto].
Qed.

Lemma filterM_total {A} (p : A → res bool) l :
  (∀ x, x ∈ l → ∃ b, p x = Ok b) → ∃ r, filterM p l = Ok r.
Proof.
  induction l as [|y l IH]; simpl; intros Hp; [eauto|].
  destruct (Hp y) as [b ->]; [by left|]. simpl.
  destruct IH as [r ->]; [intros; apply Hp; by right|]. simpl. eauto.
Qed.

Lemma anyM_Ok_false {A} (p : A → res bool) l :
  anyM p l = Ok false ↔ ∀ x, x ∈ l → p x = Ok false.
Proof.
  induction l as [|y l IH]; simpl.
  - split; [set_solver|done].
  - split.
    + intros Hr. apply bind_Ok in Hr as ([] & Hb & Hr); [done|].
      intros x [->|Hx]%elem_of_cons; [done|]. by apply IH.
    + intros Hp. rewrite (Hp y) by by left. simpl. apply IH.
      intros; apply Hp; by right.
Qed.

Lemma anyM_Ok_true {A} (p : A → res bool) l :
  anyM p l = Ok true → ∃ x, x ∈ l ∧ p x = Ok true.
Proof.
  induction l as [|y l IH]; simpl; [done|].
  intros Hr. apply bind_Ok in Hr as ([] & Hb & Hr).
  - exists y. split; [by left|done].
  - destruct (IH Hr) as (x & ? & ?). exists x. split; [by right|done].
Qed.

Lemma anyM_total {A} (p : A → res bool) l :
  (∀ x, x ∈ l → ∃ b, p x = Ok b) → ∃ b, anyM p l = Ok b.
Proof.
  induction l as [|y l IH]; simpl; intros Hp; [eauto|].
  destruct (Hp y) as [[] ->]; [by left|..]; simpl; [eauto|].
  apply IH. intros; apply Hp; by right.
Qed.

(** ** The board: assign and unassign *)

Lemma elem_of_full_domain n x : x ∈ full_domain n ↔ 1 ≤ x ≤ n.
Proof. unfold full_domain. rewrite elem_of_list_to_set, elem_of_seqZ. lia. Qed.

(** C8. Assign/unassign round-trip: on a board whose grid is size x size,
    for every cell of the board and every value, [assign(cell, v)] followed
    by [unassign(cell)] succeeds, leaves [grid[cell]] at the sentinel 0 and
    [domains[cell]] equal to the full set {1..size}, and leaves the grid
    entry and the domain of every other cell as they were. *)
Theorem assign_unassign_round_trip (b : FutoshikiBoard) (var : cell) (value : Z) :
  grid_shape (board_size b) (grid b) →
  in_board (board_size b) var →
  ∃ b2 D, (b1 ← assign b var value; unassign b1 var) = Ok b2
    ∧ cell_value (grid b2) var = 0
    ∧ domains b2 !! var = Some D
    ∧ (∀ x, x ∈ D ↔ 1 ≤ x ≤ board_size b)
    ∧ (∀ w, in_board (board_size b) w → w ≠ var →
            cell_value (grid b2) w = cell_value (grid b) w)
    ∧ (∀ w, w ≠ var → domains b2 !! w = domains b !! w).
Proof.
  intros Hs Hv.
  destruct (grid_set_in_board _ _ var value Hs Hv) as (g1 & Hg1 & Hs1 & Hv1 & Ho1).
  destruct (grid_set_in_board _ _ var 0 Hs1 Hv) as (g2 & Hg2 & Hs2 & Hv2 & Ho2).
  eexists _, (full_domain (board_size b)). split_and!.
  - unfold assign. rewrite Hg1. simpl. unfold unassign. simpl. rewrite Hg2.
    simpl. reflexivity.
  - done.
  - simpl. by rewrite lookup_insert_eq.
  - apply elem_of_full_domain.
  - intros w Hw Hne. simpl. rewrite Ho2, Ho1 by done. done.
  - intros w Hne. simpl. by rewrite !lookup_insert_ne.
Qed.

(** C9. [is_consistent] depends only on the grid: two boards with the same
    size, the same constraint list and the same grid, whatever their domain
    mappings, get the same verdict (or the same exception) for every cell and
    value. *)
Theorem is_consistent_ignores_domains (n : Z) (g : list (list Z))
    (cs : list constraint) (d1 d2 : gmap cell (gset Z)) (var : cell) (value : Z) :
  is_consistent (mkBoard n g d1 cs) var value = is_consistent (mkBoard n g d2 cs) var value.
Proof. reflexivity. Qed.

(** ** Frame: inference and heuristics leave the grid alone *)

#[global] Instance same_frame_refl : Reflexive same_frame.
Proof. by intros b. Qed.

#[global] Instance same_frame_trans : Transitive same_frame.
Proof. intros b1 b2 b3 (?&?&?) (?&?&?). unfold same_frame. split_and!; congruence. Qed.

Lemma same_frame_set_domains b d : same_frame b (set_domains b d).
Proof. done. Qed.

Section frame.
Context {ord : SetOrder}.

Lemma revise_frame b xi xj r b' : revise b xi xj = Ok (r, b') → same_frame b b'.
Proof.
  unfold revise. intros Hr.
  apply bind_Ok in Hr as (Di & _ & Hr). apply bind_Ok in Hr as (rm & _ & Hr).
  destruct rm; simplify_eq; done.
Qed.

Lemma ac2_loop_frame fuel b q r b' : ac2_loop fuel b q = Ok (r, b') → same_frame b b'.
Proof.
  revert b q. induction fuel as [|fuel IH]; intros b [|[xi xj] q] Hr; simpl in Hr;
    simplify_eq; try done.
  apply bind_Ok in Hr as ([revised b1] & Hrev & Hr).
  apply revise_frame in Hrev. destruct revised.
  - apply bind_Ok in Hr as (Di & _ & Hr). case_decide; simplify_eq; [done|].
    etrans; [done|]. by eapply IH.
  - etrans; [done|]. by eapply IH.
Qed.

Lemma ac2_frame b r b' : ac2 b = Ok (r, b') → same_frame b b'.
Proof. apply ac2_loop_frame. Qed.

Lemma forward_check_frame b var value r b' :
  forward_check b var value = Ok (r, b') → same_frame b b'.
Proof.
  unfold forward_check. intros Hr.
  apply bind_Ok in Hr as (D & _ & Hr). apply bind_Ok in Hr as ([r1 d] & _ & Hr).
  simplify_eq. done.
Qed.

Lemma infer_frame s b var value r b' :
  infer s b var value = Ok (r, b') → same_frame b b'.
Proof.
  unfold infer. intros Hr. apply bind_Ok in Hr as ([ok b1] & H1 & Hr).
  assert (same_frame b b1).
  { destruct (use_forward_checking s); [|by simplify_eq].
    apply bind_Ok in H1 as ([fc b2] & Hfc & H1). simplify_eq.
    by eapply forward_check_frame. }
  destruct (ok && use_ac2 s).
  - etrans; [done|]. by eapply ac2_frame.
  - by simplify_eq.
Qed.

Lemma assign_unassign_grid b var value b1 b2 :
  grid_get (grid b) var = Ok 0 →
  assign b var value = Ok b1 → same_frame b1 b2 → ∃ b3,
  unassign b2 var = Ok b3 ∧ same_frame b b3.
Proof.
  intros H0 Ha (Hn & Hg & Hcs). unfold assign in Ha.
  apply bind_Ok in Ha as (g1 & Hg1 & Ha). simplify_eq. simpl in *.
  unfold unassign. rewrite Hg, (grid_set_undo _ _ _ _ _ H0 Hg1). simpl.
  eexists. split; [done|]. unfold same_frame. simpl. done.
Qed.

Lemma order_domain_values_lcv_frame var b vals b' :
  grid_get (grid b) var = Ok 0 →
  order_domain_values_lcv var b = Ok (vals, b') → same_frame b b'.
Proof.
  unfold order_domain_values_lcv. intros H0 Hr.
  apply bind_Ok in Hr as (D & _ & Hr). apply bind_Ok in Hr as ([counts b1] & Hf & Hr).
  simplify_eq.
  apply (foldM_inv (λ st, same_frame b st.2)) in Hf; [done| |done].
  intros [cnt bi] value [cnt' bi'] _ Hbi Hstep. simpl in *.
  apply bind_Ok in Hstep as (b1 & Ha & Hstep).
  apply bind_Ok in Hstep as (c & _ & Hstep).
  apply bind_Ok in Hstep as (b2 & Hu & Hstep). simplify_eq.
  destruct Hbi as (Hn & Hg & Hcs).
  destruct (assign_unassign_grid bi var value b1 b1) as (b3 & Hu' & Hfr);
    [by rewrite Hg|done|done|].
  rewrite Hu in Hu'. simplify_eq. etrans; [|done]. done.
Qed.

Lemma get_unassigned_variables_Ok b l :
  get_unassigned_variables b = Ok l →
  ∀ v, v ∈ l ↔ in_board (board_size b) v ∧ grid_get (grid b) v = Ok 0.
Proof.
  intros Hl v. rewrite (filterM_Ok _ _ _ Hl), elem_of_all_cells.
  split; intros [Hv Hg]; (split; [done|]).
  - apply bind_Ok in Hg as (x & Hx & Hg). simplify_eq.
    by apply bool_decide_eq_true_1 in Hg as ->.
  - by rewrite Hg.
Qed.

Lemma select_unassigned_variable_mrv_Ok b var :
  select_unassigned_variable_mrv b = Ok (Some var) →
  ∃ l, get_unassigned_variables b = Ok l ∧ var ∈ l.
Proof.
  unfold select_unassigned_variable_mrv. intros Hr.
  apply bind_Ok in Hr as (l & Hl & Hr). exists l. split; [done|].
  apply bind_Ok in Hr as ([m best] & Hf & Hr). simplify_eq.
  assert (Hinv : ∀ v, (m, Some var).2 = Some v → v ∈ l); [|by apply Hinv].
  eapply (foldM_inv (λ st, ∀ v, st.2 = Some v → v ∈ l)); [| |exact Hf].
  - intros [m0 b0] x [m1 b1] Hx Hst Hstep. simpl in *.
    apply bind_Ok in Hstep as (D & _ & Hstep).
    destruct m0; [case_decide|]; simplify_eq; try done; by intros ? [= <-].
  - done.
Qed.

Lemma try_values_failure_frame (rec : CSPSolver → res (bool * CSPSolver)) var vals s s' :
  (∀ s1 s2, rec s1 = Ok (false, s2) → same_frame (board s1) (board s2)) →
  grid_get (grid (board s)) var = Ok 0 →
  try_values rec var vals s = Ok (false, s') → same_frame (board s) (board s').
Proof.
  intros Hrec. revert s. induction vals as [|value rest IH]; intros s H0 Hr; simpl in Hr.
  - by simplify_eq.
  - apply bind_Ok in Hr as (x & _ & Hr). apply bind_Ok in Hr as (b1 & Ha & Hr).
    apply bind_Ok in Hr as (consistent & _ & Hr).
    apply bind_Ok in Hr as ([found s1] & Hstep & Hr).
    assert (found = false ∧ same_frame b1 (board s1)) as [-> Hfr].
    { destruct found.
      { exfalso. simplify_eq. }
      split; [done|]. destruct consistent; [|by simplify_eq].
      apply bind_Ok in Hstep as ([ok b2] & Hinf & Hstep).
      apply infer_frame in Hinf. destruct ok; [|by simplify_eq].
      apply Hrec in Hstep. etrans; [done|]. done. }
    apply bind_Ok in Hr as (b3 & Hu & Hr).
    destruct (assign_unassign_grid _ _ _ _ _ H0 Ha Hfr) as (b3' & Hu' & Hfr3).
    rewrite Hu in Hu'. simplify_eq.
    apply IH in Hr.
    + etrans; [|done]. done.
    + simpl. destruct Hfr3 as (? & -> & ?). done.
Qed.

Lemma backtracking_search_failure_frame fuel s s' :
  _backtracking_search fuel s = Ok (false, s') → same_frame (board s) (board s').
Proof.
  revert s s'. induction fuel as [|fuel IH]; intros s s' Hr; simpl in Hr; [done|].
  apply bind_Ok in Hr as (l & Hl & Hr). destruct l as [|first l]; [by simplify_eq|].
  apply bind_Ok in Hr as (sel & Hsel & Hr). destruct sel as [var|]; [|done].
  assert (Hvar : grid_get (grid (board s)) var = Ok 0).
  { destruct (use_mrv s).
    - apply select_unassigned_variable_mrv_Ok in Hsel as (l' & Hl' & Hv).
      by apply (get_unassigned_variables_Ok _ _ Hl') in Hv as [_ ?].
    - simplify_eq. apply (get_unassigned_variables_Ok _ _ Hl). by left. }
  apply bind_Ok in Hr as ([vals b] & Hvals & Hr).
  assert (Hfr : same_frame (board s) b).
  { destruct (use_lcv s).
    - by eapply order_domain_values_lcv_frame.
    - apply bind_Ok in Hvals as (D & _ & Hvals). by simplify_eq. }
  apply try_values_failure_frame in Hr; [| apply IH |].
  - etrans; [done|]. done.
  - simpl. destruct Hfr as (_ & -> & _). done.
Qed.

(** C10. A failed search restores the grid: whenever the recursive search
    returns failure, the grid is the one the call was entered with; and when
    [solve] returns failure, the final grid is the initial clue grid. Both
    hold at every recursion depth. *)
Theorem failed_search_restores_grid (fuel : nat) (s s' : CSPSolver) :
  _backtracking_search fuel s = Ok (false, s') ∨ solve_fuel fuel s = Ok (false, s') →
  grid (board s') = grid (board s).
Proof.
  intros [Hr|Hr].
  - by apply backtracking_search_failure_frame in Hr as (_ & ? & _).
  - unfold solve_fuel in Hr. cbn [use_ac2 board] in Hr. destruct (use_ac2 s).
    + apply bind_Ok in Hr as ([ok b] & Hac & Hr).
      apply ac2_frame in Hac as (_ & Hg & _). destruct ok.
      * apply backtracking_search_failure_frame in Hr as (_ & Hg' & _).
        cbn [with_board board] in Hg'. congruence.
      * by simplify_eq.
    + by apply backtracking_search_failure_frame in Hr as (_ & ? & _).
Qed.

End frame.

(** ** The consistency check *)

Lemma op_holds_spec op a c : op_holds op a c = true ↔ op_rel op a c.
Proof. destruct op; simpl; by rewrite bool_decide_eq_true. Qed.

Lemma same_line_spec v w : same_line v w = true ↔ shares_line v w.
Proof.
  unfold same_line, shares_line.
  rewrite orb_true_iff, !bool_decide_eq_true. done.
Qed.

Lemma anyM_pure {A} (p : A → res bool) (q : A → bool) l :
  (∀ x, x ∈ l → p x = Ok (q x)) → anyM p l = Ok (existsb q l).
Proof.
  induction l as [|y l IH]; simpl; intros Hp; [done|].
  rewrite (Hp y) by by left. simpl. destruct (q y); [done|].
  apply IH. intros; apply Hp; by right.
Qed.

Lemma filterM_pure {A} (p : A → res bool) (P : A → Prop) `{!∀ x, Decision (P x)} l :
  (∀ x, x ∈ l → p x = Ok (bool_decide (P x))) → filterM p l = Ok (filter P l).
Proof.
  induction l as [|y l IH]; simpl; intros Hp; [done|].
  rewrite (Hp y) by by left. simpl.
  rewrite IH by (intros; apply Hp; by right). simpl.
  rewrite filter_cons. by case_bool_decide; case_decide.
Qed.

Lemma existsb_false {A} (q : A → bool) l :
  existsb q l = false ↔ ∀ x, x ∈ l → q x = false.
Proof.
  induction l as [|y l IH]; simpl.
  - split; [set_solver|done].
  - rewrite orb_false_iff, IH. split.
    + intros [??] x [->|?]%elem_of_cons; eauto.
    + intros Hq. split; [apply Hq; by left|]. intros; apply Hq; by right.
Qed.

Section consistency.
Context (b : FutoshikiBoard).
Let n := board_size b.
Let g := grid b.
Let cs := inequality_constraints b.
Context (Hshape : grid_shape n g).
Context (Hcs : ∀ a c op, (a, c, op) ∈ cs → in_board n a ∧ in_board n c).

Lemma ineq_violated_pure var value k :
  k ∈ cs → ineq_violated g var value k = Ok (violates g var value k).
Proof.
  destruct k as [[v1 v2] op]. intros [H1 H2]%Hcs. unfold ineq_violated, violates.
  rewrite (grid_get_in_board n g v1), (grid_get_in_board n g v2) by done. done.
Qed.

Lemma get_unassigned_variables_wf :
  get_unassigned_variables b = Ok (filter (λ v, cell_value g v = 0) (all_cells n)).
Proof.
  unfold get_unassigned_variables. apply filterM_pure.
  intros v Hv%elem_of_all_cells. by rewrite (grid_get_in_board n).
Qed.

(** The three loops of [is_consistent], on a well-shaped board. *)
Lemma is_consistent_wf var value :
  in_board n var →
  ∃ ok, is_consistent b var value = Ok ok ∧
    (ok = true ↔
       (∀ w, in_board n w → w ≠ var → shares_line var w → cell_value g w ≠ value)
       ∧ (∀ k, k ∈ cs → violates g var value k = false)).
Proof.
  intros Hvar. destruct var as [r c]. unfold is_consistent. fold n g cs.
  set (rowq := λ col, if decide (col ≠ c)
                      then bool_decide (cell_value g (r, col) = value) else false).
  set (colq := λ row, if decide (row ≠ r)
                      then bool_decide (cell_value g (row, c) = value) else false).
  rewrite (anyM_pure (λ col, if decide (col ≠ c)
                             then x ← grid_get g (r, col); Ok (bool_decide (x = value))
                             else Ok false) rowq); last first.
  { intros col Hcol%elem_of_range. unfold rowq. case_decide; [|done].
    rewrite (grid_get_in_board n); [done..|]. destruct Hvar; split; simpl in *; lia. }
  simpl. destruct (existsb rowq (range n)) eqn:Erow.
  { eexists. split; [done|]. split; [done|]. intros [Hl _]. exfalso.
    apply existsb_exists in Erow as (col & Hcol%list_elem_of_In%elem_of_range & Hq).
    unfold rowq in Hq. case_decide; [|done]. apply bool_decide_eq_true_1 in Hq.
    apply (Hl (r, col)); [destruct Hvar; split; simpl in *; lia|congruence|by left|done]. }
  rewrite (anyM_pure (λ row, if decide (row ≠ r)
                             then x ← grid_get g (row, c); Ok (bool_decide (x = value))
                             else Ok false) colq); last first.
  { intros row Hrow%elem_of_range. unfold colq. case_decide; [|done].
    rewrite (grid_get_in_board n); [done..|]. destruct Hvar; split; simpl in *; lia. }
  simpl. destruct (existsb colq (range n)) eqn:Ecol.
  { eexists. split; [done|]. split; [done|]. intros [Hl _]. exfalso.
    apply existsb_exists in Ecol as (row & Hrow%list_elem_of_In%elem_of_range & Hq).
    unfold colq in Hq. case_decide; [|done]. apply bool_decide_eq_true_1 in Hq.
    apply (Hl (row, c)); [destruct Hvar; split; simpl in *; lia|congruence|by right|done]. }
  rewrite (anyM_pure _ (violates g (r, c) value)) by (intros; by apply ineq_violated_pure).
  simpl. eexists. split; [done|]. rewrite negb_true_iff, existsb_false.
  split; [|intros [_ ?]; done]. intros Hv. split; [|done].
  intros [r' c'] [Hr' Hc'] Hne [Hl|Hl]; simpl in *; subst.
  - rewrite existsb_false in Erow. specialize (Erow c'). unfold rowq in Erow.
    destruct (decide (c' ≠ c)); [|exfalso; apply Hne; f_equal; by apply dec_stable].
    apply elem_of_range, Erow in Hc'. by apply bool_decide_eq_false_1 in Hc'.
  - rewrite existsb_false in Ecol. specialize (Ecol r'). unfold colq in Ecol.
    destruct (decide (r' ≠ r)); [|exfalso; apply Hne; f_equal; by apply dec_stable].
    apply elem_of_range, Ecol in Hr'. by apply bool_decide_eq_false_1 in Hr'.
Qed.

End consistency.

Lemma violates_false_iff g var value v1 v2 op :
  violates g var value (v1, v2, op) = false ↔
    (v1 = var → cell_value g v2 ≠ 0 → op_rel op value (cell_value g v2))
    ∧ (¬ (v1 = var ∧ cell_value g v2 ≠ 0) → v2 = var → cell_value g v1 ≠ 0 →
       op_rel op (cell_value g v1) value)
    ∧ (v1 ≠ var → v2 ≠ var → cell_value g v1 ≠ 0 → cell_value g v2 ≠ 0 →
       op_rel op (cell_value g v1) (cell_value g v2)).
Proof.
  unfold violates. rewrite <- !op_holds_spec.
  repeat case_bool_decide; simpl; rewrite ?negb_false_iff; intuition congruence.
Qed.

(** A tentative assignment that passes [is_consistent] keeps the grid
    consistent. *)
Lemma is_consistent_sound n cs g g1 var value :
  consistent_grid n cs g → in_board n var → 1 ≤ value ≤ n →
  cell_value g1 var = value →
  (∀ w, in_board n w → w ≠ var → cell_value g1 w = cell_value g w) →
  (∀ a c op, (a, c, op) ∈ cs → in_board n a ∧ in_board n c) →
  (∀ w, in_board n w → w ≠ var → shares_line var w → cell_value g1 w ≠ value) →
  (∀ k, k ∈ cs → violates g1 var value k = false) →
  consistent_grid n cs g1.
Proof.
  intros [Hrange Hdist Hineq] Hvar Hval Hg1 Hother Hcs Hline Hviol. split.
  - intros v Hv. destruct (decide (v = var)) as [->|Hne]; [lia|].
    rewrite Hother by done. by apply Hrange.
  - intros v w Hv Hw Hne Hl Hnz.
    destruct (decide (v = var)) as [->|Hv'].
    + rewrite Hg1 in *. intros Heq. by eapply (Hline w).
    + destruct (decide (w = var)) as [->|Hw'].
      * rewrite Hg1. apply Hline; [done..|]. destruct Hl; [by left|by right].
      * rewrite !Hother in * by done. by apply Hdist.
  - intros a c op Hk Ha Hc. apply Hviol in Hk as Hv.
    apply violates_false_iff in Hv as (H1 & H2 & H3).
    destruct (decide (a = var)) as [->|Ha'].
    + rewrite Hg1 in *. by apply H1.
    + destruct (decide (c = var)) as [->|Hc'].
      * rewrite Hg1 in *. apply H2; [|done..]. by intros [? _].
      * by apply H3.
Qed.

(** A tentative assignment that some solution agrees with passes
    [is_consistent]. *)
Lemma is_consistent_complete n cs g1 sol var value :
  is_solution n cs sol → extends n g1 sol → in_board n var →
  cell_value g1 var = value → value ≠ 0 →
  (∀ a c op, (a, c, op) ∈ cs → in_board n a ∧ in_board n c) →
  (∀ w, in_board n w → w ≠ var → shares_line var w → cell_value g1 w ≠ value)
  ∧ (∀ k, k ∈ cs → violates g1 var value k = false).
Proof.
  intros (Hshape & Hfull & [Hrange Hdist Hineq]) Hext Hvar Hg1 Hnz Hcs.
  assert (Hsv : cell_value sol var = value) by (rewrite Hext; congruence).
  split.
  - intros w Hw Hne Hl Heq.
    assert (cell_value sol w = value) by (rewrite Hext; congruence).
    apply (Hdist var w); [done..| |congruence]. by apply Hfull.
  - intros [[a c] op] Hk. destruct (Hcs _ _ _ Hk) as [Ha Hc].
    apply violates_false_iff. specialize (Hineq _ _ _ Hk (Hfull _ Ha) (Hfull _ Hc)).
    split_and!.
    + intros -> Hc0. rewrite Hsv, (Hext c) in Hineq by done. done.
    + intros _ -> Ha0. rewrite Hsv, (Hext a) in Hineq by done. done.
    + intros _ _ Ha0 Hc0. rewrite (Hext a), (Hext c) in Hineq by done. done.
Qed.

Lemma assign_wf b var value :
  board_wf b → in_board (board_size b) var → 1 ≤ value ≤ board_size b →
  ∃ b1, assign b var value = Ok b1
    ∧ board_wf b1
    ∧ board_size b1 = board_size b
    ∧ inequality_constraints b1 = inequality_constraints b
    ∧ domains b1 = <[var := {[value]}]> (domains b)
    ∧ cell_value (grid b1) var = value
    ∧ (∀ w, in_board (board_size b) w → w ≠ var →
            cell_value (grid b1) w = cell_value (grid b) w).
Proof.
  intros [Hs Hcs Hd] Hvar Hval.
  destruct (grid_set_in_board _ _ var value Hs Hvar) as (g1 & Hg1 & Hs1 & Hv1 & Ho1).
  unfold assign. rewrite Hg1. simpl. eexists. split; [done|].
  split_and!; try done. split; simpl; [done..|].
  intros v Hv. destruct (decide (v = var)) as [->|Hne].
  - exists {[value]}. rewrite lookup_insert_eq. split; [done|]. set_solver.
  - rewrite lookup_insert_ne by done. by apply Hd.
Qed.

Lemma extends_trans n g1 g2 g3 : extends n g1 g2 → extends n g2 g3 → extends n g1 g3.
Proof.
  intros H12 H23 v Hv Hnz. rewrite H23, H12; [done..|]. rewrite H12; done.
Qed.

(** ** Termination of arc consistency *)

Lemma total_domain_size_insert (d : gmap cell (gset Z)) k D D' :
  d !! k = Some D →
  (total_domain_size (<[k := D']> d) + size D = total_domain_size d + size D')%nat.
Proof.
  intros Hk. unfold total_domain_size.
  rewrite <- (insert_delete_eq d k D').
  rewrite (map_to_list_insert (delete k d) k D') by apply lookup_delete_eq.
  rewrite <- (map_to_list_delete d k D Hk). simpl. lia.
Qed.

Lemma size_list_to_set_le (l : list cell) : (size (list_to_set l : gset cell) ≤ length l)%nat.
Proof.
  induction l as [|x l IH]; [by rewrite list_to_set_nil, size_empty|].
  rewrite list_to_set_cons, size_union_alt, size_singleton. simpl.
  assert (Hs : list_to_set l ∖ {[x]} ⊆@{gset cell} list_to_set l) by set_solver.
  apply subseteq_size in Hs. lia.
Qed.

Lemma size_union_le (X Y : gset cell) : (size (X ∪ Y) ≤ size X + size Y)%nat.
Proof.
  rewrite size_union_alt. assert (Hs : Y ∖ X ⊆ Y) by set_solver.
  apply subseteq_size in Hs. lia.
Qed.

Lemma size_ineq_neighbors cs var : (size (ineq_neighbors cs var) ≤ length cs)%nat.
Proof.
  unfold ineq_neighbors.
  cut (∀ acc : gset cell,
        (size (foldl (λ (acc : gset cell) (k : constraint),
                 let '(v1, v2, _) := k in
                 if decide (v1 = var) then acc ∪ {[v2]}
                 else if decide (v2 = var) then acc ∪ {[v1]} else acc) acc cs)
         ≤ size acc + length cs)%nat).
  { intros Hc. specialize (Hc ∅). by rewrite size_empty in Hc. }
  induction cs as [|[[v1 v2] op] cs IH]; intros acc; simpl; [lia|].
  repeat case_decide; (etrans; [apply IH|]); rewrite ?size_union_alt;
    try pose proof (size_union_le acc {[v2]});
    try pose proof (size_union_le acc {[v1]});
    try pose proof (size_singleton (C := gset cell) v2);
    try pose proof (size_singleton (C := gset cell) v1);
    rewrite <- ?size_union_alt; lia.
Qed.

Section termination.
Context {ord : SetOrder}.

Lemma size_neighbor_set b var : (size (neighbor_set b var) ≤ neighbor_bound b)%nat.
Proof.
  unfold neighbor_bound, neighbor_set. destruct var as [r c].
  etrans; [apply size_union_le|].
  pose proof (size_ineq_neighbors (inequality_constraints b) (r, c)).
  etrans; [apply Nat.add_le_mono_r, size_union_le|].
  pose proof (size_list_to_set_le ((λ col, (r, col)) <$> filter (λ col, col ≠ c) (range (board_size b)))) as H1.
  pose proof (size_list_to_set_le ((λ row, (row, c)) <$> filter (λ row, row ≠ r) (range (board_size b)))) as H2.
  rewrite length_fmap in H1, H2.
  pose proof (length_filter (λ col, col ≠ c) (range (board_size b))) as H3.
  pose proof (length_filter (λ row, row ≠ r) (range (board_size b))) as H4.
  assert (Hr : length (range (board_size b)) = Z.to_nat (board_size b))
    by apply length_seqZ.
  etrans; [apply Nat.add_le_mono; [apply Nat.add_le_mono; [exact H1|exact H2]|exact H]|].
  rewrite Hr in H3, H4. lia.
Qed.

Lemma length_get_neighbors b var : (length (get_neighbors b var) ≤ neighbor_bound b)%nat.
Proof.
  unfold get_neighbors. rewrite (iter_cells_perm _). apply size_neighbor_set.
Qed.

Lemma filterM_subset {A} (p : A → res bool) l r x :
  filterM p l = Ok r → x ∈ r → x ∈ l.
Proof. intros Hr Hx. by apply (filterM_Ok _ _ _ Hr) in Hx as [? _]. Qed.

Lemma filterM_no_diverge {A} (p : A → res bool) l :
  (∀ x, p x ≠ Diverge) → filterM p l ≠ Diverge.
Proof.
  intros Hp. induction l as [|y l IH]; simpl; [done|].
  specialize (Hp y). destruct (p y); simpl; [|done..].
  destruct (filterM p l); simpl; done.
Qed.

Lemma revise_no_diverge b xi xj : revise b xi xj ≠ Diverge.
Proof.
  unfold revise. destruct (dom_get (domains b) xi) as [Di| |] eqn:E; simpl;
    [|done|by unfold dom_get in E; destruct (domains b !! xi)].
  match goal with |- context [filterM ?p ?l] =>
    pose proof (filterM_no_diverge p l) as Hf; destruct (filterM p l) as [[|]| |] end;
    simpl; try done.
  exfalso. apply Hf; [|done]. intros x. unfold dom_get. by destruct (domains b !! xj).
Qed.

Lemma revise_Ok b xi xj revised b' :
  revise b xi xj = Ok (revised, b') →
  if revised then
    ∃ Di Di', domains b !! xi = Some Di ∧ Di' ⊂ Di
              ∧ (∀ x, x ∈ Di ∖ Di' → ∃ Dj, domains b !! xj = Some Dj
                     ∧ consistent_found (inequality_constraints b) xi xj x (iter_vals Dj) = false)
              ∧ (∀ x Dj, x ∈ Di' → domains b !! xj = Some Dj →
                     consistent_found (inequality_constraints b) xi xj x (iter_vals Dj) = true)
              ∧ b' = set_domains b (<[xi := Di']> (domains b))
  else
    b' = b ∧ ∀ Di x Dj, domains b !! xi = Some Di → x ∈ Di → domains b !! xj = Some Dj →
                consistent_found (inequality_constraints b) xi xj x (iter_vals Dj) = true.
Proof.
  unfold revise. intros Hr. apply bind_Ok in Hr as (Di & HDi & Hr).
  apply bind_Ok in Hr as (rm & Hrm & Hr).
  unfold dom_get in HDi. destruct (domains b !! xi) as [Di0|] eqn:EDi; [|done].
  simplify_eq.
  assert (Hspec : ∀ x, x ∈ rm ↔ x ∈ Di ∧ ∃ Dj, domains b !! xj = Some Dj
             ∧ consistent_found (inequality_constraints b) xi xj x (iter_vals Dj) = false).
  { intros x. rewrite (filterM_Ok _ _ _ Hrm), (iter_vals_perm Di), elem_of_elements.
    unfold dom_get. destruct (domains b !! xj) as [Dj|]; simpl.
    - split.
      + intros [? Hc]. split; [done|]. exists Dj. split; [done|].
        injection Hc as Hc. by apply negb_true_iff.
      + intros [? (Dj' & ? & Hc)]. simplify_eq. by rewrite Hc.
    - split; [by intros [_ ?]|]. by intros [_ (? & ? & _)]. }
  destruct rm as [|x0 rm]; simplify_eq.
  - split; [done|]. intros Di' x Dj ? Hx HDj. simplify_eq.
    destruct (consistent_found _ xi xj x (iter_vals Dj)) eqn:Ec; [done|].
    exfalso. eapply (not_elem_of_nil x). apply Hspec. eauto.
  - exists Di, (Di ∖ list_to_set (x0 :: rm)). split_and!; try done.
    + split; [set_solver|]. intros Hsub.
      assert (Hx0 : x0 ∈ Di) by (apply (Hspec x0); by left).
      apply Hsub in Hx0. apply elem_of_difference in Hx0 as [_ Hx0].
      apply Hx0. rewrite elem_of_list_to_set. by left.
    + intros x Hx. apply (Hspec x).
      apply elem_of_difference in Hx as [Hx Hx'].
      destruct (decide (x ∈ x0 :: rm)) as [?|Hn]; [done|].
      exfalso. apply Hx'. apply elem_of_difference. split; [done|].
      by rewrite elem_of_list_to_set.
    + intros x Dj Hx HDj. apply elem_of_difference in Hx as [Hx Hx'].
      rewrite elem_of_list_to_set in Hx'.
      destruct (consistent_found _ xi xj x (iter_vals Dj)) eqn:Ec; [done|].
      exfalso. apply Hx', Hspec. eauto.
Qed.

Lemma ac2_loop_no_diverge fuel b q :
  (length q + total_domain_size (domains b) * neighbor_bound b ≤ fuel)%nat →
  ac2_loop fuel b q ≠ Diverge.
Proof.
  revert b q. induction fuel as [|fuel IH]; intros b [|[xi xj] q] Hle; simpl in *;
    try done; [lia|].
  pose proof (revise_no_diverge b xi xj) as Hnd.
  destruct (revise b xi xj) as [[revised b']| |] eqn:Hrev; simpl; [|done..].
  apply revise_Ok in Hrev. destruct revised.
  - destruct Hrev as (Di & Di' & HDi & Hsub & _ & _ & ->). simpl.
    unfold dom_get. rewrite lookup_insert_eq. simpl. case_decide; [done|].
    apply IH. simpl. rewrite length_app, length_fmap.
    pose proof (length_filter (λ xk, xk ≠ xj)
                  (get_neighbors (set_domains b (<[xi:=Di']> (domains b))) xi)) as H1.
    pose proof (length_get_neighbors (set_domains b (<[xi:=Di']> (domains b))) xi) as H2.
    pose proof (total_domain_size_insert (domains b) xi Di Di' HDi) as H3.
    pose proof (subset_size _ _ Hsub) as H4.
    change (neighbor_bound (set_domains b (<[xi:=Di']> (domains b))))
      with (neighbor_bound b) in *.
    nia.
  - destruct Hrev as [-> _]. apply IH. lia.
Qed.

Lemma ac2_loop_fuel_mono fuel fuel' b q r :
  ac2_loop fuel b q = r → r ≠ Diverge → (fuel ≤ fuel')%nat → ac2_loop fuel' b q = r.
Proof.
  revert fuel' b q r. induction fuel as [|fuel IH]; intros fuel' b q r Hr Hnd Hle.
  - destruct q as [|[xi xj] q]; simpl in Hr; [|congruence]. by destruct fuel'.
  - destruct fuel' as [|fuel']; [lia|].
    destruct q as [|[xi xj] q]; simpl in *; [done|].
    destruct (revise b xi xj) as [[revised b']| |]; simpl in *; try done.
    destruct revised.
    + destruct (dom_get (domains b') xi); simpl in *; try done.
      case_decide; [done|]. apply IH; [done..|lia].
    + apply IH; [done..|lia].
Qed.

(** C6. Arc-consistency termination: for every board (any size, any
    constraint list, any domains) [ac2] terminates.  The loop needs at most
    [ac2_bound] iterations: a popped arc either shortens the queue or removes
    a value from a domain.  With that much fuel or more, the outcome is the
    same, and it is a return value or an exception, never [Diverge]. *)
Theorem ac2_terminates (b : FutoshikiBoard) :
  ∃ r, r ≠ Diverge ∧ ∀ fuel, (ac2_bound b ≤ fuel)%nat → ac2_fuel fuel b = r.
Proof.
  exists (ac2 b). split.
  - apply ac2_loop_no_diverge. unfold ac2_bound. lia.
  - intros fuel Hle. eapply ac2_loop_fuel_mono; [done| |done].
    apply ac2_loop_no_diverge. unfold ac2_bound. lia.
Qed.

End termination.

(** ** Arc consistency: what [ac2] establishes *)

Lemma linked_sym cs xi xj : linked cs xi xj → linked cs xj xi.
Proof. intros [op [?|?]]; exists op; eauto. Qed.

Lemma shares_line_sym v w : shares_line v w → shares_line w v.
Proof. intros [?|?]; [by left|by right]. Qed.

Lemma directly_constrained_sym cs xi xj :
  directly_constrained cs xi xj → directly_constrained cs xj xi.
Proof.
  intros [Hne [?|?]]; (split; [done|]); [left; by apply shares_line_sym|right; by apply linked_sym].
Qed.

Lemma supports_sym cs xi xj x y : supports cs xi xj x y → supports cs xj xi y x.
Proof.
  intros [Hl Hk]. split.
  - intros ?%shares_line_sym ->. by apply Hl.
  - intros ?%linked_sym. destruct Hk as [op [?|?]]; [done|exists op..]; eauto.
Qed.

Lemma supports_jointly cs xi xj x y :
  single_inequality_per_pair cs → xi ≠ xj →
  supports cs xi xj x y → jointly_satisfy cs xi xj x y.
Proof.
  intros Hone Hne [Hl Hk]. split; [done|].
  split; intros op Hop.
  - destruct Hk as [op' [[Hk ?]|[Hk ?]]]; [exists op; by left|..].
    + apply list_elem_of_lookup in Hop as [i Hi], Hk as [j Hj].
      assert (i = j) by (eapply Hone; eauto). simplify_eq. done.
    + apply list_elem_of_lookup in Hop as [i Hi], Hk as [j Hj].
      assert (i = j) by (eapply Hone; eauto). simplify_eq.
  - destruct Hk as [op' [[Hk ?]|[Hk ?]]]; [exists op; by right|..].
    + apply list_elem_of_lookup in Hop as [i Hi], Hk as [j Hj].
      assert (i = j) by (eapply Hone; eauto). simplify_eq.
    + apply list_elem_of_lookup in Hop as [i Hi], Hk as [j Hj].
      assert (i = j) by (eapply Hone; eauto). simplify_eq. done.
Qed.

Lemma jointly_supports cs xi xj x y : jointly_satisfy cs xi xj x y → supports cs xi xj x y.
Proof.
  intros (Hl & H1 & H2). split; [done|].
  intros [op [?|?]]; exists op; [left|right]; eauto.
Qed.

(** The scan of the inequality list. *)
Lemma scan_inequalities_spec cs xi xj x y acc :
  xi ≠ xj →
  match scan_inequalities cs xi xj x y acc with
  | (is_inequality, true) =>
      is_inequality = true
      ∧ ∃ op, ((xi, xj, op) ∈ cs ∧ op_rel op x y) ∨ ((xj, xi, op) ∈ cs ∧ op_rel op y x)
  | (is_inequality, false) =>
      (is_inequality = true ↔ acc = true ∨ linked cs xi xj)
      ∧ ∀ op, ((xi, xj, op) ∈ cs → ¬ op_rel op x y) ∧ ((xj, xi, op) ∈ cs → ¬ op_rel op y x)
  end.
Proof.
  intros Hne. revert acc. induction cs as [|[[v1 v2] op] cs IH]; intros acc; simpl.
  - split; [|intros op; split; intros []%elem_of_nil].
    split; [by left|]. intros [?|[op [[]%elem_of_nil|[]%elem_of_nil]]]. done.
  - case_bool_decide as H1.
    { destruct H1 as [-> ->]. destruct (op_holds op x y) eqn:Eop.
      - split; [done|]. exists op. left. split; [by left|]. by apply op_holds_spec.
      - specialize (IH true). destruct (scan_inequalities cs xi xj x y true) as [i []].
        + destruct IH as [-> (op' & [[? ?]|[? ?]])]; (split; [done|]); exists op';
            [left|right]; (split; [by right|done]).
        + destruct IH as [Hi Hall]. split.
          * split; [|intros _; apply Hi; by left]. intros _. right. exists op. left. by left.
          * intros op'. split; intros [Heq|?]%elem_of_cons; try by apply Hall.
            -- simplify_eq. rewrite <- op_holds_spec. congruence.
            -- simplify_eq. }
    case_bool_decide as H2.
    { destruct H2 as [-> ->]. destruct (op_holds op y x) eqn:Eop.
      - split; [done|]. exists op. right. split; [by left|]. by apply op_holds_spec.
      - specialize (IH true). destruct (scan_inequalities cs xi xj x y true) as [i []].
        + destruct IH as [-> (op' & [[? ?]|[? ?]])]; (split; [done|]); exists op';
            [left|right]; (split; [by right|done]).
        + destruct IH as [Hi Hall]. split.
          * split; [|intros _; apply Hi; by left]. intros _. right. exists op. right. by left.
          * intros op'. split; intros [Heq|?]%elem_of_cons; try by apply Hall.
            -- simplify_eq.
            -- simplify_eq. rewrite <- op_holds_spec. congruence. }
    specialize (IH acc). destruct (scan_inequalities cs xi xj x y acc) as [i []].
    + destruct IH as [-> (op' & [[? ?]|[? ?]])]; (split; [done|]); exists op';
        [left|right]; (split; [by right|done]).
    + destruct IH as [Hi Hall]. split.
      * rewrite Hi. split; (intros [?|[op' Hl]]; [by left|right]); exists op'.
        -- destruct Hl; [left|right]; by right.
        -- destruct Hl as [[?|?]%elem_of_cons|[?|?]%elem_of_cons]; simplify_eq; eauto;
             exfalso; eauto.
      * intros op'. split; intros [Heq|?]%elem_of_cons; try by apply Hall.
        -- simplify_eq. exfalso; eauto.
        -- simplify_eq. exfalso; eauto.
Qed.

(** The loop over the values of [xj]'s domain finds exactly the supports. *)
Lemma consistent_found_spec cs xi xj x ys :
  xi ≠ xj →
  consistent_found cs xi xj x ys = true ↔ ∃ y, y ∈ ys ∧ supports cs xi xj x y.
Proof.
  intros Hne. induction ys as [|y ys IH]; simpl.
  - split; [done|]. by intros (? & []%elem_of_nil & _).
  - assert (Hskip : ¬ supports cs xi xj x y →
      (consistent_found cs xi xj x ys = true ↔ ∃ y0, y0 ∈ y :: ys ∧ supports cs xi xj x y0)).
    { intros Hns. rewrite IH. split.
      - intros (y0 & ? & ?). exists y0. split; [by right|done].
      - intros (y0 & [->|?]%elem_of_cons & ?); [done|eauto]. }
    assert (Hhit : supports cs xi xj x y →
      (true = true ↔ ∃ y0, y0 ∈ y :: ys ∧ supports cs xi xj x y0)).
    { intros Hs. split; [|done]. intros _. exists y. split; [by left|done]. }
    destruct (same_line xi xj) eqn:Esl; simpl.
    + apply same_line_spec in Esl. case_bool_decide as Hxy.
      { apply Hskip. intros [Hl _]. by apply Hl. }
      pose proof (scan_inequalities_spec cs xi xj x y false Hne) as Hscan.
      destruct (scan_inequalities cs xi xj x y false) as [i f]. destruct f.
      * destruct Hscan as [-> Hop]. simpl. apply Hhit. split; [done|]. by intros _.
      * destruct Hscan as [Hi Hall]. destruct i; simpl.
        -- apply Hskip. intros [_ Hk]. destruct Hk as (op & [[? ?]|[? ?]]).
           ++ destruct Hi as [Hi _]. by destruct (Hi eq_refl).
           ++ by eapply (proj1 (Hall _)).
           ++ by eapply (proj2 (Hall _)).
        -- rewrite bool_decide_eq_true_2 by done. apply Hhit. split; [done|].
           intros Hl. exfalso. assert (false = true); [|done]. apply Hi. by right.
    + assert (Hnl : ¬ shares_line xi xj).
      { rewrite <- same_line_spec. congruence. }
      pose proof (scan_inequalities_spec cs xi xj x y false Hne) as Hscan.
      destruct (scan_inequalities cs xi xj x y false) as [i f]. destruct f.
      * destruct Hscan as [-> Hop]. simpl. apply Hhit. split; [done|]. by intros _.
      * destruct Hscan as [Hi Hall]. destruct i; simpl.
        -- apply Hskip. intros [_ Hk]. destruct Hk as (op & [[? ?]|[? ?]]).
           ++ destruct Hi as [Hi _]. by destruct (Hi eq_refl).
           ++ by eapply (proj1 (Hall _)).
           ++ by eapply (proj2 (Hall _)).
        -- apply Hhit. split; [done|].
           intros Hl. exfalso. assert (false = true); [|done]. apply Hi. by right.
Qed.

(** ** Neighbors *)

Lemma elem_of_ineq_neighbors cs var v :
  v ∈ ineq_neighbors cs var ↔
  ∃ v1 v2 op, (v1, v2, op) ∈ cs ∧ ((v1 = var ∧ v = v2) ∨ (v1 ≠ var ∧ v2 = var ∧ v = v1)).
Proof.
  unfold ineq_neighbors.
  cut (∀ acc : gset cell,
        v ∈ foldl (λ (acc : gset cell) (k : constraint),
                     let '(v1, v2, _) := k in
                     if decide (v1 = var) then acc ∪ {[v2]}
                     else if decide (v2 = var) then acc ∪ {[v1]} else acc) acc cs
        ↔ v ∈ acc ∨ ∃ v1 v2 op, (v1, v2, op) ∈ cs
                    ∧ ((v1 = var ∧ v = v2) ∨ (v1 ≠ var ∧ v2 = var ∧ v = v1))).
  { intros Hc. rewrite Hc. split; [|by right].
    intros [Hx|?]; [by apply not_elem_of_empty in Hx|done]. }
  induction cs as [|[[v1 v2] op] cs IH]; intros acc; simpl.
  - split; [by left|]. intros [?|(? & ? & ? & Hx & _)]; [done|].
    by apply elem_of_nil in Hx.
  - rewrite IH. split.
    + intros [Hacc|(a & c & o & Hin & Hcase)].
      * repeat case_decide.
        -- apply elem_of_union in Hacc as [?|Hs%elem_of_singleton]; [by left|].
           subst. right. exists var, v2, op. split; [by left|]. by left.
        -- apply elem_of_union in Hacc as [?|Hs%elem_of_singleton]; [by left|].
           subst. right. exists v1, var, op. split; [by left|]. by right.
        -- by left.
      * right. exists a, c, o. split; [by right|done].
    + intros [Hacc|(a & c & o & [Heq|Hin]%elem_of_cons & Hcase)].
      * left. repeat case_decide; set_solver.
      * simplify_eq. left. destruct Hcase as [[-> ->]|(? & -> & ->)].
        -- rewrite decide_True by done. set_solver.
        -- rewrite decide_False, decide_True by done. set_solver.
      * right. eauto 10.
Qed.

Lemma elem_of_neighbor_set b var v :
  v ∈ neighbor_set b var ↔
    (v.1 = var.1 ∧ v.2 ≠ var.2 ∧ 0 ≤ v.2 < board_size b)
    ∨ (v.2 = var.2 ∧ v.1 ≠ var.1 ∧ 0 ≤ v.1 < board_size b)
    ∨ v ∈ ineq_neighbors (inequality_constraints b) var.
Proof.
  unfold neighbor_set. destruct var as [r c], v as [r' c']. simpl.
  rewrite !elem_of_union, !elem_of_list_to_set, !list_elem_of_fmap.
  setoid_rewrite list_elem_of_filter. setoid_rewrite elem_of_range.
  split.
  - intros [[(col & ? & ? & ?)|(row & ? & ? & ?)]|?]; simplify_eq; eauto.
  - intros [(-> & ? & ?)|[(-> & ? & ?)|?]]; eauto 10.
Qed.

Lemma elem_of_get_neighbors {ord : SetOrder} b var v :
  v ∈ get_neighbors b var ↔ v ∈ neighbor_set b var.
Proof. unfold get_neighbors. by rewrite (iter_cells_perm _), elem_of_elements. Qed.

Lemma neighbor_set_constrained b xi xk :
  in_board (board_size b) xk → xk ≠ xi →
  shares_line xk xi ∨ linked (inequality_constraints b) xk xi →
  xk ∈ neighbor_set b xi.
Proof.
  intros [Hr Hc] Hne Hcon. apply elem_of_neighbor_set.
  destruct Hcon as [[Hl|Hl]|[op [Hk|Hk]]].
  - left. split_and!; [done| |lia..]. intros ?. apply Hne.
    destruct xk, xi; simpl in *; congruence.
  - right. left. split_and!; [done| |lia..]. intros ?. apply Hne.
    destruct xk, xi; simpl in *; congruence.
  - right. right. apply elem_of_ineq_neighbors. exists xk, xi, op. split; [done|]. by right.
  - right. right. apply elem_of_ineq_neighbors. exists xi, xk, op. split; [done|]. by left.
Qed.

Lemma neighbor_set_in_board b var v :
  (∀ a c op, (a, c, op) ∈ inequality_constraints b →
             in_board (board_size b) a ∧ in_board (board_size b) c) →
  in_board (board_size b) var → v ∈ neighbor_set b var → in_board (board_size b) v.
Proof.
  intros Hcs [Hr Hc] Hv. apply elem_of_neighbor_set in Hv as [(Hv & _ & ?)|[(Hv & _ & ?)|Hv]].
  - split; [by rewrite Hv|done].
  - split; [done|by rewrite Hv].
  - apply elem_of_ineq_neighbors in Hv as (v1 & v2 & op & [H1 H2]%Hcs & [[_ ->]|(_ & _ & ->)]);
      done.
Qed.

(** A cell is its own neighbor only through an inequality with itself. *)
Lemma neighbor_set_self b var :
  var ∈ neighbor_set b var → ∃ op, (var, var, op) ∈ inequality_constraints b.
Proof.
  intros Hv. apply elem_of_neighbor_set in Hv as [(_ & ? & _)|[(_ & ? & _)|Hv]]; [done..|].
  apply elem_of_ineq_neighbors in Hv as (v1 & v2 & op & Hk & [[-> <-]|(? & -> & ?)]);
    [eauto|done].
Qed.

(** ** The invariant of the work queue *)

Lemma initial_queue_complete cs l xi xj :
  NoDup l → xi ∈ l → xj ∈ l → directly_constrained cs xi xj →
  (xi, xj) ∈ initial_queue cs l.
Proof.
  assert (Hcon : ∀ a c, directly_constrained cs a c → is_constrained cs a c = true).
  { intros a c [_ [Hl|[op Hk]]]; unfold is_constrained.
    - apply orb_true_iff. left. by apply same_line_spec.
    - apply orb_true_iff. right. apply existsb_exists.
      destruct Hk as [Hk|Hk]; eexists; (split; [apply list_elem_of_In, Hk|]); simpl;
        apply orb_true_iff; [left|right]; by apply bool_decide_eq_true_2. }
  intros Hnd Hi Hj Hdc. induction l as [|v l IH]; [by apply elem_of_nil in Hi|].
  simpl. apply NoDup_cons in Hnd as [Hv Hnd]. apply elem_of_app.
  apply elem_of_cons in Hi as [->|Hi], Hj as [->|Hj].
  - by destruct Hdc.
  - left. apply list_elem_of_bind. exists xj. split; [|done].
    rewrite (Hcon _ _ Hdc). by left.
  - left. apply list_elem_of_bind. exists xi. split; [|done].
    rewrite (Hcon _ _ (directly_constrained_sym _ _ _ Hdc)). right. by left.
  - right. by apply IH.
Qed.

Lemma NoDup_all_cells n : NoDup (all_cells n).
Proof.
  unfold all_cells. apply NoDup_bind.
  - intros r1 r2 v _ _ H1 H2.
    apply list_elem_of_bind in H1 as (c1 & E1%list_elem_of_singleton & _).
    apply list_elem_of_bind in H2 as (c2 & E2%list_elem_of_singleton & _). congruence.
  - intros r _. apply NoDup_bind.
    + intros c1 c2 v _ _ E1%list_elem_of_singleton E2%list_elem_of_singleton. congruence.
    + intros. apply NoDup_singleton.
    + apply NoDup_seqZ.
  - apply NoDup_seqZ.
Qed.

Section arc_consistency.
Context {ord : SetOrder}.

Lemma elem_of_iter_vals D x : x ∈ iter_vals D ↔ x ∈ D.
Proof. by rewrite (iter_vals_perm _), elem_of_elements. Qed.

Lemma revise_arc_supported b xi xj revised b' :
  xi ≠ xj → revise b xi xj = Ok (revised, b') → arc_supported b' xi xj.
Proof.
  intros Hne Hrev. apply revise_Ok in Hrev. destruct revised.
  - destruct Hrev as (Di & Di' & HDi & _ & _ & Hkeep & ->).
    intros Di0 Dj x H1 H2 Hx. simpl in *.
    rewrite lookup_insert_eq in H1. rewrite lookup_insert_ne in H2 by done. simplify_eq.
    specialize (Hkeep _ _ Hx H2). apply consistent_found_spec in Hkeep as (y & Hy & ?); [|done].
    exists y. by rewrite <- elem_of_iter_vals.
  - destruct Hrev as [-> Hkeep]. intros Di Dj x H1 H2 Hx.
    specialize (Hkeep _ _ _ H1 Hx H2).
    apply consistent_found_spec in Hkeep as (y & Hy & ?); [|done].
    exists y. by rewrite <- elem_of_iter_vals.
Qed.

Lemma ac2_step_invariant b xi xj q revised b1 :
  ac2_invariant b ((xi, xj) :: q) → revise b xi xj = Ok (revised, b1) →
  ac2_invariant b1
    (if revised
     then q ++ ((λ xk, (xk, xi)) <$> filter (λ xk, xk ≠ xj) (get_neighbors b1 xi))
     else q).
Proof.
  intros Hinv Hrev a c Ha Hc Hdc.
  pose proof (revise_frame _ _ _ _ _ Hrev) as (Hn & Hg & Hcs).
  rewrite Hn in Ha, Hc. rewrite Hcs in Hdc.
  assert (Harc : a = xi → c = xj → arc_supported b1 a c).
  { intros -> ->. eapply revise_arc_supported; [|done]. by destruct Hdc. }
  specialize (Hinv a c Ha Hc Hdc).
  pose proof (revise_Ok _ _ _ _ _ Hrev) as Hspec. destruct revised.
  - destruct Hspec as (Di & Di' & HDi & Hsub & Hgone & Hkeep & ->).
    destruct (decide (c = xi)) as [->|Hcxi].
    + destruct (decide (a = xj)) as [->|Haxj].
      * destruct Hinv as [Hq|Hsup].
        -- left. apply elem_of_cons in Hq as [Heq|Hq]; [|apply elem_of_app; by left].
           destruct Hdc as [Hne _]. congruence.
        -- right. intros Dj Di0 y H1 H2 Hy. simpl in *.
           destruct Hdc as [Hne _].
           rewrite lookup_insert_eq in H2. rewrite lookup_insert_ne in H1 by done.
           simplify_eq. destruct (Hsup _ _ _ H1 HDi Hy) as (x & Hx & Hs).
           exists x. split; [|done].
           destruct (decide (x ∈ Di0)) as [|Hnx]; [done|]. exfalso.
           destruct (Hgone x) as (Dj' & HDj' & Hcf); [set_solver|].
           rewrite H1 in HDj'. injection HDj' as <-.
           assert (consistent_found (inequality_constraints b) xi xj x (iter_vals Dj) = true);
             [|congruence].
           apply consistent_found_spec; [done|]. exists y.
           split; [by apply elem_of_iter_vals|by apply supports_sym].
      * left. apply elem_of_app. right. apply list_elem_of_fmap. exists a. split; [done|].
        apply list_elem_of_filter. split; [done|]. apply elem_of_get_neighbors.
        destruct Hdc as [Hne Hdc]. apply neighbor_set_constrained; simpl; done.
    + destruct Hinv as [Hq|Hsup].
      * apply elem_of_cons in Hq as [Heq|Hq]; [|left; apply elem_of_app; by left].
        simplify_eq. right. by apply Harc.
      * right. intros Da Dc x H1 H2 Hx. simpl in *.
        rewrite lookup_insert_ne in H2 by done.
        destruct (decide (a = xi)) as [->|Haxi].
        -- rewrite lookup_insert_eq in H1. simplify_eq.
           apply (Hsup _ _ _ HDi H2). set_solver.
        -- rewrite lookup_insert_ne in H1 by done. by apply (Hsup _ _ _ H1 H2).
  - destruct Hspec as [-> _]. destruct Hinv as [Hq|Hsup]; [|by right].
    apply elem_of_cons in Hq as [Heq|Hq]; [|by left].
    simplify_eq. right. by apply Harc.
Qed.

Lemma ac2_loop_invariant fuel b q b' :
  ac2_invariant b q → ac2_loop fuel b q = Ok (true, b') → ac2_invariant b' [].
Proof.
  revert b q. induction fuel as [|fuel IH]; intros b [|[xi xj] q] Hinv Hr; simpl in Hr;
    simplify_eq; try done.
  apply bind_Ok in Hr as ([revised b1] & Hrev & Hr).
  pose proof (ac2_step_invariant _ _ _ _ _ _ Hinv Hrev) as Hinv1. destruct revised.
  - apply bind_Ok in Hr as (Di & _ & Hr). case_decide; [done|]. by eapply IH.
  - by eapply IH.
Qed.

Lemma ac2_supported b b' :
  ac2 b = Ok (true, b') →
  ∀ xi xj, in_board (board_size b) xi → in_board (board_size b) xj →
    directly_constrained (inequality_constraints b) xi xj → arc_supported b' xi xj.
Proof.
  intros Hr xi xj Hi Hj Hdc.
  pose proof (ac2_frame _ _ _ Hr) as (Hn & _ & Hcs).
  apply ac2_loop_invariant in Hr.
  - destruct (Hr xi xj) as [[]%elem_of_nil|?]; [by rewrite Hn..|by rewrite Hcs|done].
  - intros a c Ha Hc Hac. left.
    apply initial_queue_complete; [apply NoDup_all_cells|by apply elem_of_all_cells..|done].
Qed.

(** C5, for one inequality per pair. Arc-consistency soundness, on a
    constraint list with at most one inequality per pair of cells: if [ac2] returns True, then for
    all cells [xi], [xj] of the board that are directly constrained (same
    row, same column, or linked by an inequality), every value [x] left in
    [xi]'s domain has a value [y] in [xj]'s domain such that [x] and [y]
    satisfy the all-different rule and the inequality between the two
    cells. *)
Theorem ac2_arc_consistent (b b' : FutoshikiBoard) (xi xj : cell) (Di Dj : gset Z) (x : Z) :
  single_inequality_per_pair (inequality_constraints b) →
  ac2 b = Ok (true, b') →
  in_board (board_size b) xi → in_board (board_size b) xj →
  directly_constrained (inequality_constraints b) xi xj →
  domains b' !! xi = Some Di → domains b' !! xj = Some Dj → x ∈ Di →
  ∃ y, y ∈ Dj ∧ jointly_satisfy (inequality_constraints b) xi xj x y.
Proof.
  intros Hone Hr Hi Hj Hdc HDi HDj Hx.
  pose proof (ac2_frame _ _ _ Hr) as (_ & _ & Hcs).
  destruct (ac2_supported _ _ Hr xi xj Hi Hj Hdc _ _ _ HDi HDj Hx) as (y & Hy & Hs).
  exists y. split; [done|]. rewrite Hcs in Hs.
  apply supports_jointly; [done| |done]. by destruct Hdc.
Qed.

End arc_consistency.

(** ** Inference on a well-formed board *)

Lemma shrinks_refl b : shrinks b b.
Proof. intros v D ?. by exists D. Qed.

Lemma shrinks_trans b1 b2 b3 : shrinks b1 b2 → shrinks b2 b3 → shrinks b1 b3.
Proof.
  intros H12 H23 v D HD. destruct (H12 _ _ HD) as (D2 & HD2 & ?).
  destruct (H23 _ _ HD2) as (D3 & HD3 & ?). exists D3. split; [done|]. set_solver.
Qed.

Lemma board_wf_shrinks b b' : board_wf b → same_frame b b' → shrinks b b' → board_wf b'.
Proof.
  intros [Hs Hcs Hd] (Hn & Hg & Hc) Hsh. split.
  - by rewrite Hn, Hg.
  - rewrite Hn, Hc. done.
  - rewrite Hn. intros v Hv. destruct (Hd v Hv) as (D & HD & Hr).
    destruct (Hsh _ _ HD) as (D' & HD' & Hsub). exists D'. split; [done|].
    intros x Hx. apply Hr. set_solver.
Qed.

(** In a solution, the values of two constrained cells satisfy everything
    the puzzle asks of the pair. *)
Lemma solution_jointly n cs sol xi xj :
  is_solution n cs sol → in_board n xi → in_board n xj → xi ≠ xj →
  (∀ a c op, (a, c, op) ∈ cs → in_board n a ∧ in_board n c) →
  jointly_satisfy cs xi xj (cell_value sol xi) (cell_value sol xj).
Proof.
  intros (_ & Hfull & [_ Hdist Hineq]) Hi Hj Hne Hcs. split_and!.
  - intros Hl. apply Hdist; [done..|]. by apply Hfull.
  - intros op Hk. apply Hineq; [done|by apply Hfull..].
  - intros op Hk. apply Hineq; [done|by apply Hfull..].
Qed.

Lemma solution_no_self_constraint n cs sol v op :
  is_solution n cs sol → in_board n v → (v, v, op) ∈ cs → False.
Proof.
  intros (_ & Hfull & [_ _ Hineq]) Hv Hk.
  specialize (Hineq _ _ _ Hk (Hfull _ Hv) (Hfull _ Hv)). destruct op; simpl in *; lia.
Qed.

Lemma initial_queue_sound cs l xi xj :
  NoDup l → (xi, xj) ∈ initial_queue cs l → xi ∈ l ∧ xj ∈ l ∧ xi ≠ xj.
Proof.
  intros Hnd. induction l as [|v l IH]; simpl; [by intros ?%elem_of_nil|].
  apply NoDup_cons in Hnd as [Hv Hnd].
  intros [Hin|Hin]%elem_of_app.
  - apply list_elem_of_bind in Hin as (w & Hin & Hw). destruct (is_constrained cs v w).
    + apply elem_of_cons in Hin as [?|Hin]; simplify_eq.
      * split_and!; [by left|by right|]. by intros ->.
      * apply list_elem_of_singleton in Hin. simplify_eq.
        split_and!; [by right|by left|]. by intros ->.
    + by apply elem_of_nil in Hin.
  - destruct (IH Hnd Hin) as (? & ? & ?). split_and!; [by right..|done].
Qed.

Section inference_wf.
Context {ord : SetOrder}.

Lemma revise_wf b xi xj :
  board_wf b → in_board (board_size b) xi → in_board (board_size b) xj →
  ∃ revised b', revise b xi xj = Ok (revised, b') ∧ board_wf b' ∧ shrinks b b'.
Proof.
  intros Hwf Hi Hj.
  destruct (wf_domains _ Hwf xi Hi) as (Di & HDi & _).
  destruct (wf_domains _ Hwf xj Hj) as (Dj & HDj & _).
  unfold revise, dom_get. rewrite HDi. simpl.
  match goal with |- context [filterM ?p ?l] =>
    destruct (filterM_total p l) as [rm Hrm] end.
  { intros x _. rewrite HDj. simpl. eauto. }
  rewrite Hrm. simpl. destruct rm as [|x0 rm].
  - eexists _, _. split; [done|]. split; [done|apply shrinks_refl].
  - eexists _, _. split; [done|].
    assert (Hsh : shrinks b (set_domains b (<[xi:=Di ∖ list_to_set (x0 :: rm)]> (domains b)))).
    { intros v D HD. simpl. destruct (decide (v = xi)) as [->|Hne].
      - rewrite lookup_insert_eq. eexists. split; [done|]. simplify_eq. set_solver.
      - rewrite lookup_insert_ne by done. by exists D. }
    split; [|done]. by eapply board_wf_shrinks.
Qed.

Lemma revise_admits b xi xj revised b' sol :
  revise b xi xj = Ok (revised, b') → board_wf b →
  in_board (board_size b) xi → in_board (board_size b) xj → xi ≠ xj →
  is_solution (board_size b) (inequality_constraints b) sol →
  admits b sol → admits b' sol.
Proof.
  intros Hrev Hwf Hi Hj Hne Hsol Hadm. apply revise_Ok in Hrev. destruct revised.
  - destruct Hrev as (Di & Di' & HDi & Hsub & Hgone & _ & ->).
    intros v D Hv HD. simpl in *. destruct (decide (v = xi)) as [->|Hvx].
    + rewrite lookup_insert_eq in HD. simplify_eq.
      destruct (decide (cell_value sol xi ∈ D)) as [|Hn]; [done|]. exfalso.
      destruct (Hgone (cell_value sol xi)) as (Dj & HDj & Hcf).
      { apply elem_of_difference. split; [by apply Hadm|done]. }
      assert (consistent_found (inequality_constraints b) xi xj (cell_value sol xi)
                (iter_vals Dj) = true); [|congruence].
      apply consistent_found_spec; [done|]. exists (cell_value sol xj). split.
      * apply elem_of_iter_vals. by apply Hadm.
      * apply jointly_supports. eapply solution_jointly; [done..|]. apply Hwf.
    + rewrite lookup_insert_ne in HD by done. by apply Hadm.
  - by destruct Hrev as [-> _].
Qed.

Lemma ac2_loop_wf fuel b q :
  board_wf b →
  (∀ xi xj, (xi, xj) ∈ q → in_board (board_size b) xi ∧ in_board (board_size b) xj) →
  ac2_loop fuel b q ≠ Diverge →
  ∃ r b', ac2_loop fuel b q = Ok (r, b') ∧ board_wf b' ∧ shrinks b b'
    ∧ ∀ sol, is_solution (board_size b) (inequality_constraints b) sol →
             admits b sol → (∀ xi xj, (xi, xj) ∈ q → xi ≠ xj) →
             r = true ∧ admits b' sol.
Proof.
  revert b q. induction fuel as [|fuel IH]; intros b [|[xi xj] q] Hwf Hq Hnd; simpl in *;
    try done.
  - eexists _, _. split; [done|]. split_and!; [done|apply shrinks_refl|done].
  - eexists _, _. split; [done|]. split_and!; [done|apply shrinks_refl|done].
  - destruct (Hq xi xj) as [Hi Hj]; [by left|].
    destruct (revise_wf b xi xj Hwf Hi Hj) as (revised & b1 & Hrev & Hwf1 & Hsh1).
    rewrite Hrev in Hnd |- *. simpl in *.
    pose proof (revise_frame _ _ _ _ _ Hrev) as (Hn & Hg & Hcs).
    assert (Hadm1 : ∀ sol, is_solution (board_size b) (inequality_constraints b) sol →
              admits b sol → xi ≠ xj → admits b1 sol).
    { intros sol ???. by eapply revise_admits. }
    destruct revised.
    + destruct (wf_domains _ Hwf1 xi) as (Di & HDi & _); [by rewrite Hn|].
      unfold dom_get in *. rewrite HDi in Hnd |- *. simpl in *.
      case_decide as Hemp.
      * eexists _, _. split; [done|]. split_and!; [done..|].
        intros sol Hsol Hadm Hne. exfalso.
        assert (Hin : cell_value sol xi ∈ Di).
        { eapply (Hadm1 sol); [done..|by apply Hne; left|by rewrite Hn|done]. }
        rewrite Hemp in Hin. by apply not_elem_of_empty in Hin.
      * destruct (IH b1 (q ++ ((λ xk, (xk, xi)) <$>
                                  filter (λ xk, xk ≠ xj) (get_neighbors b1 xi))) Hwf1)
          as (r & b' & Hr & Hwf' & Hsh' & Hadm'); [|done|].
        { intros a c [Hin|Hin]%elem_of_app.
          - rewrite Hn. apply Hq. by right.
          - apply list_elem_of_fmap in Hin as (xk & [= -> ->] & Hxk).
            apply list_elem_of_filter in Hxk as [_ Hxk%elem_of_get_neighbors].
            split; [|by rewrite Hn].
            eapply neighbor_set_in_board; [apply (wf_constraints _ Hwf1)| |done].
            by rewrite Hn. }
        exists r, b'. split; [done|]. split_and!; [done|by eapply shrinks_trans|].
        intros sol Hsol Hadm Hne. apply Hadm'.
        -- by rewrite Hn, Hcs.
        -- apply Hadm1; [done..|]. apply Hne. by left.
        -- intros a c [Hin|Hin]%elem_of_app; [apply Hne; by right|].
           apply list_elem_of_fmap in Hin as (xk & [= -> ->] & Hxk).
           apply list_elem_of_filter in Hxk as [_ Hxk%elem_of_get_neighbors].
           intros ->. apply neighbor_set_self in Hxk as [op Hop].
           rewrite Hcs in Hop. exact (solution_no_self_constraint _ _ _ _ _ Hsol Hi Hop).
    + destruct (IH b1 q Hwf1) as (r & b' & Hr & Hwf' & Hsh' & Hadm'); [|done|].
      { intros a c Hin. rewrite Hn. apply Hq. by right. }
      exists r, b'. split; [done|]. split_and!; [done|by eapply shrinks_trans|].
      intros sol Hsol Hadm Hne. apply Hadm'.
      * by rewrite Hn, Hcs.
      * apply Hadm1; [done..|]. apply Hne. by left.
      * intros a c Hin. apply Hne. by right.
Qed.

Lemma ac2_wf b :
  board_wf b →
  ∃ r b', ac2 b = Ok (r, b') ∧ board_wf b' ∧ same_frame b b' ∧ shrinks b b'
    ∧ ∀ sol, is_solution (board_size b) (inequality_constraints b) sol →
             admits b sol → r = true ∧ admits b' sol.
Proof.
  intros Hwf.
  pose proof (NoDup_all_cells (board_size b)) as Hnd.
  destruct (ac2_loop_wf (ac2_bound b) b
              (initial_queue (inequality_constraints b) (all_cells (board_size b))) Hwf)
    as (r & b' & Hr & Hwf' & Hsh & Hadm).
  - intros xi xj (Hi & Hj & _)%initial_queue_sound; [|done].
    by rewrite <- !elem_of_all_cells.
  - apply ac2_loop_no_diverge. unfold ac2_bound. lia.
  - exists r, b'. split; [done|]. split_and!; [done|by eapply ac2_frame|done|].
    intros sol Hsol Hadmits. apply Hadm; [done..|].
    intros xi xj (_ & _ & ?)%initial_queue_sound; done.
Qed.

End inference_wf.

(** ** Forward checking on a well-formed board *)

Lemma foldl_discard (p : Z → bool) l (D : gset Z) x :
  x ∈ foldl (λ D v, if p v then D ∖ {[v]} else D) D l ↔ x ∈ D ∧ ¬ (x ∈ l ∧ p x = true).
Proof.
  revert D. induction l as [|y l IH]; intros D; simpl.
  - split; [|by intros [? _]]. intros ?. split; [done|]. by intros [?%elem_of_nil _].
  - rewrite IH. destruct (p y) eqn:Ep.
    + rewrite elem_of_difference, elem_of_singleton, elem_of_cons. split.
      * intros [[? Hne] Hn]. split; [done|]. intros [[->|?] ?]; [done|]. by apply Hn.
      * intros [? Hn]. split; [split; [done|]|].
        -- intros ->. apply Hn. split; [by left|done].
        -- intros [? ?]. apply Hn. split; [by right|done].
    + rewrite elem_of_cons. split; intros [? Hn]; (split; [done|]).
      * intros [[->|?] ?]; [congruence|]. by apply Hn.
      * intros [? ?]. apply Hn. split; [by right|done].
Qed.

Lemma first_link_Some cs var nb k :
  first_link cs var nb = Some k →
  k ∈ cs ∧ ∃ op, k = (var, nb, op) ∨ (k = (nb, var, op) ∧ ¬ (nb = var)).
Proof.
  induction cs as [|[[v1 v2] op] cs IH]; simpl; [done|].
  case_bool_decide as H1; simpl.
  { intros [= <-]. destruct H1 as [-> ->]. split; [by left|]. exists op. by left. }
  case_bool_decide as H2; simpl.
  { intros [= <-]. destruct H2 as [-> ->]. split; [by left|]. exists op. right.
    split; [done|]. intros ->. by apply H1. }
  intros [? ?]%IH. split; [by right|done].
Qed.

Lemma fc_discards_solution n cs sol var nb :
  is_solution n cs sol → in_board n var → in_board n nb → nb ≠ var →
  (∀ a c op, (a, c, op) ∈ cs → in_board n a ∧ in_board n c) →
  fc_discards cs var (cell_value sol var) nb (cell_value sol nb) = false.
Proof.
  intros Hsol Hvar Hnb Hne Hcs.
  destruct (solution_jointly n cs sol var nb Hsol Hvar Hnb) as (Hl & H1 & H2); [done..|].
  unfold fc_discards. apply orb_false_iff. split.
  - apply andb_false_iff. destruct (same_line var nb) eqn:Esl; [left|by right].
    apply bool_decide_eq_false_2. intros Heq. apply Hl; [by apply same_line_spec|done].
  - destruct (first_link cs var nb) as [[[v1 v2] op]|] eqn:Efl; [|done].
    apply first_link_Some in Efl as [Hin [op' [?|[? ?]]]]; simplify_eq.
    + rewrite bool_decide_eq_true_2 by done. apply negb_false_iff, op_holds_spec. by apply H1.
    + rewrite bool_decide_eq_false_2 by (intros [? ?]; congruence).
      apply negb_false_iff, op_holds_spec. by apply H2.
Qed.

Lemma restore_pruned_wf n pruned d :
  dom_wf n d →
  (∀ k vals, (k, vals) ∈ pruned → in_board n k ∧ ∀ x, x ∈ vals → 1 ≤ x ≤ n) →
  ∃ d', restore_pruned pruned d = Ok d' ∧ dom_wf n d'.
Proof.
  intros Hd Hp. apply (foldM_total (dom_wf n)); [|done].
  intros d0 [k vals] Hin Hd0. destruct (Hp _ _ Hin) as [Hk Hvals].
  destruct (Hd0 k Hk) as (D & HD & Hr). unfold dom_get. rewrite HD. simpl.
  eexists. split; [done|]. intros v Hv. destruct (decide (v = k)) as [->|Hne].
  - rewrite lookup_insert_eq. eexists. split; [done|].
    intros x [?|?]%elem_of_union; eauto.
  - rewrite lookup_insert_ne by done. by apply Hd0.
Qed.

Section forward_check_wf.
Context {ord : SetOrder}.
Context (b : FutoshikiBoard) (var : cell) (value : Z) (original_domain : gset Z).
Let n := board_size b.
Let cs := inequality_constraints b.
Context (Hshape : grid_shape n (grid b)).
Context (Hcs : ∀ a c op, (a, c, op) ∈ cs → in_board n a ∧ in_board n c).
Context (Hvar : in_board n var).
Context (Horig : ∀ x, x ∈ original_domain → 1 ≤ x ≤ n).

Lemma fc_loop_wf neighbors d pruned :
  (∀ v, v ∈ neighbors → in_board n v) →
  dom_wf n d →
  (∀ k vals, (k, vals) ∈ pruned → in_board n k ∧ ∀ x, x ∈ vals → 1 ≤ x ≤ n) →
  ∃ r d', fc_loop b var value original_domain neighbors d pruned = Ok (r, d')
    ∧ dom_wf n d'
    ∧ ∀ sol, is_solution n cs sol → cell_value sol var = value →
        (∀ v, v ∈ neighbors → v ≠ var) →
        (∀ v D, in_board n v → v ≠ var → d !! v = Some D → cell_value sol v ∈ D) →
        is_Some r ∧ d' !! var = Some original_domain
        ∧ (∀ v D, in_board n v → v ≠ var → d' !! v = Some D → cell_value sol v ∈ D).
Proof.
  revert d pruned. induction neighbors as [|nb rest IH]; intros d pruned Hnb Hd Hp; simpl.
  - eexists _, _. split; [done|]. split.
    + intros v Hv. destruct (decide (v = var)) as [->|Hne].
      * rewrite lookup_insert_eq. eauto.
      * rewrite lookup_insert_ne by done. by apply Hd.
    + intros sol _ _ _ Hadm. split_and!; [done|by rewrite lookup_insert_eq|].
      intros v D Hv Hne. rewrite lookup_insert_ne by done. by apply Hadm.
  - assert (Hnbb : in_board n nb) by (apply Hnb; by left).
    rewrite (grid_get_in_board n) by done. simpl. case_decide as Hzero; last first.
    { destruct (IH d pruned) as (r & d' & Hr & Hd' & Hadm'); [|done..|].
      { intros; apply Hnb; by right. }
      exists r, d'. split; [done|]. split; [done|].
      intros sol ?? Hne ?. apply Hadm'; [done..| |done]. intros; apply Hne; by right. }
    destruct (Hd nb Hnbb) as (Dn & HDn & HrDn). unfold dom_get. rewrite HDn. simpl.
    set (Dn' := foldl _ Dn (iter_vals Dn)).
    assert (HDn' : ∀ x, x ∈ Dn' ↔ x ∈ Dn ∧ fc_discards cs var value nb x = false).
    { intros x. unfold Dn'. rewrite foldl_discard, elem_of_iter_vals. fold cs.
      destruct (fc_discards cs var value nb x); split; intros [? Hx]; split;
        try done; [exfalso; by apply Hx|by intros [_ ?]]. }
    assert (Hd1 : dom_wf n (<[nb:=Dn']> d)).
    { intros v Hv. destruct (decide (v = nb)) as [->|Hne].
      - rewrite lookup_insert_eq. eexists. split; [done|].
        intros x [? _]%HDn'. by apply HrDn.
      - rewrite lookup_insert_ne by done. by apply Hd. }
    assert (Hsol1 : ∀ sol, is_solution n cs sol → cell_value sol var = value →
              (∀ v, v ∈ nb :: rest → v ≠ var) →
              (∀ v D, in_board n v → v ≠ var → d !! v = Some D → cell_value sol v ∈ D) →
              ∀ v D, in_board n v → v ≠ var → <[nb:=Dn']> d !! v = Some D →
                     cell_value sol v ∈ D).
    { intros sol Hsol Hval Hne Hadm v D Hv Hvne HD.
      destruct (decide (v = nb)) as [->|Hvnb].
      - rewrite lookup_insert_eq in HD. simplify_eq. apply HDn'.
        split; [by apply Hadm|]. by eapply fc_discards_solution.
      - rewrite lookup_insert_ne in HD by done. by apply Hadm. }
    case_decide as Hemp.
    + destruct (restore_pruned_wf n pruned (<[var:=original_domain]> (<[nb:=Dn']> d)))
        as (d'' & Hd'' & Hwf''); [|done|].
      { intros v Hv. destruct (decide (v = var)) as [->|Hne].
        - rewrite lookup_insert_eq. eauto.
        - rewrite lookup_insert_ne by done. by apply Hd1. }
      rewrite Hd''. simpl. eexists _, _. split; [done|]. split; [done|].
      intros sol Hsol Hval Hne Hadm. exfalso.
      assert (Hin : cell_value sol nb ∈ Dn').
      { apply (Hsol1 sol Hsol Hval Hne Hadm nb); [done|apply Hne; by left|].
        by rewrite lookup_insert_eq. }
      rewrite Hemp in Hin. by apply not_elem_of_empty in Hin.
    + destruct (IH (<[nb:=Dn']> d) (pruned ++ [(nb, Dn ∖ Dn')]))
        as (r & d' & Hr & Hd' & Hadm'); [|done| |].
      { intros; apply Hnb; by right. }
      { intros k vals [?|Hin]%elem_of_app; [by apply Hp|].
        apply list_elem_of_singleton in Hin. simplify_eq. split; [done|].
        intros x [? _]%elem_of_difference. by apply HrDn. }
      exists r, d'. split; [done|]. split; [done|].
      intros sol Hsol Hval Hne Hadm. apply Hadm'; [done..| |].
      * intros; apply Hne; by right.
      * by apply Hsol1.
Qed.

End forward_check_wf.

Lemma forward_check_wf {ord : SetOrder} b var value :
  board_wf b → in_board (board_size b) var → 1 ≤ value ≤ board_size b →
  ∃ r b', forward_check b var value = Ok (r, b') ∧ board_wf b' ∧ same_frame b b'
    ∧ ∀ sol, is_solution (board_size b) (inequality_constraints b) sol →
             cell_value sol var = value → admits b sol →
             is_Some r ∧ admits b' sol.
Proof.
  intros Hwf Hvar Hval. destruct (wf_domains _ Hwf var Hvar) as (D0 & HD0 & Hr0).
  unfold forward_check, dom_get. rewrite HD0. simpl.
  destruct (fc_loop_wf b var value D0 (wf_shape _ Hwf) (wf_constraints _ Hwf) Hvar Hr0
              (get_neighbors b var) (<[var:={[value]}]> (domains b)) [])
    as (r & d' & Hr & Hd' & Hadm).
  - intros v Hv%elem_of_get_neighbors.
    eapply neighbor_set_in_board; [apply (wf_constraints _ Hwf)|done..].
  - intros v Hv. destruct (decide (v = var)) as [->|Hne].
    + rewrite lookup_insert_eq. eexists. split; [done|]. set_solver.
    + rewrite lookup_insert_ne by done. by apply (wf_domains _ Hwf).
  - by intros k vals ?%elem_of_nil.
  - rewrite Hr. simpl. eexists _, _. split; [done|]. split_and!.
    + split; [apply Hwf..|done].
    + done.
    + intros sol Hsol Hsv Hadmits.
      destruct (Hadm sol Hsol Hsv) as (Hsome & Hdv & Hrest).
      * intros v Hv%elem_of_get_neighbors ->.
        apply neighbor_set_self in Hv as [op Hop].
        exact (solution_no_self_constraint _ _ _ _ _ Hsol Hvar Hop).
      * intros v D Hv Hne HD. rewrite lookup_insert_ne in HD by done. by apply Hadmits.
      * split; [done|]. intros v D Hv HD. simpl in HD.
        destruct (decide (v = var)) as [->|Hne]; [|by eapply Hrest].
        rewrite Hdv in HD. simplify_eq. by apply Hadmits.
Qed.

(** ** Heuristics on a well-formed board *)

Lemma insert_by_count_perm x l : insert_by_count x l ≡ₚ x :: l.
Proof.
  induction l as [|y l IH]; simpl; [done|]. case_decide; [done|].
  rewrite IH. apply Permutation_swap.
Qed.

Lemma sort_by_count_perm l : sort_by_count l ≡ₚ l.
Proof.
  induction l as [|x l IH]; simpl; [done|]. by rewrite insert_by_count_perm, IH.
Qed.

Lemma solution_in_range n cs sol v :
  is_solution n cs sol → in_board n v → 1 ≤ cell_value sol v ≤ n.
Proof. intros (_ & Hfull & [Hrange _ _]) Hv. apply Hrange; [done|]. by apply Hfull. Qed.

Section heuristics_wf.
Context {ord : SetOrder}.

Lemma lcv_neighbor_penalty_wf b var value nb :
  board_wf b → in_board (board_size b) nb →
  ∃ p, lcv_neighbor_penalty b var value nb = Ok p.
Proof.
  intros Hwf Hnb. unfold lcv_neighbor_penalty.
  rewrite (grid_get_in_board (board_size b)) by (done || apply Hwf). simpl.
  case_decide; [|eauto]. destruct (wf_domains _ Hwf nb Hnb) as (Dn & HDn & _).
  unfold dom_get. rewrite HDn. simpl. eauto.
Qed.

Lemma lcv_probe_wf b var value :
  board_wf b → in_board (board_size b) var → 1 ≤ value ≤ board_size b →
  grid_get (grid b) var = Ok 0 →
  ∃ b1 c b2, assign b var value = Ok b1
    ∧ foldM (λ acc neighbor, p ← lcv_neighbor_penalty b1 var value neighbor; Ok (acc + p))
            0 (get_neighbors b1 var) = Ok c
    ∧ unassign b1 var = Ok b2
    ∧ same_frame b b2
    ∧ domains b2 = <[var := full_domain (board_size b)]> (domains b).
Proof.
  intros Hwf Hvar Hval H0.
  destruct (assign_wf b var value Hwf Hvar Hval) as (b1 & Ha & Hwf1 & Hn1 & Hcs1 & Hd1 & _).
  destruct (foldM_total (λ _ : Z, True)
              (λ acc neighbor, p ← lcv_neighbor_penalty b1 var value neighbor; Ok (acc + p))
              (get_neighbors b1 var) 0) as (c & Hc & _); [|done|].
  { intros acc nb Hnb%elem_of_get_neighbors _.
    destruct (lcv_neighbor_penalty_wf b1 var value nb Hwf1) as [p ->]; [|simpl; eauto].
    eapply neighbor_set_in_board; [apply (wf_constraints _ Hwf1)|by rewrite Hn1|done]. }
  destruct (assign_unassign_grid b var value b1 b1 H0 Ha) as (b2 & Hu & Hfr); [done|].
  exists b1, c, b2. split_and!; [done..|].
  unfold unassign in Hu. apply bind_Ok in Hu as (g & _ & Hu). simplify_eq. simpl.
  by rewrite Hd1, Hn1, insert_insert_eq.
Qed.

Lemma order_domain_values_lcv_wf var b D :
  board_wf b → in_board (board_size b) var → grid_get (grid b) var = Ok 0 →
  domains b !! var = Some D →
  ∃ vals b', order_domain_values_lcv var b = Ok (vals, b')
    ∧ board_wf b' ∧ same_frame b b' ∧ vals ≡ₚ elements D
    ∧ ∀ sol, is_solution (board_size b) (inequality_constraints b) sol →
             admits b sol → admits b' sol.
Proof.
  intros Hwf Hvar H0 HD.
  set (Q := λ bi, board_wf bi ∧ same_frame b bi
          ∧ ∀ sol, is_solution (board_size b) (inequality_constraints b) sol →
                   admits b sol → admits bi sol).
  set (step := λ '(counts, b) value,
          b1 ← assign b var value;
          constraining_count ←
            foldM (λ acc neighbor, p ← lcv_neighbor_penalty b1 var value neighbor; Ok (acc + p))
                  0 (get_neighbors b1 var);
          b2 ← unassign b1 var;
          Ok (counts ++ [(value, constraining_count)], b2)).
  assert (Hfold : ∀ l counts bi, (∀ x, x ∈ l → 1 ≤ x ≤ board_size b) → Q bi →
            ∃ counts' b', foldM step (counts, bi) l = Ok (counts', b') ∧ Q b'
                          ∧ counts'.*1 = counts.*1 ++ l).
  { induction l as [|value l IH]; intros counts bi Hl (Hwfi & Hfri & Hadmi); simpl.
    - eexists _, _. split; [done|]. split; [done|]. by rewrite app_nil_r.
    - destruct Hfri as (Hni & Hgi & Hcsi).
      destruct (lcv_probe_wf bi var value) as (b1 & c & b2 & Ha & Hc & Hu & Hfr & Hd);
        [done|by rewrite Hni|rewrite Hni; apply Hl; by left|by rewrite Hgi|].
      rewrite Ha. simpl. rewrite Hc. simpl. rewrite Hu. simpl.
      destruct (IH (counts ++ [(value, c)]) b2) as (counts' & b' & Hr & HQ & Hcounts).
      { intros; apply Hl; by right. }
      { assert (Hfr2 : same_frame b b2).
        { destruct Hfr as (? & ? & ?). unfold same_frame. split_and!; congruence. }
        assert (Hdw : ∀ v, v ≠ var → domains b2 !! v = domains bi !! v).
        { intros v Hne. by rewrite Hd, lookup_insert_ne. }
        split_and!; [|done|].
        - destruct Hfr2 as (Hn2 & Hg2 & Hcs2). split.
          + rewrite Hn2, Hg2. apply Hwf.
          + rewrite Hn2, Hcs2. apply Hwf.
          + rewrite Hn2. intros v Hv. destruct (decide (v = var)) as [->|Hne].
            * rewrite Hd, lookup_insert_eq. eexists. split; [done|].
              intros x ?%elem_of_full_domain. lia.
            * rewrite Hdw by done. rewrite <- Hni in Hv |- *.
              by apply (wf_domains _ Hwfi).
        - intros sol Hsol Hadm v Dv Hv HDv. destruct Hfr2 as (Hn2 & _ & _).
          rewrite Hn2 in Hv. destruct (decide (v = var)) as [->|Hne].
          + rewrite Hd, lookup_insert_eq in HDv. simplify_eq.
            apply elem_of_full_domain. rewrite Hni. by eapply solution_in_range.
          + rewrite Hdw in HDv by done. eapply Hadmi; [done..|by rewrite Hni|done]. }
      exists counts', b'. split; [done|]. split; [done|].
      rewrite Hcounts, fmap_app. simpl. by rewrite <- app_assoc. }
  destruct (wf_domains _ Hwf var Hvar) as (D' & HD' & HrD). simplify_eq.
  destruct (Hfold (iter_vals D) [] b) as (counts & b' & Hr & (Hwf' & Hfr' & Hadm') & Hcounts).
  { intros x Hx%elem_of_iter_vals. by apply HrD. }
  { split_and!; done. }
  unfold order_domain_values_lcv, dom_get. rewrite HD. simpl.
  fold step. rewrite Hr. simpl. eexists _, _. split; [done|].
  split_and!; [done..| |done].
  rewrite (sort_by_count_perm counts), Hcounts. simpl. apply iter_vals_perm.
Qed.

Lemma select_unassigned_variable_mrv_wf b :
  board_wf b →
  filter (λ v, cell_value (grid b) v = 0) (all_cells (board_size b)) ≠ [] →
  ∃ var, select_unassigned_variable_mrv b = Ok (Some var)
    ∧ var ∈ filter (λ v, cell_value (grid b) v = 0) (all_cells (board_size b)).
Proof.
  intros Hwf Hne. unfold select_unassigned_variable_mrv.
  rewrite (get_unassigned_variables_wf b (wf_shape _ Hwf)). simpl.
  set (l := filter _ _) in *.
  set (step := λ '(min_domain_size, best_var) var,
         D ← dom_get (domains b) var;
         let domain_size := size D in
         Ok (match min_domain_size with
             | Some m => if decide (domain_size < m)%nat
                         then (Some domain_size, Some var) else (Some m, best_var)
             | None => (Some domain_size, Some var)
             end)).
  assert (Hstep : ∀ st var, var ∈ l → (st.1 = None ∨ is_Some st.2) →
            ∃ m v', step st var = Ok (Some m, Some v') ∧ (v' = var ∨ st.2 = Some v')).
  { intros [m0 b0] var Hv Hst. apply list_elem_of_filter in Hv as [_ Hv%elem_of_all_cells].
    destruct (wf_domains _ Hwf var Hv) as (D & HD & _).
    unfold step, dom_get. rewrite HD. simpl in *.
    destruct m0 as [m0|]; [|eexists _, _; split; [done|]; by left].
    destruct Hst as [?|[v0 ->]]; [done|].
    case_decide; eexists _, _; (split; [done|]); eauto. }
  destruct l as [|first rest] eqn:El; [done|].
  destruct (Hstep (None, None) first) as (m & v' & Hs & Hv'); [by left|by left|].
  rewrite foldM_cons, Hs. simpl.
  destruct (foldM_total (λ st, ∃ m v, st = (Some m, Some v) ∧ v ∈ first :: rest)
              step rest (Some m, Some v')) as ([m1 b1] & Hr & (m2 & v2 & ? & ?)).
  - intros st x Hx (m0 & v0 & -> & Hv0).
    destruct (Hstep (Some m0, Some v0) x) as (m1 & v1 & Hs1 & Hv1);
      [by right|right; by eexists|].
    rewrite Hs1. eexists. split; [done|]. exists m1, v1. split; [done|].
    destruct Hv1 as [->|Hv1]; [by right|]. simpl in Hv1. by simplify_eq.
  - exists m, v'. split; [done|]. destruct Hv' as [->|Hv']; [by left|done].
  - rewrite Hr. simpl. simplify_eq. eauto.
Qed.

Lemma infer_wf s b var value :
  board_wf b → in_board (board_size b) var → 1 ≤ value ≤ board_size b →
  ∃ ok b', infer s b var value = Ok (ok, b') ∧ board_wf b' ∧ same_frame b b'
    ∧ ∀ sol, is_solution (board_size b) (inequality_constraints b) sol →
             cell_value sol var = value → admits b sol → ok = true ∧ admits b' sol.
Proof.
  intros Hwf Hvar Hval. unfold infer.
  assert (∃ ok b1, (if use_forward_checking s
                    then '(fc_result, b1) ← forward_check b var value;
                         Ok (bool_decide (is_Some fc_result), b1)
                    else Ok (true, b)) = Ok (ok, b1)
            ∧ board_wf b1 ∧ same_frame b b1
            ∧ ∀ sol, is_solution (board_size b) (inequality_constraints b) sol →
                     cell_value sol var = value → admits b sol → ok = true ∧ admits b1 sol)
    as (ok & b1 & -> & Hwf1 & Hfr1 & Hadm1).
  { destruct (use_forward_checking s).
    - destruct (forward_check_wf b var value Hwf Hvar Hval) as (r & b1 & -> & ? & ? & Hadm).
      simpl. eexists _, _. split; [done|]. split_and!; [done..|].
      intros sol ???. destruct (Hadm sol) as [? ?]; [done..|].
      split; [by apply bool_decide_eq_true_2|done].
    - eexists _, _. split; [done|]. split_and!; done. }
  simpl. destruct (ok && use_ac2 s) eqn:Eac.
  - destruct (ac2_wf b1 Hwf1) as (r & b2 & Hr & Hwf2 & Hfr2 & _ & Hadm2).
    rewrite Hr. exists r, b2. split; [done|]. split_and!; [done|by etrans|].
    intros sol Hsol Hsv Hadm. destruct (Hadm1 sol Hsol Hsv Hadm) as [_ ?].
    destruct Hfr1 as (Hn & _ & Hcs). apply Hadm2; [by rewrite Hn, Hcs|done].
  - exists ok, b1. split; [done|]. split_and!; done.
Qed.

End heuristics_wf.

(** ** The backtracking search on a well-formed board *)

Lemma length_filter_strict {A} (P Q : A → Prop) `{!∀ x, Decision (P x)}
    `{!∀ x, Decision (Q x)} (l : list A) x :
  (∀ y, y ∈ l → Q y → P y) → x ∈ l → P x → ¬ Q x →
  (length (filter Q l) < length (filter P l))%nat.
Proof.
  intros Himp Hx HP HQ.
  assert (Hle : ∀ l', (∀ y, y ∈ l' → Q y → P y) →
            (length (filter Q l') ≤ length (filter P l'))%nat).
  { induction l' as [|y l' IH]; intros Hi; [done|]. rewrite !filter_cons.
    assert (length (filter Q l') ≤ length (filter P l'))%nat
      by (apply IH; intros; apply Hi; [by right|done]).
    destruct (decide (Q y)) as [Hq|]; destruct (decide (P y)) as [|Hp]; simpl; try lia.
    exfalso. apply Hp, Hi; [by left|done]. }
  induction l as [|y l IH]; [by apply elem_of_nil in Hx|].
  rewrite !filter_cons. apply elem_of_cons in Hx as [<-|Hx].
  - rewrite decide_False, decide_True by done. simpl.
    assert (length (filter Q l) ≤ length (filter P l))%nat; [|lia].
    apply Hle. intros; apply Himp; [by right|done].
  - assert (length (filter Q l) < length (filter P l))%nat
      by (apply IH; [intros; apply Himp; [by right|done]|done]).
    destruct (decide (Q y)) as [Hq|]; destruct (decide (P y)) as [|Hp]; simpl; try lia.
    exfalso. apply Hp, Himp; [by left|done].
Qed.

Lemma board_eta b : mkBoard (board_size b) (grid b) (domains b) (inequality_constraints b) = b.
Proof. by destruct b. Qed.

Lemma solved_from_frame b b1 b' :
  board_size b1 = board_size b →
  inequality_constraints b1 = inequality_constraints b →
  extends (board_size b) (grid b) (grid b1) →
  solved_from b1 b' → solved_from b b'.
Proof.
  intros Hn Hcs Hext (Hn' & Hcs' & Hsol & Hext'). unfold solved_from.
  rewrite <- Hn, <- Hcs. split_and!; [congruence..|done|].
  eapply extends_trans; [|done]. by rewrite Hn.
Qed.

Lemma extends_refl n g : extends n g g.
Proof. by intros v ??. Qed.

Section search.
Context {ord : SetOrder}.

Lemma try_values_spec (rec : CSPSolver → res (bool * CSPSolver)) var vals s :
  board_wf (board s) →
  consistent_grid (board_size (board s)) (inequality_constraints (board s)) (grid (board s)) →
  in_board (board_size (board s)) var → cell_value (grid (board s)) var = 0 →
  (∀ x, x ∈ vals → 1 ≤ x ≤ board_size (board s)) →
  (∀ s1, board_wf (board s1) →
         consistent_grid (board_size (board s1)) (inequality_constraints (board s1))
                         (grid (board s1)) →
         (unassigned_count (board s1) < unassigned_count (board s))%nat →
         ∃ r s2, rec s1 = Ok (r, s2) ∧ search_post (board s1) r (board s2)) →
  ∃ r s', try_values rec var vals s = Ok (r, s') ∧
    if r then solved_from (board s) (board s')
    else same_frame (board s) (board s')
         ∧ ∀ sol, is_solution (board_size (board s)) (inequality_constraints (board s)) sol →
                  extends (board_size (board s)) (grid (board s)) sol →
                  admits (board s) sol → cell_value sol var ∈ vals → False.
Proof.
  revert s. induction vals as [|value rest IH]; intros s Hwf Hcon Hvar Hzero Hvals Hrec; simpl.
  { exists false, s. split; [done|]. split; [done|]. by intros sol _ _ _ ?%elem_of_nil. }
  set (b := board s) in *. set (n := board_size b) in *.
  set (cs := inequality_constraints b) in *.
  assert (Hget : grid_get (grid b) var = Ok 0).
  { rewrite (grid_get_in_board n); [by rewrite Hzero|apply Hwf|done]. }
  rewrite Hget. simpl.
  assert (Hval : 1 ≤ value ≤ n) by (apply Hvals; by left).
  destruct (assign_wf b var value Hwf Hvar Hval)
    as (b1 & Ha & Hwf1 & Hn1 & Hcs1 & Hd1 & Hv1 & Ho1).
  rewrite Ha. simpl.
  destruct (is_consistent_wf b1 (wf_shape _ Hwf1) (wf_constraints _ Hwf1) var value)
    as (okc & Hokc & Hchk); [by rewrite Hn1|].
  rewrite Hokc. simpl. rewrite Hn1, Hcs1 in Hchk. fold n cs in Hchk.
  (* what a solution that picks [value] for [var] looks like on [b1] *)
  assert (Hsol1 : ∀ sol, is_solution n cs sol → extends n (grid b) sol → admits b sol →
            cell_value sol var = value → extends n (grid b1) sol ∧ admits b1 sol).
  { intros sol Hsol Hext Hadm Hsv. split.
    - intros v Hv Hnz. destruct (decide (v = var)) as [->|Hne]; [congruence|].
      rewrite Ho1 in Hnz |- * by done. by apply Hext.
    - intros v D Hv HD. rewrite Hn1 in Hv. rewrite Hd1 in HD.
      destruct (decide (v = var)) as [->|Hne].
      + rewrite lookup_insert_eq in HD. simplify_eq. set_solver.
      + rewrite lookup_insert_ne in HD by done. by apply Hadm. }
  assert (Hext1 : extends n (grid b) (grid b1)).
  { intros v Hv Hnz. apply Ho1; [done|]. intros ->. done. }
  assert (Hcount : (unassigned_count b1 < unassigned_count b)%nat).
  { unfold unassigned_count. rewrite Hn1. fold n.
    apply (length_filter_strict _ _ _ var).
    - intros v Hv%elem_of_all_cells Hq. destruct (decide (v = var)) as [->|Hne]; [done|].
      by rewrite <- Ho1.
    - by apply elem_of_all_cells.
    - done.
    - rewrite Hv1. lia. }
  (* the outcome of this candidate: success, or a failure that keeps the grid of [b1] *)
  assert (Hcand : ∃ (found : bool) (s1 : CSPSolver),
      (if okc
       then '(ok, b') ← infer s b1 var value;
            if ok : bool then rec (with_board s b') else Ok (false, with_board s b')
       else Ok (false, with_board s b1)) = Ok (found, s1) ∧
      if found then solved_from b (board s1)
      else same_frame b1 (board s1)
           ∧ ∀ sol, is_solution n cs sol → extends n (grid b) sol → admits b sol →
                    cell_value sol var = value → False).
  { destruct okc.
    - assert (Hcon1 : consistent_grid n cs (grid b1)).
      { destruct Hchk as [[Hline Hviol] _]; [done|].
        exact (is_consistent_sound n cs (grid b) (grid b1) var value Hcon Hvar Hval Hv1 Ho1
                 (wf_constraints _ Hwf) Hline Hviol). }
      destruct (infer_wf s b1 var value Hwf1) as (ok & b2 & Hinf & Hwf2 & Hfr2 & Hadm2);
        [by rewrite Hn1..|].
      rewrite Hinf. simpl. destruct Hfr2 as (Hn2 & Hg2 & Hcs2). destruct ok.
      + destruct (Hrec (with_board s b2)) as (r & s2 & Hr & Hpost); simpl.
        * done.
        * by rewrite Hn2, Hcs2, Hg2, Hn1, Hcs1.
        * unfold unassigned_count in *. by rewrite Hn2, Hg2.
        * rewrite Hr. exists r, s2. split; [done|]. simpl in Hpost. destruct r; simpl in *.
          -- apply (solved_from_frame b b2); [congruence..|by rewrite Hg2|done].
          -- destruct Hpost as [Hfr Hno]. split.
             ++ etrans; [|done]. unfold same_frame. done.
             ++ intros sol Hsol Hext Hadm Hsv.
                destruct (Hsol1 sol Hsol Hext Hadm Hsv) as [He1 Ha1].
                apply (Hno sol).
                ** by rewrite Hn2, Hcs2, Hn1, Hcs1.
                ** by rewrite Hn2, Hg2, Hn1.
                ** apply Hadm2; [by rewrite Hn1, Hcs1|done..].
      + eexists _, _. split; [done|]. simpl. split; [done|].
        intros sol Hsol Hext Hadm Hsv. destruct (Hsol1 sol Hsol Hext Hadm Hsv) as [He1 Ha1].
        destruct (Hadm2 sol) as [? _]; [by rewrite Hn1, Hcs1|done..].
    - eexists _, _. split; [done|]. simpl. split; [done|].
      intros sol Hsol Hext Hadm Hsv. destruct (Hsol1 sol Hsol Hext Hadm Hsv) as [He1 Ha1].
      assert (false = true); [|done]. apply Hchk.
      refine (is_consistent_complete n cs (grid b1) sol var value Hsol He1 Hvar Hv1 _
                (wf_constraints _ Hwf)). lia. }
  destruct Hcand as (found & s1 & Hs1 & Hpost1). rewrite Hs1. simpl.
  destruct found; [by exists true, s1|].
  destruct Hpost1 as [Hfr1 Hno1].
  destruct (assign_unassign_grid b var value b1 (board s1) Hget Ha Hfr1) as (b3 & Hu & Hfr3).
  rewrite Hu. simpl.
  set (s_next := mkSolver _ _ _ _ _ _).
  assert (Hb : board s_next = b).
  { unfold s_next. simpl. unfold set_domains. destruct Hfr3 as (-> & -> & ->).
    apply board_eta. }
  destruct (IH s_next) as (r & s' & Hr & Hpost); rewrite ?Hb; try done.
  { intros; apply Hvals; by right. }
  exists r, s'. split; [done|]. rewrite Hb in Hpost. destruct r; [done|].
  destruct Hpost as [Hfr Hno]. split; [done|].
  intros sol Hsol Hext Hadm [Heq|Hin]%elem_of_cons; [by eapply Hno1|by eapply Hno].
Qed.

Lemma backtracking_search_spec fuel s :
  board_wf (board s) →
  consistent_grid (board_size (board s)) (inequality_constraints (board s)) (grid (board s)) →
  (unassigned_count (board s) < fuel)%nat →
  ∃ r s', _backtracking_search fuel s = Ok (r, s') ∧ search_post (board s) r (board s').
Proof.
  revert s. induction fuel as [|fuel IH]; intros s Hwf Hcon Hfuel; [lia|]. simpl.
  set (b := board s) in *. set (n := board_size b) in *.
  set (cs := inequality_constraints b) in *.
  rewrite (get_unassigned_variables_wf b (wf_shape _ Hwf)). simpl. fold n.
  destruct (filter (λ v, cell_value (grid b) v = 0) (all_cells n)) as [|first l] eqn:El.
  { exists true, s. split; [done|]. simpl. unfold solved_from. fold b n cs.
    split_and!; [done..| |apply extends_refl].
    split_and!; [apply Hwf| |done].
    intros v Hv%elem_of_all_cells Hz.
    assert (Hin : v ∈ filter (λ v, cell_value (grid b) v = 0) (all_cells n))
      by by apply list_elem_of_filter.
    rewrite El in Hin. by apply elem_of_nil in Hin. }
  assert (∃ var, (if use_mrv s then select_unassigned_variable_mrv b else Ok (Some first))
                 = Ok (Some var) ∧ in_board n var ∧ cell_value (grid b) var = 0)
    as (var & -> & Hvar & Hzero).
  { assert (Hin : ∀ v, v ∈ first :: l → in_board n v ∧ cell_value (grid b) v = 0).
    { intros v Hv. rewrite <- El in Hv.
      apply list_elem_of_filter in Hv as [? ?%elem_of_all_cells]. done. }
    destruct (use_mrv s).
    - destruct (select_unassigned_variable_mrv_wf b Hwf) as (var & Hsel & Hv).
      { fold n. by rewrite El. }
      exists var. split; [done|]. apply Hin. fold n in Hv. by rewrite El in Hv.
    - exists first. split; [done|]. apply Hin. by left. }
  simpl. destruct (wf_domains _ Hwf var Hvar) as (D & HD & HrD).
  assert (Hget : grid_get (grid b) var = Ok 0).
  { rewrite (grid_get_in_board n); [by rewrite Hzero|apply Hwf|done]. }
  assert (∃ vals b1, (if use_lcv s then order_domain_values_lcv var b
                      else D ← dom_get (domains b) var; Ok (iter_vals D, b)) = Ok (vals, b1)
            ∧ board_wf b1 ∧ same_frame b b1 ∧ vals ≡ₚ elements D
            ∧ ∀ sol, is_solution n cs sol → admits b sol → admits b1 sol)
    as (vals & b1 & -> & Hwf1 & Hfr1 & Hperm & Hadm1).
  { destruct (use_lcv s).
    - by apply order_domain_values_lcv_wf.
    - unfold dom_get. rewrite HD. simpl. eexists _, _. split; [done|].
      split_and!; [done..|apply iter_vals_perm|done]. }
  simpl. destruct (Hfr1) as (Hn1 & Hg1 & Hcs1).
  destruct (try_values_spec (_backtracking_search fuel) var vals (with_board s b1))
    as (r & s' & Hr & Hpost); simpl; rewrite ?Hn1, ?Hg1, ?Hcs1; try done.
  { intros x Hx. apply HrD. by rewrite <- elem_of_elements, <- Hperm. }
  { intros s1 Hwfs1 Hcons1 Hcount. apply IH; [done..|].
    assert (unassigned_count b1 = unassigned_count b)
      by (unfold unassigned_count; by rewrite Hn1, Hg1).
    lia. }
  exists r, s'. split; [done|]. simpl in Hpost. destruct r; simpl.
  - apply (solved_from_frame b b1); [done..| |done]. rewrite Hg1. apply extends_refl.
  - rewrite Hn1, Hg1, Hcs1 in Hpost. destruct Hpost as [Hfr Hno]. split; [by etrans|].
    intros sol Hsol Hext Hadm. apply (Hno sol); [done..|by apply Hadm1|].
    rewrite Hperm, elem_of_elements. by apply Hadm.
Qed.

Lemma solve_spec s :
  board_wf (board s) →
  consistent_grid (board_size (board s)) (inequality_constraints (board s)) (grid (board s)) →
  ∃ r s', solve s = Ok (r, s') ∧ search_post (board s) r (board s').
Proof.
  intros Hwf Hcon. unfold solve, solve_fuel. cbn [use_ac2 board].
  assert (Hfuel : ∀ b, board_size b = board_size (board s) →
                       (unassigned_count b < search_fuel (board s))%nat).
  { intros b Hb. unfold unassigned_count, search_fuel. rewrite <- Hb.
    pose proof (length_filter (λ v, cell_value (grid b) v = 0) (all_cells (board_size b))).
    lia. }
  destruct (use_ac2 s) eqn:Eac.
  - destruct (ac2_wf (board s) Hwf) as (ok & b1 & Hac & Hwf1 & Hfr1 & _ & Hadm1).
    rewrite Hac, res_bind_Ok. cbv beta iota.
    destruct (Hfr1) as (Hn1 & Hg1 & Hcs1). destruct ok.
    + match goal with |- context [_backtracking_search ?f ?s0] =>
        destruct (backtracking_search_spec f s0) as (r & s' & Hr & Hpost) end; simpl.
      * done.
      * by rewrite Hn1, Hg1, Hcs1.
      * by apply Hfuel.
      * exists r, s'. split; [done|]. simpl in Hpost. destruct r; simpl in *.
        -- apply (solved_from_frame _ b1); [done..| |done]. rewrite Hg1. apply extends_refl.
        -- rewrite Hn1, Hg1, Hcs1 in Hpost. destruct Hpost as [Hfr Hno]. split; [by etrans|].
           intros sol Hsol Hext Hadm. apply (Hno sol); [done..|]. by apply Hadm1.
    + eexists _, _. split; [done|]. simpl. split; [done|].
      intros sol Hsol _ Hadm. by destruct (Hadm1 sol Hsol Hadm).
  - match goal with |- context [_backtracking_search ?f ?s0] =>
      destruct (backtracking_search_spec f s0) as (r & s' & Hr & Hpost) end; simpl;
      [done..|by apply Hfuel|].
    exists r, s'. split; [done|]. done.
Qed.

(** A deeper recursion allowance does not change an outcome already reached. *)
Lemma try_values_mono (rec rec' : CSPSolver → res (bool * CSPSolver)) var vals s r :
  (∀ s1 r1, rec s1 = r1 → r1 ≠ Diverge → rec' s1 = r1) →
  try_values rec var vals s = r → r ≠ Diverge → try_values rec' var vals s = r.
Proof.
  intros Hrec. revert s r.
  induction vals as [|value rest IH]; intros s r Hr Hnd; simpl in *; [done|].
  destruct (grid_get (grid (board s)) var) as [x| |]; simpl in *; [|done..].
  destruct (assign (board s) var value) as [b| |]; simpl in *; [|done..].
  destruct (is_consistent b var value) as [[|]| |]; simpl in *; [| |done..].
  - destruct (infer s b var value) as [[[|] b']| |]; simpl in *; [| |done..].
    + destruct (rec (with_board s b')) as [[found s1]|e|] eqn:Erec.
      * rewrite (Hrec _ _ Erec) by done. simpl in *. destruct found; [done|].
        destruct (unassign (board s1) var) as [b2| |]; simpl in *; [|done..].
        by apply IH.
      * by rewrite (Hrec _ _ Erec).
      * simpl in Hr. by subst r.
    + destruct (unassign b' var) as [b2| |]; simpl in *; [|done..]. by apply IH.
  - destruct (unassign b var) as [b2| |]; simpl in *; [|done..]. by apply IH.
Qed.

Lemma backtracking_search_fuel_mono fuel fuel' s r :
  _backtracking_search fuel s = r → r ≠ Diverge → (fuel ≤ fuel')%nat →
  _backtracking_search fuel' s = r.
Proof.
  revert fuel' s r. induction fuel as [|fuel IH]; intros fuel' s r Hr Hnd Hle.
  { simpl in Hr. by subst r. }
  destruct fuel' as [|fuel']; [lia|]. simpl in *.
  destruct (get_unassigned_variables (board s)) as [[|first l]| |]; simpl in *; [done| |done..].
  destruct (if use_mrv s then select_unassigned_variable_mrv (board s) else Ok (Some first))
    as [[var|]| |]; simpl in *; [|done..].
  destruct (if use_lcv s then order_domain_values_lcv var (board s)
            else D ← dom_get (domains (board s)) var; Ok (iter_vals D, board s))
    as [[vals b]| |]; simpl in *; [|done..].
  apply (try_values_mono (_backtracking_search fuel)); [|done..].
  intros s1 r1 H1 Hnd1. apply (IH fuel' s1 r1 H1 Hnd1). lia.
Qed.

Lemma solve_fuel_mono fuel fuel' s r :
  solve_fuel fuel s = r → r ≠ Diverge → (fuel ≤ fuel')%nat → solve_fuel fuel' s = r.
Proof.
  unfold solve_fuel. cbn [use_ac2 board]. intros Hr Hnd Hle. destruct (use_ac2 s).
  - destruct (ac2 (board s)) as [[[|] b]| |]; simpl in *; [|done..].
    by apply (backtracking_search_fuel_mono fuel).
  - by apply (backtracking_search_fuel_mono fuel).
Qed.

End search.

(** ** Construction *)

Lemma discard_at_lookup d k v k' :
  discard_at d k v !! k' =
    if decide (k' = k) then (λ D, D ∖ {[v]}) <$> d !! k else d !! k'.
Proof.
  unfold discard_at. destruct (d !! k) as [D|] eqn:E; simpl.
  - case_decide as Hin.
    + case_decide as Hk; [subst; by rewrite lookup_insert_eq|by rewrite lookup_insert_ne].
    + case_decide as Hk; [|done]. subst. rewrite E. f_equal. set_solver.
  - case_decide; by subst.
Qed.

Lemma prunes_only_refl n fixed x d : prunes_only n fixed x d d.
Proof. intros k D ?. exists D. split_and!; [done..|]. by intros. Qed.

Lemma prunes_only_trans n fixed x d1 d2 d3 :
  prunes_only n fixed x d1 d2 → prunes_only n fixed x d2 d3 → prunes_only n fixed x d1 d3.
Proof.
  intros H12 H23 k D HD. destruct (H12 _ _ HD) as (D2 & HD2 & Hs2 & Hr2).
  destruct (H23 _ _ HD2) as (D3 & HD3 & Hs3 & Hr3). exists D3.
  split_and!; [done|set_solver|]. intros y Hy Hn.
  destruct (decide (y ∈ D2)); [by apply Hr3|by apply Hr2].
Qed.

Lemma prunes_only_discard n fixed x d k :
  k ≠ fixed → shares_line fixed k → in_board n k →
  prunes_only n fixed x d (discard_at d k x).
Proof.
  intros Hne Hl Hk k' D HD. rewrite discard_at_lookup. case_decide as Heq.
  - subst. rewrite HD. simpl. eexists. split_and!; [done|set_solver|].
    intros y Hy Hn. split_and!; [|done..].
    destruct (decide (y = x)); [done|]. exfalso. apply Hn. set_solver.
  - exists D. split_and!; [done..|]. by intros.
Qed.

Lemma enforce_all_different_prunes b fixed x :
  in_board (board_size b) fixed →
  prunes_only (board_size b) fixed x (domains b)
    (domains (_enforce_all_different_constraints b fixed x)).
Proof.
  intros Hf. destruct fixed as [r c]. unfold _enforce_all_different_constraints. simpl.
  set (n := board_size b) in *.
  assert (Hrow : ∀ l d, (∀ col, col ∈ l → 0 ≤ col < n) →
    prunes_only n (r, c) x d
      (foldl (λ d col, if decide (col ≠ c) then discard_at d (r, col) x else d) d l)).
  { induction l as [|col l IH]; intros d Hl; simpl; [apply prunes_only_refl|].
    eapply prunes_only_trans; [|apply IH; intros; apply Hl; by right].
    case_decide; [|apply prunes_only_refl]. apply prunes_only_discard.
    - congruence.
    - by left.
    - destruct Hf. split; simpl in *; [done|]. apply Hl. by left. }
  assert (Hcol : ∀ l d, (∀ row, row ∈ l → 0 ≤ row < n) →
    prunes_only n (r, c) x d
      (foldl (λ d row, if decide (row ≠ r) then discard_at d (row, c) x else d) d l)).
  { induction l as [|row l IH]; intros d Hl; simpl; [apply prunes_only_refl|].
    eapply prunes_only_trans; [|apply IH; intros; apply Hl; by right].
    case_decide; [|apply prunes_only_refl]. apply prunes_only_discard.
    - congruence.
    - by right.
    - destruct Hf. split; simpl in *; [|done]. apply Hl. by left. }
  eapply prunes_only_trans; [apply Hrow|apply Hcol]; intros ?; apply elem_of_range.
Qed.

Lemma prune_initial_domains_spec b :
  grid_shape (board_size b) (grid b) →
  ∃ b', _prune_initial_domains b = Ok b' ∧ same_frame b b'
    ∧ pruned_by_clues (board_size b) (grid b) (domains b) (domains b').
Proof.
  intros Hs. unfold _prune_initial_domains.
  apply (foldM_total (λ b', same_frame b b'
           ∧ pruned_by_clues (board_size b) (grid b) (domains b) (domains b'))).
  - intros bi v Hv%elem_of_all_cells [(Hn & Hg & Hcs) Hpr].
    rewrite Hg, (grid_get_in_board (board_size b)) by done. simpl.
    eexists. split; [done|].
    assert (Hfr : same_frame b bi) by (by unfold same_frame).
    case_decide as Hnz; [|done]. split.
    { etrans; [done|]. by destruct v. }
    pose proof (enforce_all_different_prunes bi v (cell_value (grid b) v)) as Hen.
    rewrite Hn in Hen. specialize (Hen Hv).
    intros k D HD. destruct (Hpr _ _ HD) as (D1 & HD1 & Hs1 & Hr1).
    destruct (Hen _ _ HD1) as (D2 & HD2 & Hs2 & Hr2). exists D2.
    split_and!; [done|set_solver|]. intros y Hy Hn2.
    destruct (decide (y ∈ D1)) as [Hy1|Hy1]; [|by apply Hr1].
    destruct (Hr2 y Hy1 Hn2) as (-> & Hne & Hl & Hk). exists v. split_and!; done.
  - split; [done|]. intros k D HD. exists D. split_and!; [done..|]. by intros.
Qed.

Lemma init_domains_spec (n : Z) (g : list (list Z)) (l : list cell)
    (d : gmap cell (gset Z)) :
  (∀ v, v ∈ l → ∃ x, grid_get g v = Ok x ∧ x = cell_value g v) →
  ∃ d', foldM (λ d v, x ← grid_get g v;
                      Ok (<[v := if decide (x = 0) then full_domain n else {[x]}]> d)) d l
        = Ok d'
    ∧ ∀ v, d' !! v = if decide (v ∈ l) then Some (initial_domain n g v) else d !! v.
Proof.
  revert d. induction l as [|w l IH]; intros d Hl; simpl.
  - exists d. split; [done|]. intros v.
    destruct (decide (v ∈ [])) as [Hin|]; [by apply elem_of_nil in Hin|done].
  - destruct (Hl w) as (x & -> & ->); [by left|]. simpl.
    destruct (IH (<[w:=if decide (cell_value g w = 0) then full_domain n
                       else {[cell_value g w]}]> d)) as (d' & -> & Hd').
    { intros; apply Hl; by right. }
    exists d'. split; [done|]. intros v. rewrite Hd'.
    destruct (decide (v ∈ l)) as [Hin|Hnin].
    + destruct (decide (v ∈ w :: l)) as [|Hn]; [done|]. exfalso. apply Hn. by right.
    + destruct (decide (v = w)) as [->|Hne].
      * rewrite lookup_insert_eq.
        destruct (decide (w ∈ w :: l)) as [|Hn]; [done|]. exfalso. apply Hn. by left.
      * rewrite lookup_insert_ne by done.
        destruct (decide (v ∈ w :: l)) as [[?|?]%elem_of_cons|]; done.
Qed.

Lemma init_spec size initial_grid constraints :
  grid_shape size (default (zero_grid size) (truthy initial_grid)) →
  ∃ b d0, __init__ size initial_grid constraints = Ok b
    ∧ board_size b = size
    ∧ grid b = default (zero_grid size) (truthy initial_grid)
    ∧ inequality_constraints b = default [] (truthy constraints)
    ∧ (∀ v, in_board size v → d0 !! v = Some (initial_domain size (grid b) v))
    ∧ pruned_by_clues size (grid b) d0 (domains b).
Proof.
  intros Hs. unfold __init__. set (g := default _ _) in *.
  destruct (init_domains_spec size g (all_cells size) ∅) as (d0 & Hd0 & Hlk).
  { intros v Hv%elem_of_all_cells. eexists. split; [|done]. by apply (grid_get_in_board size). }
  rewrite Hd0. simpl.
  destruct (prune_initial_domains_spec (mkBoard size g d0 (default [] (truthy constraints))))
    as (b & Hb & (Hn & Hg & Hcs) & Hpr); [done|].
  rewrite Hb. exists b, d0. simpl in *. split_and!; [done..| |by rewrite Hg].
  intros v Hv. rewrite Hlk, Hg.
  destruct (decide (v ∈ all_cells size)) as [|Hnin]; [done|].
  exfalso. by apply Hnin, elem_of_all_cells.
Qed.

Lemma init_empty size initial_grid constraints :
  size ≤ 0 →
  __init__ size initial_grid constraints
  = Ok (mkBoard size (default (zero_grid size) (truthy initial_grid)) ∅
          (default [] (truthy constraints))).
Proof.
  intros Hle. unfold __init__, _prune_initial_domains, all_cells, range. simpl.
  by rewrite seqZ_nil.
Qed.

(** C7, as the constructor behaves. Construction performs no input validation: when
    [size <= 0], and whenever the grid in use has [size] rows of [size]
    entries (whatever the entries, and whatever cells the constraints
    reference), constructing the board succeeds and stores the size, the
    grid and the constraint list as given. *)
Theorem init_accepts_any_input (size : Z) (initial_grid : option (list (list Z)))
    (constraints : option (list constraint)) :
  size ≤ 0 ∨ grid_shape size (default (zero_grid size) (truthy initial_grid)) →
  ∃ b, __init__ size initial_grid constraints = Ok b
    ∧ board_size b = size
    ∧ grid b = default (zero_grid size) (truthy initial_grid)
    ∧ inequality_constraints b = default [] (truthy constraints).
Proof.
  intros [Hle|Hs].
  - rewrite init_empty by done. eauto.
  - destruct (init_spec size initial_grid constraints Hs) as (b & d0 & ? & ? & ? & ? & _).
    eauto.
Qed.

Lemma init_wf size initial_grid constraints b :
  __init__ size initial_grid constraints = Ok b →
  grid_shape size (grid b) →
  (∀ v, in_board size v → cell_value (grid b) v ≠ 0 → 1 ≤ cell_value (grid b) v ≤ size) →
  (∀ a c op, (a, c, op) ∈ inequality_constraints b → in_board size a ∧ in_board size c) →
  grid b = default (zero_grid size) (truthy initial_grid) →
  board_size b = size ∧ board_wf b.
Proof.
  intros Hinit Hs Hrange Hcs Hg. rewrite Hg in Hs.
  destruct (init_spec size initial_grid constraints Hs)
    as (b' & d0 & Hb' & Hn & Hg' & Hcs' & Hd0 & Hpr).
  rewrite Hinit in Hb'. simplify_eq. split; [done|]. split.
  - by rewrite Hg.
  - done.
  - intros v Hv. destruct (Hpr v _ (Hd0 v Hv)) as (D & HD & Hsub & _).
    exists D. split; [done|]. intros x Hx%Hsub. unfold initial_domain in Hx.
    case_decide as Hz.
    + by apply elem_of_full_domain.
    + apply elem_of_singleton in Hx as ->. by apply Hrange.
Qed.

Lemma init_admits size initial_grid constraints b sol :
  __init__ size initial_grid constraints = Ok b →
  grid_shape size (default (zero_grid size) (truthy initial_grid)) →
  is_solution size (inequality_constraints b) sol →
  extends size (grid b) sol →
  admits b sol.
Proof.
  intros Hinit Hs Hsol Hext.
  destruct (init_spec size initial_grid constraints Hs)
    as (b' & d0 & Hb' & Hn & Hg' & Hcs' & Hd0 & Hpr).
  rewrite Hinit in Hb'. simplify_eq.
  intros v D Hv HD. destruct (Hpr v _ (Hd0 v Hv)) as (D' & HD' & Hsub & Hgone).
  rewrite HD in HD'. simplify_eq.
  assert (Hin0 : cell_value sol v ∈ initial_domain (board_size b') (grid b') v).
  { unfold initial_domain. case_decide as Hz.
    - apply elem_of_full_domain. by eapply solution_in_range.
    - apply elem_of_singleton. by apply Hext. }
  destruct (decide (cell_value sol v ∈ D')) as [|Hn]; [done|]. exfalso.
  destruct (Hgone _ Hin0 Hn) as (w & Hw & Hne & Hl & Hgw & Hnz & _).
  destruct Hsol as (_ & Hfull & [_ Hdist _]).
  apply (Hdist w v Hw Hv Hne Hl); [by apply Hfull|].
  rewrite (Hext w Hw); congruence.
Qed.

(** The clues that a solution keeps are consistent among themselves. *)
Lemma extends_consistent n cs g sol :
  is_solution n cs sol → extends n g sol →
  (∀ a c op, (a, c, op) ∈ cs → in_board n a ∧ in_board n c) →
  consistent_grid n cs g.
Proof.
  intros (Hshape & Hfull & [Hrange Hdist Hineq]) Hext Hcs. split.
  - intros v Hv Hnz. rewrite <- (Hext v Hv Hnz). apply Hrange; [done|]. by apply Hfull.
  - intros v w Hv Hw Hne Hl Hnz Heq.
    apply (Hdist v w Hv Hw Hne Hl); [by apply Hfull|].
    rewrite (Hext v Hv Hnz), (Hext w Hw); congruence.
  - intros a c op Hk Ha Hc. destruct (Hcs _ _ _ Hk) as [Hia Hic].
    rewrite <- (Hext a Hia Ha), <- (Hext c Hic Hc). apply Hineq; [done|by apply Hfull..].
Qed.

(** ** What a reported success keeps of the clues *)

(** A complete grid that respects the rules, restricted to the cells that
    another grid has assigned, still respects them. *)
Lemma extends_keeps_violation n cs g g' :
  extends n g g' →
  (∀ a c op, (a, c, op) ∈ cs → in_board n a ∧ in_board n c) →
  complete_grid n g' → consistent_grid n cs g' → consistent_grid n cs g.
Proof.
  intros Hext Hcs Hfull [Hrange Hdist Hineq]. split.
  - intros v Hv Hnz. rewrite <- (Hext v Hv Hnz). apply Hrange; [done|]. by apply Hfull.
  - intros v w Hv Hw Hne Hl Hnz Heq.
    apply (Hdist v w Hv Hw Hne Hl); [by apply Hfull|].
    rewrite (Hext v Hv Hnz), (Hext w Hw); congruence.
  - intros a c op Hk Ha Hc. destruct (Hcs _ _ _ Hk) as [Hia Hic].
    rewrite <- (Hext a Hia Ha), <- (Hext c Hic Hc). apply Hineq; [done|by apply Hfull..].
Qed.

Section success.
Context {ord : SetOrder}.

(** [assign] on an unassigned cell of the board changes no assigned cell. *)
Lemma assign_extends b var value b1 :
  grid_shape (board_size b) (grid b) → in_board (board_size b) var →
  grid_get (grid b) var = Ok 0 →
  assign b var value = Ok b1 →
  board_size b1 = board_size b ∧ grid_shape (board_size b) (grid b1)
  ∧ extends (board_size b) (grid b) (grid b1).
Proof.
  intros Hs Hv H0 Ha. unfold assign in Ha.
  apply bind_Ok in Ha as (g1 & Hg1 & Ha). simplify_eq. simpl.
  destruct (grid_set_in_board _ _ var value Hs Hv) as (g' & Hg' & Hs' & _ & Hother).
  rewrite Hg1 in Hg'. simplify_eq. split_and!; [done..|].
  intros w Hw Hnz. apply Hother; [done|]. intros ->.
  rewrite (grid_get_in_board _ _ _ Hs Hv) in H0. by simplify_eq.
Qed.

Lemma try_values_success_extends (rec : CSPSolver → res (bool * CSPSolver)) var vals s s' :
  (∀ s1 s2, rec s1 = Ok (false, s2) → same_frame (board s1) (board s2)) →
  (∀ s1 s2, grid_shape (board_size (board s1)) (grid (board s1)) →
            rec s1 = Ok (true, s2) →
            extends (board_size (board s1)) (grid (board s1)) (grid (board s2))) →
  grid_shape (board_size (board s)) (grid (board s)) →
  in_board (board_size (board s)) var →
  grid_get (grid (board s)) var = Ok 0 →
  try_values rec var vals s = Ok (true, s') →
  extends (board_size (board s)) (grid (board s)) (grid (board s')).
Proof.
  intros Hfail Hsucc. revert s.
  induction vals as [|value rest IH]; intros s Hs Hv H0 Hr; simpl in Hr; [done|].
  apply bind_Ok in Hr as (x & _ & Hr). apply bind_Ok in Hr as (b1 & Ha & Hr).
  apply bind_Ok in Hr as (consistent & _ & Hr).
  apply bind_Ok in Hr as ([found s1] & Hstep & Hr).
  destruct (assign_extends _ _ _ _ Hs Hv H0 Ha) as (Hn1 & Hs1 & Hext1).
  destruct found.
  - simplify_eq. destruct consistent; [|done].
    apply bind_Ok in Hstep as ([ok b2] & Hinf & Hstep).
    apply infer_frame in Hinf as (Hn2 & Hg2 & _). destruct ok; [|done].
    apply Hsucc in Hstep; cbn [with_board board] in *.
    + rewrite Hn2, Hn1, Hg2 in Hstep. by eapply extends_trans.
    + by rewrite Hn2, Hn1, Hg2.
  - assert (Hfr : same_frame b1 (board s1)).
    { destruct consistent; [|by simplify_eq].
      apply bind_Ok in Hstep as ([ok b2] & Hinf & Hstep).
      apply infer_frame in Hinf. destruct ok; [|by simplify_eq].
      apply Hfail in Hstep. etrans; [done|]. done. }
    apply bind_Ok in Hr as (b3 & Hu & Hr).
    destruct (assign_unassign_grid _ _ _ _ _ H0 Ha Hfr) as (b3' & Hu' & Hn3 & Hg3 & _).
    rewrite Hu in Hu'. simplify_eq.
    apply IH in Hr; cbn [set_domains board board_size grid] in *.
    + by rewrite Hn3, Hg3 in Hr.
    + by rewrite Hn3, Hg3.
    + by rewrite Hn3.
    + by rewrite Hg3.
Qed.

Lemma backtracking_search_success_extends fuel s s' :
  grid_shape (board_size (board s)) (grid (board s)) →
  _backtracking_search fuel s = Ok (true, s') →
  extends (board_size (board s)) (grid (board s)) (grid (board s')).
Proof.
  revert s s'. induction fuel as [|fuel IH]; intros s s' Hs Hr; simpl in Hr; [done|].
  apply bind_Ok in Hr as (l & Hl & Hr).
  destruct l as [|first l]; [simplify_eq; apply extends_refl|].
  apply bind_Ok in Hr as (sel & Hsel & Hr). destruct sel as [var|]; [|done].
  assert (Hvar : in_board (board_size (board s)) var ∧ grid_get (grid (board s)) var = Ok 0).
  { destruct (use_mrv s).
    - apply select_unassigned_variable_mrv_Ok in Hsel as (l' & Hl' & Hv).
      by apply (get_unassigned_variables_Ok _ _ Hl') in Hv.
    - simplify_eq. apply (get_unassigned_variables_Ok _ _ Hl). by left. }
  destruct Hvar as [Hv H0].
  apply bind_Ok in Hr as ([vals b] & Hvals & Hr).
  assert (Hfr : same_frame (board s) b).
  { destruct (use_lcv s).
    - by eapply order_domain_values_lcv_frame.
    - apply bind_Ok in Hvals as (D & _ & Hvals). by simplify_eq. }
  destruct Hfr as (Hn & Hg & _).
  apply try_values_success_extends in Hr; cbn [with_board board] in *.
  - by rewrite Hn, Hg in Hr.
  - apply backtracking_search_failure_frame.
  - apply IH.
  - by rewrite Hn, Hg.
  - by rewrite Hn.
  - by rewrite Hg.
Qed.

(** A success of [solve] has changed no clue: the preprocessing and the
    inference steps touch only the domains, and the search writes only to
    cells that read 0. *)
Lemma solve_success_extends fuel s s' :
  grid_shape (board_size (board s)) (grid (board s)) →
  solve_fuel fuel s = Ok (true, s') →
  extends (board_size (board s)) (grid (board s)) (grid (board s')).
Proof.
  intros Hs Hr. unfold solve_fuel in Hr. cbn [use_ac2 board] in Hr. destruct (use_ac2 s).
  - apply bind_Ok in Hr as ([ok b] & Hac & Hr).
    apply ac2_frame in Hac as (Hn & Hg & _). destruct ok; [|done].
    apply backtracking_search_success_extends in Hr; cbn [with_board board] in *.
    + by rewrite Hn, Hg in Hr.
    + by rewrite Hn, Hg.
  - by apply backtracking_search_success_extends in Hr.
Qed.

(** C1. Solver soundness fails on clues that break the rules. [solve] never
    checks the assigned cells it is given against one another: the search
    returns [True] as soon as no cell reads 0, and [is_consistent] looks only
    at the cell just assigned. So on every board (size x size grid,
    constraints between cells of the board) whose clues are not consistent
    among themselves (a clue outside [1, size], two equal clues in a row or
    column, or an inequality violated between two clues), whenever [solve]
    reports success, under whatever flags and at whatever recursion depth,
    the grid it leaves is not a fully assigned grid that respects the rules. *)
Theorem solve_unsound_on_inconsistent_clues (fuel : nat) (s s' : CSPSolver) :
  grid_shape (board_size (board s)) (grid (board s)) →
  (∀ a c op, (a, c, op) ∈ inequality_constraints (board s) →
             in_board (board_size (board s)) a ∧ in_board (board_size (board s)) c) →
  ¬ consistent_grid (board_size (board s)) (inequality_constraints (board s))
      (grid (board s)) →
  solve_fuel fuel s = Ok (true, s') →
  ¬ (complete_grid (board_size (board s)) (grid (board s'))
     ∧ consistent_grid (board_size (board s)) (inequality_constraints (board s))
         (grid (board s'))).
Proof.
  intros Hs Hcs Hbad Hr [Hfull Hcon]. apply Hbad.
  eapply extends_keeps_violation; [|done..].
  by apply (solve_success_extends fuel).
Qed.

End success.

(** Where the clues are consistent the search is sound. On a well-formed
    board whose assigned cells are consistent among themselves: whenever
    [solve] reports success (at whatever recursion depth), the grid is
    size x size, every cell holds a value in [1, size], no two cells of a row
    or column hold equal values, and every inequality constraint is satisfied
    by the values of its two cells. *)
Theorem solve_sound {ord : SetOrder} (fuel : nat) (s s' : CSPSolver) :
  board_wf (board s) →
  consistent_grid (board_size (board s)) (inequality_constraints (board s)) (grid (board s)) →
  solve_fuel fuel s = Ok (true, s') →
  grid_shape (board_size (board s)) (grid (board s'))
  ∧ (∀ v, in_board (board_size (board s)) v →
          1 ≤ cell_value (grid (board s')) v ≤ board_size (board s))
  ∧ (∀ v w, in_board (board_size (board s)) v → in_board (board_size (board s)) w →
            v ≠ w → shares_line v w →
            cell_value (grid (board s')) v ≠ cell_value (grid (board s')) w)
  ∧ (∀ a c op, (a, c, op) ∈ inequality_constraints (board s) →
               op_rel op (cell_value (grid (board s')) a) (cell_value (grid (board s')) c)).
Proof.
  intros Hwf Hcon Hsolve.
  destruct (solve_spec s Hwf Hcon) as (r & s1 & Hr & Hpost).
  apply (solve_fuel_mono _ (fuel `max` search_fuel (board s))) in Hsolve; [|done|lia].
  apply (solve_fuel_mono _ (fuel `max` search_fuel (board s))) in Hr; [|done|lia].
  rewrite Hsolve in Hr. simplify_eq. simpl in Hpost.
  destruct Hpost as (_ & _ & (Hshape & Hfull & [Hrange Hdist Hineq]) & _).
  split_and!; [done|..].
  - intros v Hv. apply Hrange; [done|]. by apply Hfull.
  - intros v w Hv Hw Hne Hl. apply Hdist; [done..|]. by apply Hfull.
  - intros a c op Hk. destruct (wf_constraints _ Hwf _ _ _ Hk) as [Ha Hc].
    apply Hineq; [done|by apply Hfull..].
Qed.

(** C2. Flag-combination agreement: for every puzzle (size x size clue grid,
    constraints between cells of the board) with a unique solution [sol],
    [solve] run on the freshly constructed board under every combination of
    the four flags (and every iteration order of the sets) reports success
    and leaves [sol] as the final grid; one recursion frame per cell and one
    more are enough, and a deeper allowance gives the same outcome. *)
Theorem solve_flags_agree {ord : SetOrder} (size : Z) (initial_grid : option (list (list Z)))
    (constraints : option (list constraint)) (sol : list (list Z))
    (fc ac mrv lcv : bool) (count : Z) :
  grid_shape size (default (zero_grid size) (truthy initial_grid)) →
  (∀ a c op, (a, c, op) ∈ default [] (truthy constraints) →
             in_board size a ∧ in_board size c) →
  is_solution size (default [] (truthy constraints)) sol →
  extends size (default (zero_grid size) (truthy initial_grid)) sol →
  (∀ sol', is_solution size (default [] (truthy constraints)) sol' →
           extends size (default (zero_grid size) (truthy initial_grid)) sol' →
           sol' = sol) →
  ∃ b s', __init__ size initial_grid constraints = Ok b
    ∧ (∀ fuel, (search_fuel b ≤ fuel)%nat →
               solve_fuel fuel (mkSolver b fc ac mrv lcv count) = Ok (true, s'))
    ∧ grid (board s') = sol.
Proof.
  intros Hs Hcs Hsol Hext Huniq.
  destruct (init_spec size initial_grid constraints Hs)
    as (b & d0 & Hb & Hn & Hg & Hbcs & _ & _).
  pose proof (extends_consistent _ _ _ _ Hsol Hext Hcs) as Hcon.
  destruct (init_wf size initial_grid constraints b Hb) as [_ Hwf].
  { by rewrite Hg. }
  { rewrite Hg. apply Hcon. }
  { by rewrite Hbcs. }
  { done. }
  assert (Hadm : admits b sol).
  { eapply init_admits; [done..|by rewrite Hbcs|by rewrite Hg]. }
  destruct (solve_spec (mkSolver b fc ac mrv lcv count)) as (r & s' & Hr & Hpost); simpl.
  { done. }
  { by rewrite Hn, Hg, Hbcs. }
  unfold search_post, solved_from in Hpost. simpl in Hpost.
  rewrite Hn, Hg, Hbcs in Hpost. destruct r.
  - destruct Hpost as (_ & _ & Hsol' & Hext'). exists b, s'. split_and!; [done| |].
    + intros fuel Hfuel. by apply (solve_fuel_mono _ _ _ _ Hr).
    + by apply Huniq.
  - destruct Hpost as [_ Hno]. exfalso. by apply (Hno sol).
Qed.

(** ** The claims on concrete boards *)

(** Case analysis on a cell of a concrete board. *)
Ltac cell_cases H :=
  apply elem_of_all_cells in H; vm_compute in H;
  repeat (apply elem_of_cons in H as [->|H]); [..|by apply elem_of_nil in H].

Lemma one_clue_board_init : __init__ 2 (Some one_clue_grid) None = Ok one_clue_board.
Proof. by vm_compute. Qed.

Lemma one_clue_shape : grid_shape 2 one_clue_grid.
Proof. split; [done|]. by repeat constructor. Qed.

Lemma one_clue_solution_ok : is_solution 2 [] one_clue_solution.
Proof.
  split_and!.
  - split; [done|]. by repeat constructor.
  - intros v Hv. cell_cases Hv; by vm_compute.
  - split.
    + intros v Hv _. cell_cases Hv; by vm_compute.
    + intros v w Hv Hw Hne [Hl|Hl] _; cell_cases Hv; cell_cases Hw; by vm_compute.
    + by intros a c op ?%elem_of_nil.
Qed.

Lemma one_clue_extends : extends 2 one_clue_grid one_clue_solution.
Proof. intros v Hv Hnz. cell_cases Hv; by vm_compute. Qed.

Lemma one_clue_unique sol :
  is_solution 2 [] sol → extends 2 one_clue_grid sol → sol = one_clue_solution.
Proof.
  intros ([Hlen Hrows] & Hfull & [Hrange Hdist _]) Hext.
  destruct sol as [|[|a [|b [|]]] [|[|c [|d [|]]] [|]]]; try done;
    try (by repeat (apply Forall_cons in Hrows as [? Hrows])).
  assert (Hc : ∀ r c, 0 ≤ r < 2 → 0 ≤ c < 2 → in_board 2 (r, c)) by (by intros).
  assert (H00 : in_board 2 (0, 0)) by (apply Hc; lia).
  assert (H01 : in_board 2 (0, 1)) by (apply Hc; lia).
  assert (H10 : in_board 2 (1, 0)) by (apply Hc; lia).
  assert (H11 : in_board 2 (1, 1)) by (apply Hc; lia).
  pose proof (Hext (0, 0) H00) as Ha.
  pose proof (Hrange (0, 1) H01 (Hfull _ H01)) as Hb.
  pose proof (Hrange (1, 0) H10 (Hfull _ H10)) as Hc'.
  pose proof (Hrange (1, 1) H11 (Hfull _ H11)) as Hd.
  pose proof (Hdist (0, 0) (0, 1) H00 H01 ltac:(done) ltac:(by left) (Hfull _ H00)) as Hab.
  pose proof (Hdist (0, 0) (1, 0) H00 H10 ltac:(done) ltac:(by right) (Hfull _ H00)) as Hac.
  pose proof (Hdist (0, 1) (1, 1) H01 H11 ltac:(done) ltac:(by right) (Hfull _ H01)) as Hbd.
  unfold cell_value, one_clue_grid in *. simpl in *.
  specialize (Ha ltac:(done)). unfold one_clue_solution.
  assert (a = 1 ∧ b = 2 ∧ c = 2 ∧ d = 1) as (-> & -> & -> & ->); [lia|done].
Qed.

Lemma one_clue_board_wf : board_wf one_clue_board.
Proof.
  refine (proj2 (init_wf 2 (Some one_clue_grid) None one_clue_board one_clue_board_init
                   one_clue_shape _ _ eq_refl)).
  - intros v Hv Hnz. cell_cases Hv; by vm_compute.
  - by intros a c op ?%elem_of_nil.
Qed.

Lemma one_clue_consistent : consistent_grid 2 [] one_clue_grid.
Proof.
  refine (extends_consistent 2 [] _ _ one_clue_solution_ok one_clue_extends _).
  by intros a c op ?%elem_of_nil.
Qed.

(** [solve_sound] on the one-clue board, all flags on. *)
Lemma solve_sound_witness :
  grid_shape 2 (grid (board one_clue_final))
  ∧ (∀ v, in_board 2 v → 1 ≤ cell_value (grid (board one_clue_final)) v ≤ 2)
  ∧ (∀ v w, in_board 2 v → in_board 2 w → v ≠ w → shares_line v w →
            cell_value (grid (board one_clue_final)) v
            ≠ cell_value (grid (board one_clue_final)) w)
  ∧ (∀ a c op, (a, c, op) ∈ [] →
               op_rel op (cell_value (grid (board one_clue_final)) a)
                         (cell_value (grid (board one_clue_final)) c)).
Proof.
  apply (solve_sound (ord := sorted_order) 5 one_clue_solver one_clue_final).
  - exact one_clue_board_wf.
  - exact one_clue_consistent.
  - vm_compute. reflexivity.
Defined.

(** C1, witness: [CSPSolver(FutoshikiBoard(2, [[1,1],[1,0]])).solve()]. The
    clues hold 1 twice in the first row. With the flags off the call returns
    [True] and leaves [[1,1],[1,2]], where (0,0) and (0,1) both hold 1; with
    AC-2 on, the same board is reported unsolvable. *)
Lemma solve_unsound_on_inconsistent_clues_witness :
  solve (ord := sorted_order) three_clues_solver = Ok (true, three_clues_final)
  ∧ grid (board three_clues_final) = [[1; 1]; [1; 2]]
  ∧ cell_value (grid (board three_clues_final)) (0, 0)
    = cell_value (grid (board three_clues_final)) (0, 1)
  ∧ (∃ s', solve (ord := sorted_order) (mkSolver three_clues_board false true false false 0)
           = Ok (false, s'))
  ∧ ¬ (complete_grid 2 (grid (board three_clues_final))
       ∧ consistent_grid 2 [] (grid (board three_clues_final))).
Proof.
  split; [by vm_compute|]. split; [by vm_compute|]. split; [by vm_compute|].
  split; [eexists; vm_compute; reflexivity|].
  apply (solve_unsound_on_inconsistent_clues (ord := sorted_order) 5
           three_clues_solver three_clues_final).
  - split; [done|]. by repeat constructor.
  - by intros a c op ?%elem_of_nil.
  - intros [_ Hdist _]. by apply (Hdist (0, 0) (0, 1)); vm_compute; try lia; auto.
  - vm_compute. reflexivity.
Defined.

(** A grid given full of equal clues is reported as a success too, with all
    flags off and with all flags on, and two cells of its first row hold the
    same value. *)
Lemma solve_accepts_equal_clues :
  (∃ s', solve (ord := sorted_order) (mkSolver equal_clues_board false false false false 0)
         = Ok (true, s')
         ∧ cell_value (grid (board s')) (0, 0) = cell_value (grid (board s')) (0, 1))
  ∧ (∃ s', solve (ord := sorted_order) (mkSolver equal_clues_board true true true true 0)
           = Ok (true, s')
           ∧ cell_value (grid (board s')) (0, 0) = cell_value (grid (board s')) (0, 1)).
Proof. split; eexists; (split; [vm_compute; reflexivity|]); by vm_compute. Qed.

(** C2, witness: the one-clue puzzle, forward checking and MRV on. *)
Lemma solve_flags_agree_witness :
  ∃ b s', __init__ 2 (Some one_clue_grid) None = Ok b
    ∧ (∀ fuel, (search_fuel b ≤ fuel)%nat →
               solve_fuel (ord := sorted_order) fuel (mkSolver b true false true false 0)
               = Ok (true, s'))
    ∧ grid (board s') = one_clue_solution.
Proof.
  apply (solve_flags_agree (ord := sorted_order) 2 (Some one_clue_grid) None one_clue_solution).
  - exact one_clue_shape.
  - by intros a c op ?%elem_of_nil.
  - exact one_clue_solution_ok.
  - exact one_clue_extends.
  - exact one_clue_unique.
Defined.

(** ** What the failure path of [forward_check] leaves behind *)

Lemma restore_pruned_lookup pruned d d' k :
  restore_pruned pruned d = Ok d' → k ∉ pruned.*1 → d' !! k = d !! k.
Proof.
  unfold restore_pruned. revert d. induction pruned as [|[p vals] pruned IH]; intros d Hr Hk;
    simpl in *; [by simplify_eq|].
  apply bind_Ok in Hr as (d1 & Hd1 & Hr). apply bind_Ok in Hd1 as (D & _ & Hd1).
  simplify_eq. apply not_elem_of_cons in Hk as [Hne Hk].
  rewrite (IH _ Hr Hk). by rewrite lookup_insert_ne.
Qed.

Lemma fc_loop_failure {ord : SetOrder} b var value original_domain neighbors d pruned d' :
  fc_loop b var value original_domain neighbors d pruned = Ok (None, d') →
  NoDup neighbors → (∀ k, k ∈ pruned.*1 → k ∉ neighbors) →
  ∃ nb, nb ∈ neighbors ∧ (nb ≠ var → d' !! nb = Some ∅).
Proof.
  revert d pruned. induction neighbors as [|nb rest IH]; intros d pruned Hr Hnd Hp;
    simpl in Hr; [done|].
  apply NoDup_cons in Hnd as [Hnb Hnd].
  apply bind_Ok in Hr as (x & _ & Hr). case_decide as Hx; last first.
  { destruct (IH _ _ Hr Hnd) as (nb' & ? & ?).
    - intros k Hk Hin. apply (Hp k Hk). by right.
    - exists nb'. split; [by right|done]. }
  apply bind_Ok in Hr as (Dn & _ & Hr). case_decide as Hemp.
  - apply bind_Ok in Hr as (d'' & Hres & Hr). simplify_eq.
    exists nb. split; [by left|]. intros Hne.
    rewrite (restore_pruned_lookup _ _ _ nb Hres).
    + rewrite lookup_insert_ne by done. rewrite lookup_insert_eq. by rewrite Hemp.
    + intros Hk. apply (Hp nb Hk). by left.
  - destruct (IH _ _ Hr Hnd) as (nb' & ? & ?).
    + intros k Hk Hin. rewrite fmap_app in Hk. apply elem_of_app in Hk as [Hk|Hk].
      * apply (Hp k Hk). by right.
      * apply list_elem_of_singleton in Hk. simpl in Hk. by subst.
    + exists nb'. split; [by right|done].
Qed.

(** C3. Forward-checking failure atomicity does not hold in the code:
    whenever [forward_check] signals failure, some neighbor of [var] (other
    than [var] itself, which only an inequality of [var] with itself makes a
    neighbor) is left with an empty domain, whatever its domain was before
    the call: the values pruned from it were not yet recorded when the
    restore loop ran. *)
Theorem forward_check_failure_leaves_empty_domain {ord : SetOrder}
    (b b' : FutoshikiBoard) (var : cell) (value : Z) :
  forward_check b var value = Ok (None, b') →
  ∃ nb, nb ∈ get_neighbors b var ∧ (nb ≠ var → domains b' !! nb = Some ∅).
Proof.
  unfold forward_check. intros Hr. apply bind_Ok in Hr as (D0 & _ & Hr).
  apply bind_Ok in Hr as ([r d'] & Hloop & Hr). simplify_eq. simpl.
  eapply fc_loop_failure; [done| |by intros k ?%elem_of_nil].
  unfold get_neighbors. rewrite (iter_cells_perm _). apply NoDup_elements.
Qed.

(** C3, on the 2 x 2 board with (0,0) > (0,1), after (0,0) is assigned 1:
    [forward_check] signals failure and the domain of (0,1), which was
    {1, 2} before the call, is empty after it. *)
Lemma forward_check_failure_leaves_empty_domain_witness :
  domains greater_board !! (0, 1) = Some {[1; 2]}
  ∧ domains greater_board_after_fc !! (0, 1) = Some ∅
  ∧ ∃ nb, nb ∈ get_neighbors (ord := sorted_order) greater_board (0, 0)
          ∧ (nb ≠ (0, 0) → domains greater_board_after_fc !! nb = Some ∅).
Proof.
  split_and!; [by vm_compute..|].
  apply (forward_check_failure_leaves_empty_domain (ord := sorted_order)
           greater_board greater_board_after_fc (0, 0) 1).
  vm_compute. reflexivity.
Defined.

(** ** What [order_domain_values_lcv] leaves behind *)

Lemma lcv_fold_domains {ord : SetOrder} var l counts bi counts' b' :
  foldM (λ '(counts, b) value,
           b1 ← assign b var value;
           constraining_count ←
             foldM (λ acc neighbor, p ← lcv_neighbor_penalty b1 var value neighbor; Ok (acc + p))
                   0 (get_neighbors b1 var);
           b2 ← unassign b1 var;
           Ok (counts ++ [(value, constraining_count)], b2))
        (counts, bi) l = Ok (counts', b') →
  board_size b' = board_size bi
  ∧ (∀ w, w ≠ var → domains b' !! w = domains bi !! w)
  ∧ (l ≠ [] → domains b' !! var = Some (full_domain (board_size bi))).
Proof.
  revert counts bi. induction l as [|value l IH]; intros counts bi Hr; simpl in Hr.
  { by simplify_eq. }
  apply bind_Ok in Hr as ([counts1 b2] & Hstep & Hr).
  apply bind_Ok in Hstep as (b1 & Ha & Hstep). apply bind_Ok in Hstep as (c & _ & Hstep).
  apply bind_Ok in Hstep as (b2' & Hu & Hstep). simplify_eq.
  unfold assign in Ha. apply bind_Ok in Ha as (g1 & _ & Ha).
  unfold unassign in Hu. apply bind_Ok in Hu as (g2 & _ & Hu). simplify_eq. simpl in *.
  destruct (IH _ _ Hr) as (Hn & Hother & Hvar). simpl in *. split_and!.
  - done.
  - intros w Hw. rewrite Hother by done. by rewrite !lookup_insert_ne.
  - intros _. destruct l as [|value' l].
    + simpl in Hr. simplify_eq. simpl. by rewrite lookup_insert_eq.
    + by apply Hvar.
Qed.

(** C4. LCV does not leave the board unchanged in the code: when [var] is
    unassigned and its domain is not empty, [order_domain_values_lcv] leaves
    the grid and the domains of the other cells as they were, and leaves
    [domains[var]] at the full range {1..size}, whatever it was before the
    call. *)
Theorem lcv_resets_domain_of_var {ord : SetOrder} (var : cell) (b b' : FutoshikiBoard)
    (D : gset Z) (vals : list Z) :
  grid_get (grid b) var = Ok 0 →
  domains b !! var = Some D → D ≠ ∅ →
  order_domain_values_lcv var b = Ok (vals, b') →
  grid b' = grid b
  ∧ (∀ w, w ≠ var → domains b' !! w = domains b !! w)
  ∧ domains b' !! var = Some (full_domain (board_size b)).
Proof.
  intros H0 HD Hne Hr.
  pose proof (order_domain_values_lcv_frame _ _ _ _ H0 Hr) as (_ & Hg & _).
  split; [done|]. unfold order_domain_values_lcv, dom_get in Hr. rewrite HD in Hr.
  simpl in Hr. apply bind_Ok in Hr as ([counts b1] & Hfold & Hr). simplify_eq.
  apply lcv_fold_domains in Hfold as (_ & Hother & Hvar). split; [done|].
  apply Hvar. intros Hnil. apply Hne.
  pose proof (iter_vals_perm D) as Hp. rewrite Hnil in Hp.
  apply Permutation_nil_l in Hp. symmetry in Hp.
  by apply elements_empty_inv, leibniz_equiv in Hp.
Qed.

(** C4, on the one-clue board: the domain of (0,1) is {2} before the call and
    {1, 2} after it. *)
Lemma lcv_resets_domain_of_var_witness :
  domains one_clue_board !! (0, 1) = Some {[2]}
  ∧ domains one_clue_after_lcv !! (0, 1) = Some {[1; 2]}
  ∧ (grid one_clue_after_lcv = grid one_clue_board
     ∧ (∀ w, w ≠ (0, 1) → domains one_clue_after_lcv !! w = domains one_clue_board !! w)
     ∧ domains one_clue_after_lcv !! (0, 1) = Some (full_domain (board_size one_clue_board))).
Proof.
  split; [by vm_compute|]. split; [by vm_compute|].
  apply (lcv_resets_domain_of_var (ord := sorted_order) (0, 1) one_clue_board
           one_clue_after_lcv {[2]} [2]).
  - by vm_compute.
  - by vm_compute.
  - set_solver.
  - vm_compute. reflexivity.
Defined.

Lemma less_board_facts :
  board_size less_board = 2 ∧ inequality_constraints less_board = less_constraints.
Proof. by vm_compute. Qed.

(** C5, witness: the board with (0,0) < (0,1); after [ac2] the value 1 of
    (0,0) has the support 2 in the domain of (0,1). *)
Lemma ac2_arc_consistent_witness :
  ∃ y, y ∈ ({[2]} : gset Z)
       ∧ jointly_satisfy (inequality_constraints less_board) (0, 0) (0, 1) 1 y.
Proof.
  destruct less_board_facts as [Hn Hcs].
  apply (ac2_arc_consistent (ord := sorted_order) less_board less_board_ac2
           (0, 0) (0, 1) {[1]} {[2]} 1).
  - rewrite Hcs. intros [|i] [|j] a c op a' c' op' Hi Hj _; done.
  - vm_compute. reflexivity.
  - rewrite Hn. split; simpl; lia.
  - rewrite Hn. split; simpl; lia.
  - split; [done|]. left. by left.
  - vm_compute. reflexivity.
  - vm_compute. reflexivity.
  - by apply elem_of_singleton.
Defined.

(** C5, counterexample: with the two contradictory inequalities
    (0,0) < (0,1) and (0,0) > (0,1), [ac2] returns True and keeps 1 in the
    domain of (0,0), although no value of (0,1) satisfies both inequalities
    with it. *)
Lemma ac2_keeps_unsupported_value :
  ∃ b' Di Dj,
    ac2 (ord := sorted_order) contradictory_board = Ok (true, b')
    ∧ directly_constrained contradictory_constraints (0, 0) (0, 1)
    ∧ domains b' !! (0, 0) = Some Di ∧ domains b' !! (0, 1) = Some Dj
    ∧ 1 ∈ Di
    ∧ ¬ ∃ y, y ∈ Dj ∧ jointly_satisfy contradictory_constraints (0, 0) (0, 1) 1 y.
Proof.
  eexists _, {[1; 2]}, _. split_and!.
  - vm_compute. reflexivity.
  - split; [done|]. left. by left.
  - vm_compute. reflexivity.
  - vm_compute. reflexivity.
  - set_solver.
  - intros (y & _ & _ & Hlt & _).
    pose proof (Hlt OpLt ltac:(by left)) as H1.
    pose proof (Hlt OpGt ltac:(right; by left)) as H2. simpl in *. lia.
Qed.

(** C7, witness: a 2 x 2 grid with the clue 7 and a constraint on the cell
    (5,5). *)
Lemma init_accepts_any_input_witness :
  ∃ b, __init__ 2 (Some [[7; 0]; [0; 0]]) (Some [((5, 5), (0, 0), OpLt)]) = Ok b
    ∧ board_size b = 2
    ∧ grid b = [[7; 0]; [0; 0]]
    ∧ inequality_constraints b = [((5, 5), (0, 0), OpLt)].
Proof.
  apply (init_accepts_any_input 2 (Some [[7; 0]; [0; 0]]) (Some [((5, 5), (0, 0), OpLt)])).
  right. split; [done|]. by repeat constructor.
Defined.

(** C7, counterexample: size 0, a negative size, a clue out of range and a
    constraint on a cell outside the board are all accepted. *)
Lemma init_accepts_malformed_input :
  __init__ 0 None None = Ok (mkBoard 0 [] ∅ [])
  ∧ __init__ (-3) None None = Ok (mkBoard (-3) [] ∅ [])
  ∧ (∃ b, __init__ 2 (Some [[7; 0]; [0; 0]]) None = Ok b
          ∧ cell_value (grid b) (0, 0) = 7 ∧ domains b !! (0, 0) = Some {[7]})
  ∧ (∃ b, __init__ 2 None (Some [((5, 5), (0, 0), OpLt)]) = Ok b
          ∧ inequality_constraints b = [((5, 5), (0, 0), OpLt)]).
Proof. split_and!; [by vm_compute..| |]; eexists; split_and!; by vm_compute. Qed.

(** C8, witness: cell (0,1) of the one-clue board, value 2. *)
Lemma assign_unassign_round_trip_witness :
  ∃ b2 D, (b1 ← assign one_clue_board (0, 1) 2; unassign b1 (0, 1)) = Ok b2
    ∧ cell_value (grid b2) (0, 1) = 0
    ∧ domains b2 !! (0, 1) = Some D
    ∧ (∀ x, x ∈ D ↔ 1 ≤ x ≤ board_size one_clue_board)
    ∧ (∀ w, in_board (board_size one_clue_board) w → w ≠ (0, 1) →
            cell_value (grid b2) w = cell_value (grid one_clue_board) w)
    ∧ (∀ w, w ≠ (0, 1) → domains b2 !! w = domains one_clue_board !! w).
Proof.
  apply (assign_unassign_round_trip one_clue_board (0, 1) 2).
  - apply one_clue_board_wf.
  - split; simpl; lia.
Defined.

(** C10, witness: two equal clues in a row; the search fails and the grid is
    the clue grid again. *)
Lemma failed_search_restores_grid_witness :
  grid (board clash_final) = grid (board clash_solver).
Proof.
  apply (failed_search_restores_grid (ord := sorted_order) 5 clash_solver clash_final).
  right. vm_compute. reflexivity.
Defined.

(** * Further properties of the code *)

(** ** The constructor's domains *)

Lemma foldl_discard_lookup (f : Z → cell) (skip x : Z) (l : list Z)
    (d : gmap cell (gset Z)) (k : cell) :
  foldl (λ d i, if decide (i ≠ skip) then discard_at d (f i) x else d) d l !! k
  = if decide (Exists (λ i, i ≠ skip ∧ f i = k) l)
    then (λ D, D ∖ {[x]}) <$> d !! k else d !! k.
Proof.
  revert d. induction l as [|i l IH]; intros d; simpl; [done|].
  rewrite IH. clear IH.
  assert (He : Exists (λ i0, i0 ≠ skip ∧ f i0 = k) (i :: l)
               ↔ (i ≠ skip ∧ f i = k) ∨ Exists (λ i0, i0 ≠ skip ∧ f i0 = k) l)
    by apply Exists_cons.
  destruct (decide (i ≠ skip)) as [Hi|Hi].
  - rewrite discard_at_lookup. destruct (decide (k = f i)) as [->|Hk].
    + rewrite (decide_True (P := Exists _ (i :: l))) by (apply He; by left).
      case_decide; [|done]. destruct (d !! f i) as [D|]; simpl; [|done].
      f_equal. set_solver.
    + repeat case_decide; try done; exfalso; naive_solver.
  - repeat case_decide; try done; exfalso; naive_solver.
Qed.

Lemma enforce_domains_lookup b fixed x k :
  domains (_enforce_all_different_constraints b fixed x) !! k
  = if decide (line_mate (board_size b) fixed k)
    then (λ D, D ∖ {[x]}) <$> domains b !! k else domains b !! k.
Proof.
  destruct fixed as [r c]. unfold _enforce_all_different_constraints. simpl.
  rewrite (foldl_discard_lookup (λ row, (row, c)) r),
          (foldl_discard_lookup (λ col, (r, col)) c).
  unfold line_mate. simpl. destruct k as [kr kc]. simpl.
  assert (H1 : Exists (λ i, i ≠ r ∧ (i, c) = (kr, kc)) (range (board_size b))
               ↔ kc = c ∧ kr ≠ r ∧ 0 ≤ kr < board_size b).
  { rewrite Exists_exists. setoid_rewrite elem_of_range. split.
    - intros (i & ? & ? & ?). by simplify_eq.
    - intros (-> & ? & ?). by exists kr. }
  assert (H2 : Exists (λ i, i ≠ c ∧ (r, i) = (kr, kc)) (range (board_size b))
               ↔ kr = r ∧ kc ≠ c ∧ 0 ≤ kc < board_size b).
  { rewrite Exists_exists. setoid_rewrite elem_of_range. split.
    - intros (i & ? & ? & ?). by simplify_eq.
    - intros (-> & ? & ?). by exists kc. }
  repeat case_decide; try done; exfalso; tauto.
Qed.

Lemma elem_of_snoc {A} (l : list A) (x y : A) : y ∈ l ++ [x] ↔ y ∈ l ∨ y = x.
Proof. rewrite elem_of_app, list_elem_of_singleton. done. Qed.

(** [_prune_initial_domains], cell by cell: after the cells of [seen] the
    domain of [k] has lost the clues of its line among them. *)
Lemma prune_fold_exact (n : Z) (g : list (list Z)) (cs : list constraint)
    (l : list cell) (d0 d : gmap cell (gset Z)) (seen : list cell) :
  grid_shape n g → (∀ v, v ∈ l → in_board n v) →
  (∀ k, match d0 !! k with
        | Some D => ∃ D', d !! k = Some D'
                          ∧ ∀ y, y ∈ D' ↔ y ∈ D ∧ ¬ ∃ w, w ∈ seen ∧ clue_on_line n g w k y
        | None => d !! k = None
        end) →
  ∃ b', foldM (λ b v, x ← grid_get (grid b) v;
                      Ok (if decide (x ≠ 0) then _enforce_all_different_constraints b v x else b))
              (mkBoard n g d cs) l = Ok b'
    ∧ board_size b' = n ∧ grid b' = g ∧ inequality_constraints b' = cs
    ∧ ∀ k, match d0 !! k with
           | Some D => ∃ D', domains b' !! k = Some D'
                             ∧ ∀ y, y ∈ D' ↔ y ∈ D ∧ ¬ ∃ w, w ∈ seen ++ l ∧ clue_on_line n g w k y
           | None => domains b' !! k = None
           end.
Proof.
  intros Hs. revert d seen. induction l as [|v l IH]; intros d seen Hl Hinv; simpl.
  - eexists. split; [done|]. split_and!; [done..|]. by rewrite app_nil_r.
  - rewrite (grid_get_in_board n) by (done || apply Hl; by left). simpl.
    set (b1 := if decide (cell_value g v ≠ 0) then _ else _).
    assert (Hb1 : b1 = mkBoard n g (domains b1) cs).
    { unfold b1. case_decide; [|done].
      unfold _enforce_all_different_constraints. by destruct v. }
    rewrite Hb1. destruct (IH (domains b1) (seen ++ [v])) as (b' & Hb' & ? & ? & ? & Hfin).
    { intros; apply Hl; by right. }
    { intros k. specialize (Hinv k). destruct (d0 !! k) as [D|] eqn:E.
      - destruct Hinv as (D' & HD' & HyD'). unfold b1. case_decide as Hnz.
        + rewrite enforce_domains_lookup. simpl. case_decide as Hm.
          * rewrite HD'. simpl. eexists. split; [done|]. intros y.
            rewrite elem_of_difference, HyD', elem_of_singleton. split.
            -- intros [[? Hno] Hne]. split; [done|].
               intros (w & [?| ->]%elem_of_snoc & Hc); [naive_solver|].
               destruct Hc as (? & _). congruence.
            -- intros [? Hno]. split_and!; [done| |].
               ++ intros (w & ? & ?). apply Hno. exists w. split; [|done].
                  apply elem_of_snoc. by left.
               ++ intros ->. apply Hno. exists v. split; [|done].
                  apply elem_of_snoc. by right.
          * rewrite HD'. eexists. split; [done|]. intros y. rewrite HyD'. split.
            -- intros [? Hno]. split; [done|].
               intros (w & [?| ->]%elem_of_snoc & Hc); [naive_solver|].
               by destruct Hc as (_ & _ & ?).
            -- intros [? Hno]. split; [done|]. intros (w & ? & ?). apply Hno.
               exists w. split; [|done]. apply elem_of_snoc. by left.
        + simpl. rewrite HD'. eexists. split; [done|]. intros y. rewrite HyD'. split.
          * intros [? Hno]. split; [done|].
            intros (w & [?| ->]%elem_of_snoc & Hc); [naive_solver|].
            destruct Hc as (? & ? & _). congruence.
          * intros [? Hno]. split; [done|]. intros (w & ? & ?). apply Hno.
            exists w. split; [|done]. apply elem_of_snoc. by left.
      - unfold b1. case_decide; [|done]. rewrite enforce_domains_lookup. simpl.
        case_decide; by rewrite Hinv. }
    exists b'. split; [done|]. split_and!; [done..|].
    intros k. specialize (Hfin k). by rewrite <- (assoc_L (++)) in Hfin.
Qed.

Lemma line_mate_in_board n w k :
  in_board n k → line_mate n w k ↔ shares_line w k ∧ w ≠ k.
Proof.
  intros [??]. unfold line_mate, shares_line. destruct w as [wr wc], k as [kr kc]. simpl in *.
  split.
  - intros [(-> & ? & _)|(-> & ? & _)]; (split; [auto|congruence]).
  - intros [[->| ->] Hne]; [left|right]; (split_and!; [done| |lia..]); congruence.
Qed.

(** X1. The domains the constructor computes, on a grid of [size] rows of
    [size] entries: exactly the cells of the board get a domain; the domain
    of an empty cell is [1..size] without the clues of its row and column,
    and the domain of a clue cell is the clue alone, or nothing when the same
    clue stands elsewhere in its row or column. *)
Theorem init_domains_exact (size : Z) (initial_grid : option (list (list Z)))
    (constraints : option (list constraint)) :
  grid_shape size (default (zero_grid size) (truthy initial_grid)) →
  ∃ b, __init__ size initial_grid constraints = Ok b
    ∧ grid b = default (zero_grid size) (truthy initial_grid)
    ∧ (∀ v, ¬ in_board size v → domains b !! v = None)
    ∧ ∀ v, in_board size v →
        ∃ D, domains b !! v = Some D
          ∧ ∀ y, y ∈ D ↔
              (if decide (cell_value (grid b) v = 0) then 1 ≤ y ≤ size
               else y = cell_value (grid b) v)
              ∧ ∀ w, in_board size w → w ≠ v → shares_line w v → cell_value (grid b) w ≠ y.
Proof.
  intros Hs. unfold __init__. set (g := default _ _) in *.
  destruct (init_domains_spec size g (all_cells size) ∅) as (d0 & Hd0 & Hlk).
  { intros v Hv%elem_of_all_cells. eexists. split; [|done]. by apply (grid_get_in_board size). }
  rewrite Hd0. simpl. unfold _prune_initial_domains. simpl.
  destruct (prune_fold_exact size g (default [] (truthy constraints)) (all_cells size) d0 d0 [])
    as (b & Hb & Hn & Hg & Hcs & Hfin); [done| | |].
  { intros v. by rewrite elem_of_all_cells. }
  { intros k. destruct (d0 !! k) as [D|]; [|done]. exists D. split; [done|].
    intros y. split; [|by intros [? _]]. intros ?. split; [done|].
    by intros (w & []%elem_of_nil & _). }
  exists b. split; [done|]. split; [done|]. rewrite Hg. split.
  - intros v Hv. specialize (Hfin v). rewrite Hlk in Hfin.
    rewrite decide_False in Hfin by by rewrite elem_of_all_cells.
    by rewrite lookup_empty in Hfin.
  - intros v Hv. specialize (Hfin v). rewrite Hlk in Hfin.
    rewrite decide_True in Hfin by by rewrite elem_of_all_cells.
    destruct Hfin as (D & HD & HyD). exists D. split; [done|]. intros y. rewrite HyD.
    unfold initial_domain. simpl.
    assert (Hnz : (y ∈ (if decide (cell_value g v = 0) then full_domain size
                        else {[cell_value g v]} : gset Z))
                  ↔ (if decide (cell_value g v = 0) then 1 ≤ y ≤ size else y = cell_value g v)).
    { case_decide; [apply elem_of_full_domain|apply elem_of_singleton]. }
    rewrite Hnz. split.
    + intros [Hy Hno]. split; [done|]. intros w Hw Hne Hl Heq. apply Hno. exists w.
      split; [by apply elem_of_all_cells|]. split_and!; [done| |].
      * case_decide; [lia|congruence].
      * apply line_mate_in_board; done.
    + intros [Hy Hno]. split; [done|]. intros (w & Hw%elem_of_all_cells & Hgw & Hy0 & Hm).
      apply line_mate_in_board in Hm as [Hl Hne]; [|done]. by apply (Hno w).
Qed.

(** X2. [_enforce_all_different_constraints] removes the fixed value from the
    domain of every other cell of the fixed cell's row and column, and
    changes nothing else: the fixed cell's own domain, the domains off the
    two lines, the grid, the size and the constraints are as before, and a
    cell without a domain still has none. *)
Theorem enforce_all_different_effect (b : FutoshikiBoard) (fixed_var : cell)
    (fixed_value : Z) (k : cell) :
  let b' := _enforce_all_different_constraints b fixed_var fixed_value in
  same_frame b b'
  ∧ domains b' !! k =
      if decide (line_mate (board_size b) fixed_var k)
      then (λ D, D ∖ {[fixed_value]}) <$> domains b !! k
      else domains b !! k.
Proof.
  simpl. split; [|apply enforce_domains_lookup].
  unfold _enforce_all_different_constraints. destruct fixed_var. apply same_frame_set_domains.
Qed.

(** ** The unassigned cells *)

Lemma StronglySorted_seqZ m n : StronglySorted Z.lt (seqZ m n).
Proof.
  destruct (decide (n ≤ 0)) as [Hn|Hn]; [rewrite seqZ_nil by done; constructor|].
  rewrite <- (Z2Nat.id n) by lia. generalize (Z.to_nat n) as k. clear. intros k. revert m.
  induction k as [|k IH]; intros m; [constructor|].
  rewrite seqZ_cons by lia. replace (Z.pred (Z.of_nat (S k))) with (Z.of_nat k) by lia.
  constructor; [apply IH|]. apply Forall_forall. intros x Hx%elem_of_seqZ. lia.
Qed.

Lemma StronglySorted_filter {A} (R : relation A) (P : A → Prop) `{!∀ x, Decision (P x)} l :
  StronglySorted R l → StronglySorted R (filter P l).
Proof.
  induction 1 as [|x l Hl IH Hx]; [constructor|].
  rewrite filter_cons. case_decide; [|done]. constructor; [done|].
  apply Forall_forall. intros y [_ Hy]%list_elem_of_filter.
  rewrite Forall_forall in Hx. by apply Hx.
Qed.

Lemma StronglySorted_all_cells n : StronglySorted row_major (all_cells n).
Proof.
  unfold all_cells, range.
  assert (H : ∀ l, StronglySorted Z.lt l →
              StronglySorted row_major (r ← l; c ← seqZ 0 n; [(r, c)])).
  { induction 1 as [|r l Hl IH Hr]; [constructor|]. simpl.
    apply StronglySorted_app_2; [| |done].
    - intros [r1 c1] [r2 c2] H1 H2.
      apply list_elem_of_bind in H1 as (c & ->%list_elem_of_singleton & _).
      apply list_elem_of_bind in H2 as (r' & H2 & Hr').
      apply list_elem_of_bind in H2 as (c' & ->%list_elem_of_singleton & _).
      left. simpl. rewrite Forall_forall in Hr. by apply Hr.
    - generalize (StronglySorted_seqZ 0 n). generalize (seqZ 0 n).
      induction 1 as [|c l' Hl' IH' Hc]; [constructor|]. simpl. constructor; [done|].
      apply Forall_forall. intros [r2 c2] H2.
      apply list_elem_of_bind in H2 as (c' & ->%list_elem_of_singleton & Hc').
      right. simpl. split; [done|]. rewrite Forall_forall in Hc. by apply Hc. }
  apply H, StronglySorted_seqZ.
Qed.

(** X4. On a grid of [size] rows of [size] entries,
    [get_unassigned_variables] returns exactly the cells of the board that
    hold 0, each once, in row-major order. *)
Theorem get_unassigned_variables_spec (b : FutoshikiBoard) :
  grid_shape (board_size b) (grid b) →
  ∃ l, get_unassigned_variables b = Ok l
    ∧ (∀ v, v ∈ l ↔ in_board (board_size b) v ∧ cell_value (grid b) v = 0)
    ∧ StronglySorted row_major l.
Proof.
  intros Hs. unfold get_unassigned_variables.
  rewrite (filterM_pure _ (λ v, cell_value (grid b) v = 0)).
  - eexists. split; [done|]. split.
    + intros v. by rewrite list_elem_of_filter, elem_of_all_cells, (comm (∧)).
    + apply StronglySorted_filter, StronglySorted_all_cells.
  - intros v Hv%elem_of_all_cells. by rewrite (grid_get_in_board (board_size b)).
Qed.

(** ** The consistency check after an assignment *)

(** X5. [is_consistent] is the incremental check the search relies on: on a
    board whose assigned cells are consistent, after [assign(var, value)]
    with a value of [1..size], [is_consistent(var, value)] returns True
    exactly when the assigned cells of the new grid are still consistent. *)
Theorem is_consistent_incremental (b b1 : FutoshikiBoard) (var : cell) (value : Z) :
  grid_shape (board_size b) (grid b) →
  (∀ a c op, (a, c, op) ∈ inequality_constraints b →
             in_board (board_size b) a ∧ in_board (board_size b) c) →
  consistent_grid (board_size b) (inequality_constraints b) (grid b) →
  in_board (board_size b) var → 1 ≤ value ≤ board_size b →
  assign b var value = Ok b1 →
  ∃ ok, is_consistent b1 var value = Ok ok
    ∧ (ok = true ↔ consistent_grid (board_size b) (inequality_constraints b) (grid b1)).
Proof.
  intros Hs Hcs Hcon Hvar Hval Ha.
  destruct (grid_set_in_board _ _ var value Hs Hvar) as (g1 & Hg1 & Hs1 & Hv1 & Ho1).
  unfold assign in Ha. rewrite Hg1 in Ha. simpl in Ha. injection Ha as <-.
  set (b1 := mkBoard _ _ _ _).
  destruct (is_consistent_wf b1 Hs1 Hcs var value Hvar) as (ok & Hok & Hiff).
  exists ok. split; [done|]. rewrite Hiff. simpl. split.
  - intros [Hline Hviol]. by eapply is_consistent_sound.
  - intros [Hrange Hdist Hineq]. split.
    + intros w Hw Hne Hl Heq. apply (Hdist var w); [done..| |congruence]. lia.
    + intros [[a c] op] Hk. apply violates_false_iff. split_and!.
      * intros -> Hc0. rewrite <- Hv1. apply Hineq; [done| |done]. lia.
      * intros _ -> Ha0. rewrite <- Hv1. apply Hineq; [done..|]. lia.
      * intros _ _ Ha0 Hc0. by apply Hineq.
Qed.

(** ** Neighbors *)

Lemma elem_of_ineq_neighbors_linked cs var v :
  v ∈ ineq_neighbors cs var ↔ linked cs var v.
Proof.
  rewrite elem_of_ineq_neighbors. unfold linked. split.
  - intros (v1 & v2 & op & Hk & [[-> ->]|(_ & -> & ->)]); exists op; eauto.
  - intros (op & [Hk|Hk]).
    + exists var, v, op. split; [done|]. by left.
    + destruct (decide (v = var)) as [->|Hne].
      * exists var, var, op. split; [done|]. by left.
      * exists v, var, op. split; [done|]. by right.
Qed.

Lemma elem_of_get_neighbors_line {ord : SetOrder} b var v :
  v ∈ get_neighbors b var ↔
  line_mate (board_size b) var v ∨ linked (inequality_constraints b) var v.
Proof.
  rewrite elem_of_get_neighbors, elem_of_neighbor_set, elem_of_ineq_neighbors_linked.
  unfold line_mate. tauto.
Qed.

(** X6. [get_neighbors(var)] lists, each once, the other cells of var's row
    and column (column and row indices within [0, size)) and the cells that
    an inequality constraint links to [var], in either direction. *)
Theorem get_neighbors_spec {ord : SetOrder} (b : FutoshikiBoard) (var : cell) :
  NoDup (get_neighbors b var)
  ∧ ∀ v, v ∈ get_neighbors b var ↔
         line_mate (board_size b) var v ∨ linked (inequality_constraints b) var v.
Proof.
  split; [|apply elem_of_get_neighbors_line].
  unfold get_neighbors. rewrite (iter_cells_perm _). apply NoDup_elements.
Qed.

(** X7. Being a neighbor is symmetric between cells of the board. *)
Theorem get_neighbors_symmetric {ord : SetOrder} (b : FutoshikiBoard) (v w : cell) :
  in_board (board_size b) v → in_board (board_size b) w →
  w ∈ get_neighbors b v ↔ v ∈ get_neighbors b w.
Proof.
  intros Hv Hw. rewrite !elem_of_get_neighbors_line, !line_mate_in_board by done.
  split; (intros [[Hl Hne]|Hk]; [left; split; [by apply shares_line_sym|done]
                               |right; by apply linked_sym]).
Qed.

Lemma filter_ne_notin (l : list Z) (c : Z) : c ∉ l → filter (λ x, x ≠ c) l = l.
Proof.
  induction l as [|x l IH]; [done|]. intros [Hne Hl]%not_elem_of_cons.
  rewrite filter_cons_True by done. by rewrite IH.
Qed.

Lemma length_filter_ne (l : list Z) (c : Z) :
  NoDup l → c ∈ l → S (length (filter (λ x, x ≠ c) l)) = length l.
Proof.
  induction 1 as [|x l Hx Hl IH]; [by intros ?%elem_of_nil|].
  intros [->|Hc]%elem_of_cons.
  - rewrite filter_cons_False by naive_solver. by rewrite filter_ne_notin.
  - rewrite filter_cons_True by (intros ->; done). simpl. by rewrite IH.
Qed.

(** X8. Without inequality constraints a cell of the board has exactly
    [2 * (size - 1)] neighbors, and is not one of them. *)
Theorem get_neighbors_count {ord : SetOrder} (b : FutoshikiBoard) (var : cell) :
  inequality_constraints b = [] → in_board (board_size b) var →
  Z.of_nat (length (get_neighbors b var)) = 2 * (board_size b - 1)
  ∧ var ∉ get_neighbors b var.
Proof.
  intros Hcs [Hr Hc]. split.
  - unfold get_neighbors. rewrite (iter_cells_perm _).
    change (length (elements ?X)) with (size X).
    unfold neighbor_set. destruct var as [r c]. simpl in *. rewrite Hcs.
    unfold ineq_neighbors. simpl. rewrite (right_id_L ∅ (∪)). rewrite size_union.
    + rewrite !size_list_to_set.
      * rewrite !length_fmap.
        pose proof (length_filter_ne (range (board_size b)) c (NoDup_seqZ _ _)) as H1.
        pose proof (length_filter_ne (range (board_size b)) r (NoDup_seqZ _ _)) as H2.
        rewrite elem_of_range in H1, H2. specialize (H1 Hc). specialize (H2 Hr).
        unfold range in *. rewrite length_seqZ in H1, H2. lia.
      * apply NoDup_fmap_2; [intros ?? [=]; done|]. apply NoDup_filter, NoDup_seqZ.
      * apply NoDup_fmap_2; [intros ?? [=]; done|]. apply NoDup_filter, NoDup_seqZ.
    + intros [r' c'] H1 H2. rewrite elem_of_list_to_set, list_elem_of_fmap in H1, H2.
      destruct H1 as (col & [= -> ->] & [? _]%list_elem_of_filter).
      destruct H2 as (row & [= -> ->] & [? _]%list_elem_of_filter). done.
  - intros H%elem_of_get_neighbors%neighbor_set_self. destruct H as [op Hk].
    rewrite Hcs in Hk. by apply elem_of_nil in Hk.
Qed.

(** ** Assignment: indices and composition *)

Lemma py_index_mod len i :
  - len ≤ i < len → py_index len i = Some (Z.to_nat (i mod len)).
Proof.
  intros Hi. unfold py_index. case_bool_decide as H1.
  - by rewrite Z.mod_small.
  - rewrite bool_decide_eq_true_2 by lia. f_equal. f_equal.
    rewrite <- (Z.mod_add i 1 len) by lia. rewrite Z.mod_small; lia.
Qed.

Lemma py_index_out len i : ¬ (- len ≤ i < len) → py_index len i = None.
Proof. intros Hi. unfold py_index. by rewrite !bool_decide_eq_false_2 by lia. Qed.

Lemma py_index_mod_idemp len i :
  - len ≤ i < len → py_index len (i mod len) = py_index len i.
Proof.
  intros Hi. rewrite (py_index_mod len i) by done.
  rewrite py_index_in_range by (apply Z.mod_pos_bound; lia). done.
Qed.

Lemma grid_set_mod n g v x :
  grid_shape n g → - n ≤ v.1 < n → - n ≤ v.2 < n →
  grid_set g v x = grid_set g (v.1 mod n, v.2 mod n) x.
Proof.
  intros [Hlen Hrows] H1 H2. unfold grid_set, list_get, list_set. simpl.
  assert (Hn : Z.of_nat (length g) = n) by lia. rewrite Hn.
  rewrite (py_index_mod_idemp n v.1) by done.
  destruct (py_index n v.1) as [k|]; [|done].
  destruct (g !! k) as [row|] eqn:Hrow; [|done]. simpl.
  assert (Hl : Z.of_nat (length row) = n).
  { rewrite Forall_forall in Hrows. rewrite (Hrows row); [lia|].
    by eapply list_elem_of_lookup_2. }
  rewrite Hl. rewrite (py_index_mod_idemp n v.2) by done. done.
Qed.

Lemma grid_set_out n g v x :
  grid_shape n g → ¬ (- n ≤ v.1 < n ∧ - n ≤ v.2 < n) → grid_set g v x = Raise IndexError.
Proof.
  intros [Hlen Hrows] Hout. unfold grid_set, list_get, list_set.
  destruct (py_index (Z.of_nat (length g)) v.1) as [k|] eqn:Hk; [|done].
  destruct (g !! k) as [row|] eqn:Hrow; [|done]. simpl.
  assert (Hl : length row = Z.to_nat n).
  { rewrite Forall_forall in Hrows. apply Hrows. by eapply list_elem_of_lookup_2. }
  rewrite py_index_out; [done|]. intros H2. apply Hout. split; [|lia].
  apply lookup_lt_Some in Hrow.
  destruct (decide (- n ≤ v.1 < n)) as [|H1]; [done|].
  rewrite py_index_out in Hk by lia. done.
Qed.

(** X9. [assign] indexes the grid the way Python does, on a grid of [size]
    rows of [size] entries: with both indices in [-size, size) it writes the
    cell [(r mod size, c mod size)] and nothing else of the grid, and files
    the singleton domain under the key [var] exactly as given (so a negative
    index creates a key that is not a cell of the board); with any other
    index it raises IndexError. *)
Theorem assign_python_index (b : FutoshikiBoard) (var : cell) (value : Z) :
  grid_shape (board_size b) (grid b) →
  (- board_size b ≤ var.1 < board_size b ∧ - board_size b ≤ var.2 < board_size b →
   ∃ b1, assign b var value = Ok b1
     ∧ cell_value (grid b1) (var.1 mod board_size b, var.2 mod board_size b) = value
     ∧ (∀ w, in_board (board_size b) w →
             w ≠ (var.1 mod board_size b, var.2 mod board_size b) →
             cell_value (grid b1) w = cell_value (grid b) w)
     ∧ domains b1 = <[var := {[value]}]> (domains b))
  ∧ (¬ (- board_size b ≤ var.1 < board_size b ∧ - board_size b ≤ var.2 < board_size b) →
     assign b var value = Raise IndexError).
Proof.
  intros Hs. split.
  - intros [H1 H2].
    assert (Hv : in_board (board_size b) (var.1 mod board_size b, var.2 mod board_size b)).
    { split; simpl; apply Z.mod_pos_bound; lia. }
    destruct (grid_set_in_board _ _ _ value Hs Hv) as (g1 & Hg1 & _ & Hv1 & Ho1).
    unfold assign. rewrite (grid_set_mod (board_size b)), Hg1 by done. simpl.
    eexists. split; [done|]. done.
  - intros Hout. unfold assign. by rewrite (grid_set_out (board_size b)).
Qed.

Lemma grid_set_twice g v x y : (g1 ← grid_set g v x; grid_set g1 v y) = grid_set g v y.
Proof.
  unfold grid_set, list_get, list_set.
  destruct (py_index (Z.of_nat (length g)) v.1) as [k|] eqn:Hk; [|done].
  destruct (g !! k) as [row|] eqn:Hrow; [|done]. simpl.
  destruct (py_index (Z.of_nat (length row)) v.2) as [m|] eqn:Hm; [|done]. simpl.
  rewrite !length_insert, Hk. rewrite list_lookup_insert_eq by by eapply lookup_lt_Some.
  simpl. rewrite !length_insert, Hm. simpl.
  by rewrite !list_insert_insert_eq.
Qed.

Lemma assign_twice b var v1 v2 :
  (b1 ← assign b var v1; assign b1 var v2) = assign b var v2.
Proof.
  unfold assign. pose proof (grid_set_twice (grid b) var v1 v2) as H.
  destruct (grid_set (grid b) var v1) as [g1| |] eqn:E1; simpl in *.
  - rewrite H. destruct (grid_set (grid b) var v2); simpl; [|done..].
    by rewrite insert_insert_eq.
  - by rewrite <- H.
  - by rewrite <- H.
Qed.

Lemma assign_after_unassign b var v :
  (b1 ← unassign b var; assign b1 var v) = assign b var v.
Proof.
  unfold assign, unassign. pose proof (grid_set_twice (grid b) var 0 v) as H.
  destruct (grid_set (grid b) var 0) as [g1| |] eqn:E1; simpl in *.
  - rewrite H. destruct (grid_set (grid b) var v); simpl; [|done..].
    by rewrite insert_insert_eq.
  - by rewrite <- H.
  - by rewrite <- H.
Qed.

(** X10. An assignment overwrites what was there: assigning a cell twice, or
    assigning it after [unassign], gives the board of the last assignment
    alone, and raises exactly when that assignment alone does. *)
Theorem assign_overwrites (b : FutoshikiBoard) (var : cell) (v1 v2 : Z) :
  (b1 ← assign b var v1; assign b1 var v2) = assign b var v2
  ∧ (b1 ← unassign b var; assign b1 var v2) = assign b var v2.
Proof. split; [apply assign_twice|apply assign_after_unassign]. Qed.

Lemma grid_ext n g1 g2 :
  grid_shape n g1 → grid_shape n g2 →
  (∀ v, in_board n v → cell_value g1 v = cell_value g2 v) → g1 = g2.
Proof.
  intros Hs1 Hs2 Hv. apply list_eq. intros i.
  destruct (decide (i < Z.to_nat n)%nat) as [Hi|Hi]; last first.
  { destruct Hs1 as [H1 _], Hs2 as [H2 _].
    rewrite !lookup_ge_None_2 by lia. done. }
  assert (Hin : ∀ j, (j < Z.to_nat n)%nat → in_board n (Z.of_nat i, Z.of_nat j)).
  { intros j Hj. split; simpl; lia. }
  destruct (lookup_lt_is_Some_2 g1 i) as [r1 Hr1]; [destruct Hs1; lia|].
  destruct (lookup_lt_is_Some_2 g2 i) as [r2 Hr2]; [destruct Hs2; lia|].
  rewrite Hr1, Hr2. f_equal. apply list_eq. intros j.
  assert (Hl1 : length r1 = Z.to_nat n).
  { destruct Hs1 as [_ H]. rewrite Forall_forall in H. apply H. by eapply list_elem_of_lookup_2. }
  assert (Hl2 : length r2 = Z.to_nat n).
  { destruct Hs2 as [_ H]. rewrite Forall_forall in H. apply H. by eapply list_elem_of_lookup_2. }
  destruct (decide (j < Z.to_nat n)%nat) as [Hj|Hj]; last first.
  { rewrite !lookup_ge_None_2 by lia. done. }
  destruct (lookup_lt_is_Some_2 r1 j) as [x1 Hx1]; [lia|].
  destruct (lookup_lt_is_Some_2 r2 j) as [x2 Hx2]; [lia|].
  specialize (Hv _ (Hin j Hj)). unfold cell_value in Hv. simpl in Hv.
  rewrite !Nat2Z.id, Hr1, Hr2 in Hv. simpl in Hv. rewrite Hx1, Hx2 in Hv. simpl in Hv.
  by rewrite Hx1, Hx2, Hv.
Qed.

(** X11. Assignments to two different cells of the board commute: either
    order gives the same grid and the same domains. *)
Theorem assign_commutes (b : FutoshikiBoard) (v w : cell) (x y : Z) :
  grid_shape (board_size b) (grid b) →
  in_board (board_size b) v → in_board (board_size b) w → v ≠ w →
  (b1 ← assign b v x; assign b1 w y) = (b1 ← assign b w y; assign b1 v x)
  ∧ ∃ b2, (b1 ← assign b v x; assign b1 w y) = Ok b2.
Proof.
  intros Hs Hv Hw Hne.
  destruct (grid_set_in_board _ _ v x Hs Hv) as (g1 & Hg1 & Hs1 & Hv1 & Ho1).
  destruct (grid_set_in_board _ _ w y Hs1 Hw) as (g2 & Hg2 & Hs2 & Hv2 & Ho2).
  destruct (grid_set_in_board _ _ w y Hs Hw) as (g1' & Hg1' & Hs1' & Hv1' & Ho1').
  destruct (grid_set_in_board _ _ v x Hs1' Hv) as (g2' & Hg2' & Hs2' & Hv2' & Ho2').
  unfold assign. rewrite Hg1, Hg1'. simpl. rewrite Hg2, Hg2'. simpl.
  split; [|eauto]. f_equal. f_equal.
  - apply (grid_ext (board_size b)); [done..|]. intros u Hu.
    destruct (decide (u = w)) as [->|Huw].
    + rewrite Hv2, Ho2' by done. done.
    + rewrite Ho2 by done. destruct (decide (u = v)) as [->|Huv].
      * by rewrite Hv1, Hv2'.
      * rewrite Ho1, Ho2', Ho1' by done. done.
  - by apply insert_insert_ne.
Qed.

(** ** The constructor on a grid that is too short *)

Lemma foldM_Raise {A S} (e : exn) (f : S → A → res S) (l : list A) (s : S) (x : A) :
  x ∈ l → (∀ s, f s x = Raise e) →
  (∀ s y, y ∈ l → f s y = Raise e ∨ ∃ s', f s y = Ok s') →
  foldM f s l = Raise e.
Proof.
  revert s. induction l as [|y l IH]; intros s Hx Hfx Hf; [by apply elem_of_nil in Hx|].
  simpl. destruct (Hf s y) as [->|[s' Hs']]; [by left|done|].
  rewrite Hs'. simpl. apply elem_of_cons in Hx as [->|Hx].
  - rewrite Hfx in Hs'. done.
  - apply IH; [done..|]. intros; apply Hf. by right.
Qed.

Lemma grid_get_Ok_or_IndexError g v :
  grid_get g v = Raise IndexError ∨ ∃ x, grid_get g v = Ok x.
Proof.
  unfold grid_get, list_get.
  destruct (py_index _ v.1) as [k|]; [|by left].
  destruct (g !! k) as [row|]; [|by left]. simpl.
  destruct (py_index _ v.2) as [m|]; [|by left].
  destruct (row !! m); [right; eauto|by left].
Qed.

(** X3. A clue grid with fewer rows than [size] is not accepted: the
    constructor raises IndexError while it reads the grid. *)
Theorem init_short_grid_raises (size : Z) (g : list (list Z))
    (constraints : option (list constraint)) :
  g ≠ [] → Z.of_nat (length g) < size →
  __init__ size (Some g) constraints = Raise IndexError.
Proof.
  intros Hg Hlen. unfold __init__.
  assert (Ht : truthy (Some g) = Some g) by (by destruct g).
  rewrite Ht. simpl.
  rewrite (foldM_Raise IndexError _ _ _ (Z.of_nat (length g), 0)); [done| | |].
  - apply elem_of_all_cells. split; simpl; lia.
  - intros d. unfold grid_get, list_get. simpl. rewrite py_index_out by lia. done.
  - intros d v _. destruct (grid_get_Ok_or_IndexError g v) as [->|[x ->]]; [by left|].
    right. simpl. eauto.
Qed.

(** ** [display] *)







(** ** Forward checking: what a call does to the domains *)

Lemma restore_pruned_insert pruned d d' k X :
  restore_pruned pruned d = Ok d' → k ∉ pruned.*1 →
  restore_pruned pruned (<[k := X]> d) = Ok (<[k := X]> d').
Proof.
  unfold restore_pruned. revert d. induction pruned as [|[p vals] pruned IH]; intros d Hr Hk;
    simpl in *; [by simplify_eq|].
  apply not_elem_of_cons in Hk as [Hne Hk].
  apply bind_Ok in Hr as (d1 & Hd1 & Hr). apply bind_Ok in Hd1 as (D & HD & Hd1).
  simplify_eq. unfold dom_get in *. rewrite lookup_insert_ne by done.
  destruct (d !! p) as [D'|] eqn:E; [|done]. simplify_eq. simpl.
  rewrite insert_insert_ne by done. by apply IH.
Qed.

Lemma restore_pruned_snoc pruned x d :
  restore_pruned (pruned ++ [x]) d
  = d1 ← restore_pruned pruned d; D ← dom_get d1 x.1; Ok (<[x.1 := D ∪ x.2]> d1).
Proof.
  unfold restore_pruned. revert d. induction pruned as [|[p vals] pruned IH]; intros d; simpl.
  - destruct x as [k P]. simpl. by destruct (dom_get d k).
  - destruct (dom_get d p); simpl; [|done..]. apply IH.
Qed.

Section forward_check_effect.
Context {ord : SetOrder}.
Context (b : FutoshikiBoard) (var : cell) (value : Z) (original_domain : gset Z).
Let cs := inequality_constraints b.

(** The values of [D] that survive the inner loop of [forward_check]. *)
Lemma fc_keep_spec nb (D : gset Z) y :
  y ∈ foldl (λ D val_n, if fc_discards cs var value nb val_n then D ∖ {[val_n]} else D)
            D (iter_vals D)
  ↔ y ∈ D ∧ fc_discards cs var value nb y = false.
Proof.
  rewrite foldl_discard, (iter_vals_perm _), elem_of_elements.
  destruct (fc_discards cs var value nb y); naive_solver.
Qed.

Lemma fc_loop_restore neighbors d pruned pruned' d' dv :
  fc_loop b var value original_domain neighbors d pruned = Ok (Some pruned', d') →
  NoDup neighbors → var ∉ neighbors →
  (∀ k, k ∈ pruned.*1 → k ∉ neighbors ∧ k ≠ var) →
  restore_pruned pruned d = Ok dv →
  restore_pruned pruned' d' = Ok (<[var := original_domain]> dv).
Proof.
  revert d pruned. induction neighbors as [|nb rest IH]; intros d pruned Hr Hnd Hvar Hp Hdv;
    simpl in Hr.
  - simplify_eq. apply restore_pruned_insert; [done|]. intros Hk. by apply Hp in Hk as [_ ?].
  - apply NoDup_cons in Hnd as [Hnb Hnd]. apply not_elem_of_cons in Hvar as [Hne Hvar].
    apply bind_Ok in Hr as (x & _ & Hr). case_decide as Hx; last first.
    { apply (IH _ _ Hr); [done..| |done]. intros k Hk. destruct (Hp k Hk) as [Hn ?].
      split; [|done]. intros ?. apply Hn. by right. }
    apply bind_Ok in Hr as (Dn & HDn & Hr). fold cs in Hr.
    set (Dn' := foldl _ Dn (iter_vals Dn)) in *. case_decide as Hemp.
    { apply bind_Ok in Hr as (? & _ & ?). simplify_eq. }
    assert (Hnbp : nb ∉ pruned.*1).
    { intros Hk. apply Hp in Hk as [Hk _]. apply Hk. by left. }
    unfold dom_get in HDn. destruct (d !! nb) as [Dn0|] eqn:Ed; [|done]. simplify_eq.
    apply (IH _ _ Hr); [done..| |].
    + intros k. rewrite fmap_app, elem_of_app. simpl. rewrite list_elem_of_singleton.
      intros [Hk| ->]; [|done]. destruct (Hp k Hk) as [Hn ?]. split; [|done].
      intros ?. apply Hn. by right.
    + rewrite restore_pruned_snoc. simpl.
      rewrite (restore_pruned_insert _ _ _ _ _ Hdv Hnbp). simpl.
      unfold dom_get. rewrite lookup_insert_eq. simpl. f_equal.
      rewrite insert_insert_eq. apply insert_id.
      rewrite (restore_pruned_lookup _ _ _ nb Hdv Hnbp), Ed. f_equal.
      apply set_eq. intros y. rewrite elem_of_union, elem_of_difference.
      unfold Dn'. rewrite fc_keep_spec.
      destruct (fc_discards cs var value nb y); naive_solver.
Qed.

Lemma fc_loop_effect neighbors d pruned r d' :
  fc_loop b var value original_domain neighbors d pruned = Ok (r, d') →
  NoDup neighbors → var ∉ neighbors →
  match r with
  | Some _ =>
      d' !! var = Some original_domain
      ∧ (∀ k D, k ∈ neighbors → grid_get (grid b) k = Ok 0 → d !! k = Some D →
           ∃ D', d' !! k = Some D'
                 ∧ ∀ y, y ∈ D' ↔ y ∈ D ∧ fc_discards cs var value k y = false)
      ∧ (∀ k, k ≠ var → ¬ (k ∈ neighbors ∧ grid_get (grid b) k = Ok 0) → d' !! k = d !! k)
  | None =>
      ∃ nb D, nb ∈ neighbors ∧ grid_get (grid b) nb = Ok 0 ∧ d !! nb = Some D
              ∧ ∀ y, y ∈ D → fc_discards cs var value nb y = true
  end.
Proof.
  revert d pruned. induction neighbors as [|nb rest IH]; intros d pruned Hr Hnd Hvar;
    simpl in Hr.
  - simplify_eq. split_and!.
    + by rewrite lookup_insert_eq.
    + by intros k D ?%elem_of_nil.
    + intros k Hk _. by rewrite lookup_insert_ne.
  - apply NoDup_cons in Hnd as [Hnb Hnd]. apply not_elem_of_cons in Hvar as [Hne Hvar].
    apply bind_Ok in Hr as (x & Hx & Hr). case_decide as Hx0; last first.
    { specialize (IH _ _ Hr Hnd Hvar). destruct r as [p|].
      - destruct IH as (Hv & Hin & Hout). split_and!; [done| |].
        + intros k D [->|Hk]%elem_of_cons Hg HD; [congruence|]. by apply Hin.
        + intros k Hk Hn. apply Hout; [done|]. intros [??]. apply Hn. split; [by right|done].
      - destruct IH as (nb' & D & ? & ? & ? & ?). exists nb', D. split_and!; [by right|done..]. }
    subst x. apply bind_Ok in Hr as (Dn & HDn & Hr). fold cs in Hr.
    unfold dom_get in HDn. destruct (d !! nb) as [Dn0|] eqn:Ed; [|done]. simplify_eq.
    set (Dn' := foldl _ Dn (iter_vals Dn)) in *. case_decide as Hemp.
    { apply bind_Ok in Hr as (? & _ & ?). simplify_eq. exists nb, Dn.
      split_and!; [by left|done..|]. intros y Hy.
      destruct (fc_discards cs var value nb y) eqn:E; [done|]. exfalso.
      assert (Hin : y ∈ (∅ : gset Z)) by (rewrite <- Hemp; by apply fc_keep_spec).
      by apply not_elem_of_empty in Hin. }
    specialize (IH _ _ Hr Hnd Hvar). destruct r as [p|].
    + destruct IH as (Hv & Hin & Hout). split_and!; [done| |].
      * intros k D [->|Hk]%elem_of_cons Hg HD.
        -- simplify_eq. exists Dn'. split.
           ++ rewrite Hout; [by rewrite lookup_insert_eq|congruence|]. by intros [? _].
           ++ intros y. unfold Dn'. apply fc_keep_spec.
        -- apply Hin; [done..|]. rewrite lookup_insert_ne; [done|]. by intros ->.
      * intros k Hk Hn. rewrite Hout; [|done|].
        -- rewrite lookup_insert_ne; [done|]. intros ->. apply Hn. split; [by left|done].
        -- intros [??]. apply Hn. split; [by right|done].
    + destruct IH as (nb' & D & Hin & ? & HD & ?). exists nb', D.
      split_and!; [by right|done| |done].
      rewrite lookup_insert_ne in HD; [done|]. by intros ->.
Qed.

End forward_check_effect.

Lemma first_link_None cs var nb :
  first_link cs var nb = None → ¬ linked cs var nb.
Proof.
  induction cs as [|[[v1 v2] op] cs IH]; simpl.
  - intros _ (op & [[]%elem_of_nil|[]%elem_of_nil]).
  - case_bool_decide as H1; [done|]. case_bool_decide as H2; [done|]. simpl.
    intros Hn (op' & [Hk|Hk]).
    + apply elem_of_cons in Hk as [[= <- <- <-]|Hk]; [by apply H1|].
      apply (IH Hn). exists op'. by left.
    + apply elem_of_cons in Hk as [[= <- <- <-]|Hk]; [by apply H2|].
      apply (IH Hn). exists op'. by right.
Qed.

Lemma single_inequality_unique cs a c op a' c' op' :
  single_inequality_per_pair cs →
  (a, c, op) ∈ cs → (a', c', op') ∈ cs →
  (a = a' ∧ c = c') ∨ (a = c' ∧ c = a') → (a, c, op) = (a', c', op').
Proof.
  intros Hs [i Hi]%list_elem_of_lookup [j Hj]%list_elem_of_lookup Hp.
  assert (i = j) by (eapply Hs; done). subst. congruence.
Qed.

(** With one inequality per pair, the values [forward_check] keeps for a
    neighbor are those compatible with the assignment. *)
Lemma fc_discards_jointly cs var nb value y :
  single_inequality_per_pair cs → var ≠ nb →
  fc_discards cs var value nb y = false ↔ jointly_satisfy cs var nb value y.
Proof.
  intros Hs Hne. unfold fc_discards, jointly_satisfy.
  rewrite orb_false_iff, andb_false_iff, bool_decide_eq_false.
  assert (Hline : (y ≠ value ∨ same_line var nb = false) ↔ (shares_line var nb → value ≠ y)).
  { rewrite <- same_line_spec. destruct (same_line var nb); split; try done.
    - intros [?|?] _; [congruence|done].
    - intros H. left. intros ->. by apply H.
    - by right. }
  rewrite Hline. clear Hline.
  destruct (first_link cs var nb) as [[[v1 v2] op]|] eqn:Efl.
  - apply first_link_Some in Efl as [Hin [op' [?|[? ?]]]]; simplify_eq.
    + rewrite bool_decide_eq_true_2 by done. rewrite negb_false_iff, op_holds_spec.
      split.
      * intros [? Hop]. split_and!; [done| |].
        -- intros o Ho. assert ((var, nb, o) = (var, nb, op')) as [= ->]; [|done].
           eapply single_inequality_unique; eauto.
        -- intros o Ho. exfalso.
           assert (Heq : (nb, var, o) = (var, nb, op'))
             by (eapply single_inequality_unique; eauto).
           congruence.
      * intros (? & H1 & _). split; [done|]. by apply H1.
    + rewrite bool_decide_eq_false_2 by (intros [? ?]; congruence).
      rewrite negb_false_iff, op_holds_spec. split.
      * intros [? Hop]. split_and!; [done| |].
        -- intros o Ho. exfalso.
           assert (Heq : (var, nb, o) = (nb, var, op'))
             by (eapply single_inequality_unique; eauto).
           congruence.
        -- intros o Ho. assert ((nb, var, o) = (nb, var, op')) as [= ->]; [|done].
           eapply single_inequality_unique; eauto.
      * intros (? & _ & H2). split; [done|]. by apply H2.
  - apply first_link_None in Efl. split.
    + intros [? _]. split_and!; [done|..]; intros o Ho; exfalso; apply Efl; exists o; eauto.
    + intros (? & _). done.
Qed.

Lemma no_self_neighbor {ord : SetOrder} b var :
  (∀ op, (var, var, op) ∉ inequality_constraints b) → var ∉ get_neighbors b var.
Proof.
  intros Hn Hv%elem_of_get_neighbors%neighbor_set_self. destruct Hv as [op ?]. by eapply Hn.
Qed.

Lemma NoDup_get_neighbors {ord : SetOrder} b var : NoDup (get_neighbors b var).
Proof. unfold get_neighbors. rewrite (iter_cells_perm _). apply NoDup_elements. Qed.

(** X14. The values a successful [forward_check] returns as pruned are what
    it removed: putting them back with the restore loop of the function
    ([domains[p_var].update(p_vals)] for each entry) gives every domain its
    content from before the call. *)
Theorem forward_check_restore {ord : SetOrder} (b b' : FutoshikiBoard) (var : cell)
    (value : Z) (pruned : list (cell * gset Z)) :
  (∀ op, (var, var, op) ∉ inequality_constraints b) →
  forward_check b var value = Ok (Some pruned, b') →
  restore_pruned pruned (domains b') = Ok (domains b).
Proof.
  intros Hself Hfc. unfold forward_check in Hfc.
  apply bind_Ok in Hfc as (D0 & HD0 & Hfc). apply bind_Ok in Hfc as ([r d] & Hloop & Hfc).
  simplify_eq. simpl.
  rewrite (fc_loop_restore b var value D0 _ _ _ _ _ (<[var:={[value]}]> (domains b)) Hloop).
  - rewrite insert_insert_eq. f_equal. apply insert_id.
    unfold dom_get in HD0. destruct (domains b !! var); by simplify_eq.
  - apply NoDup_get_neighbors.
  - by apply no_self_neighbor.
  - by intros k ?%elem_of_nil.
  - done.
Qed.

(** X15. What a successful [forward_check] leaves, when at most one inequality
    links any pair of cells: the domain of each unassigned neighbor of
    [var] keeps exactly the values compatible with [var = value] (different
    from it on a shared line, and in the right order for the inequality),
    and every other domain, that of [var] included, is as before. *)
Theorem forward_check_success_effect {ord : SetOrder} (b b' : FutoshikiBoard)
    (var : cell) (value : Z) (pruned : list (cell * gset Z)) :
  single_inequality_per_pair (inequality_constraints b) →
  (∀ op, (var, var, op) ∉ inequality_constraints b) →
  forward_check b var value = Ok (Some pruned, b') →
  (∀ nb D, nb ∈ get_neighbors b var → grid_get (grid b) nb = Ok 0 →
           domains b !! nb = Some D →
           ∃ D', domains b' !! nb = Some D'
                 ∧ ∀ y, y ∈ D' ↔
                        y ∈ D ∧ jointly_satisfy (inequality_constraints b) var nb value y)
  ∧ (∀ k, ¬ (k ∈ get_neighbors b var ∧ grid_get (grid b) k = Ok 0) →
          domains b' !! k = domains b !! k).
Proof.
  intros Hs Hself Hfc. unfold forward_check in Hfc.
  apply bind_Ok in Hfc as (D0 & HD0 & Hfc). apply bind_Ok in Hfc as ([r d] & Hloop & Hfc).
  simplify_eq. simpl.
  unfold dom_get in HD0. destruct (domains b !! var) as [D0'|] eqn:E0; simplify_eq.
  pose proof (no_self_neighbor b var Hself) as Hnv.
  destruct (fc_loop_effect b var value D0 _ _ _ _ _ Hloop (NoDup_get_neighbors b var) Hnv)
    as (Hv & Hin & Hout).
  split.
  - intros nb D Hnb Hg HD. assert (Hne : var ≠ nb) by (by intros ->).
    destruct (Hin nb D Hnb Hg) as (D' & HD' & Hy); [by rewrite lookup_insert_ne|].
    exists D'. split; [done|]. intros y. by rewrite Hy, fc_discards_jointly.
  - intros k Hk. destruct (decide (k = var)) as [->|Hne]; [congruence|].
    rewrite Hout by done. by rewrite lookup_insert_ne.
Qed.

(** X16. Why [forward_check] fails, when at most one inequality links any
    pair of cells: some unassigned neighbor of [var] has no value in its
    domain that is compatible with [var = value]. *)
Theorem forward_check_failure_reason {ord : SetOrder} (b b' : FutoshikiBoard)
    (var : cell) (value : Z) :
  single_inequality_per_pair (inequality_constraints b) →
  (∀ op, (var, var, op) ∉ inequality_constraints b) →
  forward_check b var value = Ok (None, b') →
  ∃ nb D, nb ∈ get_neighbors b var ∧ grid_get (grid b) nb = Ok 0
          ∧ domains b !! nb = Some D
          ∧ ∀ y, y ∈ D → ¬ jointly_satisfy (inequality_constraints b) var nb value y.
Proof.
  intros Hs Hself Hfc. unfold forward_check in Hfc.
  apply bind_Ok in Hfc as (D0 & HD0 & Hfc). apply bind_Ok in Hfc as ([r d] & Hloop & Hfc).
  simplify_eq.
  pose proof (no_self_neighbor b var Hself) as Hnv.
  destruct (fc_loop_effect b var value D0 _ _ _ _ _ Hloop (NoDup_get_neighbors b var) Hnv)
    as (nb & D & Hnb & Hg & HD & Hall).
  assert (Hne : var ≠ nb) by (by intros ->).
  rewrite lookup_insert_ne in HD by done.
  exists nb, D. split_and!; [done..|]. intros y Hy Hj.
  apply (fc_discards_jointly _ _ _ _ _ Hs Hne) in Hj. rewrite (Hall y Hy) in Hj. done.
Qed.

(** X17. Forward checking is safe on a well-formed board: it never raises,
    and when some solution has [value] at [var] and fits the current
    domains, the call succeeds and the solution still fits the domains it
    leaves. *)
Theorem forward_check_keeps_solutions {ord : SetOrder} (b : FutoshikiBoard) (var : cell)
    (value : Z) :
  board_wf b → in_board (board_size b) var → 1 ≤ value ≤ board_size b →
  ∃ r b', forward_check b var value = Ok (r, b')
    ∧ grid b' = grid b
    ∧ ∀ sol, is_solution (board_size b) (inequality_constraints b) sol →
             cell_value sol var = value → admits b sol →
             is_Some r ∧ admits b' sol.
Proof.
  intros Hwf Hvar Hval.
  destruct (forward_check_wf b var value Hwf Hvar Hval) as (r & b' & Hr & _ & Hfr & Hsol).
  exists r, b'. split; [done|]. split; [apply Hfr|done].
Qed.

(** ** [revise] *)

Lemma filterM_Ok_all {A} (p : A → res bool) l r :
  filterM p l = Ok r → ∀ x, x ∈ l → ∃ b, p x = Ok b.
Proof.
  revert r. induction l as [|y l IH]; simpl; intros r Hr x Hx; [by apply elem_of_nil in Hx|].
  apply bind_Ok in Hr as (b & Hb & Hr). apply bind_Ok in Hr as (r' & Hr' & _).
  apply elem_of_cons in Hx as [->|Hx]; eauto.
Qed.

Lemma filterM_none {A} (p : A → res bool) l :
  (∀ x, x ∈ l → p x = Ok false) → filterM p l = Ok [].
Proof.
  induction l as [|y l IH]; simpl; intros Hp; [done|].
  rewrite (Hp y) by by left. simpl. rewrite IH; [done|]. intros; apply Hp; by right.
Qed.

Lemma filterM_Raise_head {A} (p : A → res bool) l e :
  l ≠ [] → (∀ x, p x = Raise e) → filterM p l = Raise e.
Proof. destruct l as [|y l]; [done|]. intros _ Hp. simpl. by rewrite Hp. Qed.

Section revise_exactness.
Context {ord : SetOrder}.

Lemma iter_vals_empty : iter_vals ∅ = [].
Proof.
  apply Permutation_nil_r. rewrite (iter_vals_perm ∅). by rewrite elements_empty.
Qed.

Lemma iter_vals_nil D : iter_vals D = [] → D = ∅.
Proof.
  intros H. apply set_eq. intros x. rewrite <- elem_of_iter_vals, H. set_solver.
Qed.

Lemma revise_exact b xi xj revised b' :
  revise b xi xj = Ok (revised, b') →
  ∃ Di Di', domains b !! xi = Some Di
    ∧ b' = (if revised then set_domains b (<[xi := Di']> (domains b)) else b)
    ∧ (revised = true ↔ Di' ≠ Di)
    ∧ ∀ x, x ∈ Di' ↔
           x ∈ Di ∧ ∃ Dj, domains b !! xj = Some Dj
             ∧ consistent_found (inequality_constraints b) xi xj x (iter_vals Dj) = true.
Proof.
  unfold revise. intros Hr. apply bind_Ok in Hr as (Di & HDi & Hr).
  apply bind_Ok in Hr as (rm & Hrm & Hr).
  unfold dom_get in HDi. destruct (domains b !! xi) as [Di0|] eqn:EDi; [|done].
  simplify_eq.
  assert (Hall : ∀ x, x ∈ Di → ∃ Dj, domains b !! xj = Some Dj).
  { intros x Hx%elem_of_iter_vals. destruct (filterM_Ok_all _ _ _ Hrm x Hx) as [c Hc].
    unfold dom_get in Hc. destruct (domains b !! xj); [eauto|done]. }
  assert (Hspec : ∀ x, x ∈ rm ↔ x ∈ Di ∧ ∃ Dj, domains b !! xj = Some Dj
             ∧ consistent_found (inequality_constraints b) xi xj x (iter_vals Dj) = false).
  { intros x. rewrite (filterM_Ok _ _ _ Hrm), elem_of_iter_vals.
    unfold dom_get. destruct (domains b !! xj) as [Dj|]; simpl.
    - split.
      + intros [? Hc]. split; [done|]. exists Dj. split; [done|].
        injection Hc as Hc. by apply negb_true_iff.
      + intros [? (Dj' & ? & Hc)]. simplify_eq. by rewrite Hc.
    - split; [by intros [_ ?]|]. by intros [_ (? & ? & _)]. }
  exists Di, (Di ∖ list_to_set rm). split; [done|].
  assert (Hmem : ∀ x, x ∈ Di ∖ list_to_set rm ↔
            x ∈ Di ∧ ∃ Dj, domains b !! xj = Some Dj
              ∧ consistent_found (inequality_constraints b) xi xj x (iter_vals Dj) = true).
  { intros x. rewrite elem_of_difference, elem_of_list_to_set, Hspec. split.
    - intros [Hx Hn]. split; [done|]. destruct (Hall x Hx) as [Dj HDj]. exists Dj.
      split; [done|]. destruct (consistent_found _ _ _ _ _) eqn:E; [done|].
      exfalso. apply Hn. eauto.
    - intros [Hx (Dj & HDj & Hc)]. split; [done|]. intros [_ (Dj' & ? & Hc')].
      simplify_eq. congruence. }
  destruct rm as [|x0 rm]; simplify_eq.
  - split_and!; [done| |done]. split; [done|]. intros Hn. exfalso. apply Hn.
    apply set_eq. intros x. rewrite elem_of_difference, elem_of_list_to_set. set_solver.
  - split_and!; [done| |done]. split; [|done]. intros _ Heq.
    assert (Hx0 : x0 ∈ Di) by (apply (Hspec x0); by left).
    rewrite <- Heq in Hx0. apply elem_of_difference in Hx0 as [_ Hx0].
    apply Hx0. rewrite elem_of_list_to_set. by left.
Qed.

End revise_exactness.

(** X18. What [revise(xi, xj)] does, for two different cells: it replaces the
    domain of [xi] by its values that have a support in the domain of [xj]
    (a value different from it on a shared line, and in the order one of the
    inequalities between the two cells asks), touches nothing else, and
    returns True exactly when a value was removed. *)
Theorem revise_effect {ord : SetOrder} (b b' : FutoshikiBoard) (xi xj : cell)
    (revised : bool) :
  xi ≠ xj → revise b xi xj = Ok (revised, b') →
  ∃ Di Di', domains b !! xi = Some Di
    ∧ domains b' = <[xi := Di']> (domains b)
    ∧ same_frame b b'
    ∧ (∀ x, x ∈ Di' ↔
            x ∈ Di ∧ ∃ Dj y, domains b !! xj = Some Dj ∧ y ∈ Dj
                             ∧ supports (inequality_constraints b) xi xj x y)
    ∧ (revised = true ↔ Di' ≠ Di).
Proof.
  intros Hne Hr. pose proof (revise_frame _ _ _ _ _ Hr) as Hfr.
  destruct (revise_exact _ _ _ _ _ Hr) as (Di & Di' & HDi & Hb' & Hrev & Hmem).
  exists Di, Di'. split_and!; [done| |done| |done].
  - destruct revised; subst b'; [done|].
    destruct (decide (Di' = Di)) as [->|Hd]; [by rewrite insert_id|].
    by apply Hrev in Hd.
  - intros x. rewrite Hmem. split.
    + intros [Hx (Dj & HDj & Hc)]. split; [done|].
      apply consistent_found_spec in Hc as (y & Hy%elem_of_iter_vals & Hs); [|done].
      by exists Dj, y.
    + intros [Hx (Dj & y & HDj & Hy & Hs)]. split; [done|]. exists Dj. split; [done|].
      apply consistent_found_spec; [done|]. exists y. by rewrite elem_of_iter_vals.
Qed.

(** X19. When [revise] raises: KeyError if [xi] has no domain, or if [xi] has
    a non-empty domain and [xj] has none; with an empty domain at [xi] it
    returns False without looking at [xj]; with both domains present it
    returns. *)
Theorem revise_key_errors {ord : SetOrder} (b : FutoshikiBoard) (xi xj : cell) :
  (domains b !! xi = None → revise b xi xj = Raise KeyError)
  ∧ (domains b !! xi = Some ∅ → revise b xi xj = Ok (false, b))
  ∧ (∀ Di, domains b !! xi = Some Di → Di ≠ ∅ → domains b !! xj = None →
           revise b xi xj = Raise KeyError)
  ∧ (is_Some (domains b !! xi) → is_Some (domains b !! xj) →
     ∃ revised b', revise b xi xj = Ok (revised, b')).
Proof.
  unfold revise, dom_get. split_and!.
  - by intros ->.
  - intros ->. simpl. by rewrite iter_vals_empty.
  - intros Di -> Hne Hj. simpl. rewrite (filterM_Raise_head _ _ KeyError); [done| |].
    + intros H%iter_vals_nil. done.
    + intros x. by rewrite Hj.
  - intros [Di ->] [Dj ->]. simpl.
    match goal with |- context [filterM ?p ?l] =>
      destruct (filterM_total p l) as [rm Hrm]; [intros; simpl; eauto|rewrite Hrm] end.
    simpl. destruct rm; eauto.
Qed.

(** X20. [revise] is idempotent on two different cells: revising the same
    arc again removes nothing and returns False. *)
Theorem revise_idempotent {ord : SetOrder} (b b' : FutoshikiBoard) (xi xj : cell)
    (revised : bool) :
  xi ≠ xj → revise b xi xj = Ok (revised, b') → revise b' xi xj = Ok (false, b').
Proof.
  intros Hne Hr.
  destruct (revise_exact _ _ _ _ _ Hr) as (Di & Di' & HDi & Hb' & Hrev & Hmem).
  assert (H' : ∃ D, domains b' !! xi = Some D
             ∧ domains b' !! xj = domains b !! xj
             ∧ inequality_constraints b' = inequality_constraints b
             ∧ ∀ x, x ∈ D → x ∈ Di').
  { destruct revised; subst b'; simpl.
    - exists Di'. rewrite lookup_insert_eq, lookup_insert_ne by done. done.
    - exists Di. split_and!; [done..|]. intros x Hx.
      destruct (decide (Di' = Di)) as [->|Hd]; [done|]. by apply Hrev in Hd. }
  destruct H' as (D & HD & Hj & Hcs & Hsub).
  unfold revise, dom_get. rewrite HD. simpl. rewrite filterM_none; [done|].
  intros x Hx%elem_of_iter_vals%Hsub%Hmem. destruct Hx as [_ (Dj & HDj & Hc)].
  rewrite Hj, HDj, Hcs. simpl. by rewrite Hc.
Qed.

(** ** [ac2] *)

(** X21. Arc consistency is safe on a well-formed board: [ac2] returns
    without raising, leaves the grid alone, only removes values from
    domains, and keeps every solution that fits the domains; so it answers
    False only when no solution fits them. *)
Theorem ac2_keeps_solutions {ord : SetOrder} (b : FutoshikiBoard) :
  board_wf b →
  ∃ r b', ac2 b = Ok (r, b')
    ∧ same_frame b b' ∧ shrinks b b'
    ∧ ∀ sol, is_solution (board_size b) (inequality_constraints b) sol →
             admits b sol → r = true ∧ admits b' sol.
Proof.
  intros Hwf. destruct (ac2_wf b Hwf) as (r & b' & Hr & _ & Hfr & Hsh & Hsol).
  by exists r, b'.
Qed.

Lemma ac2_loop_false {ord : SetOrder} fuel b q b' :
  ac2_loop fuel b q = Ok (false, b') → ∃ xi, domains b' !! xi = Some ∅.
Proof.
  revert b q. induction fuel as [|fuel IH]; intros b [|[xi xj] q] Hr; simpl in Hr;
    try done.
  apply bind_Ok in Hr as ([revised b1] & Hrev & Hr). destruct revised.
  - apply bind_Ok in Hr as (Di & HDi & Hr). case_decide as Hemp.
    + simplify_eq. exists xi. unfold dom_get in HDi.
      destruct (domains b' !! xi); by simplify_eq.
    + by eapply IH.
  - by eapply IH.
Qed.

(** X22. [ac2] answers False only with an emptied domain in hand: the board
    it leaves has a cell whose domain is empty. *)
Theorem ac2_false_empty_domain {ord : SetOrder} (b b' : FutoshikiBoard) :
  ac2 b = Ok (false, b') → ∃ xi, domains b' !! xi = Some ∅.
Proof. apply ac2_loop_false. Qed.

(** X23. After [ac2] has answered True on a well-formed board, either every
    cell of the board has an empty domain or none has: if the domain of one
    cell holds a value, so does the domain of any other. *)
Theorem ac2_true_no_empty_domain {ord : SetOrder} (b b' : FutoshikiBoard)
    (v w : cell) (Dv Dw : gset Z) (x : Z) :
  board_wf b → ac2 b = Ok (true, b') →
  in_board (board_size b) v → in_board (board_size b) w →
  domains b' !! v = Some Dv → domains b' !! w = Some Dw →
  x ∈ Dv → ∃ y, y ∈ Dw.
Proof.
  intros Hwf Hr Hv Hw HDv HDw Hx.
  destruct (ac2_wf b Hwf) as (r & b1 & Hr1 & Hwf' & (Hn & _ & Hcs) & _).
  rewrite Hr in Hr1. simplify_eq.
  assert (Hstep : ∀ a c Da Dc, in_board (board_size b) a → in_board (board_size b) c →
            a ≠ c → shares_line a c →
            domains b1 !! a = Some Da → domains b1 !! c = Some Dc →
            (∃ z, z ∈ Da) → ∃ y, y ∈ Dc).
  { intros a c Da Dc Ha Hc Hac Hl HDa HDc [z Hz].
    assert (Hdc : directly_constrained (inequality_constraints b) a c) by (split; eauto).
    destruct (ac2_supported _ _ Hr a c Ha Hc Hdc _ _ _ HDa HDc Hz) as (y & Hy & _).
    by exists y. }
  destruct (decide (v = w)) as [->|Hvw]; [simplify_eq; eauto|].
  destruct (decide (v.1 = w.1)) as [H1|H1]; [by eapply (Hstep v w); eauto; left|].
  destruct (decide (v.2 = w.2)) as [H2|H2]; [by eapply (Hstep v w); eauto; right|].
  assert (Hm : in_board (board_size b) (v.1, w.2)).
  { destruct Hv, Hw. split; done. }
  destruct (wf_domains _ Hwf' (v.1, w.2)) as (Dm & HDm & _); [by rewrite Hn|].
  eapply (Hstep (v.1, w.2) w); eauto.
  - intros Heq. apply H1. by rewrite <- Heq.
  - by right.
  - eapply (Hstep v (v.1, w.2)); eauto.
    + intros Heq. apply H2. by rewrite Heq.
    + by left.
Qed.

Lemma initial_queue_constrained cs l xi xj :
  (xi, xj) ∈ initial_queue cs l → shares_line xi xj ∨ linked cs xi xj.
Proof.
  assert (Hc : ∀ a c, is_constrained cs a c = true → shares_line a c ∨ linked cs a c).
  { intros a c. unfold is_constrained. rewrite orb_true_iff, same_line_spec.
    intros [?|He]; [by left|]. right.
    apply existsb_exists in He as ([[v1 v2] op] & Hin%list_elem_of_In & He).
    apply orb_true_iff in He as [[-> ->]%bool_decide_eq_true|[-> ->]%bool_decide_eq_true];
      exists op; eauto. }
  induction l as [|v l IH]; simpl; [by intros ?%elem_of_nil|].
  intros [Hin|Hin]%elem_of_app; [|by apply IH].
  apply list_elem_of_bind in Hin as (w & Hin & Hw).
  destruct (is_constrained cs v w) eqn:E; [|by apply elem_of_nil in Hin].
  apply Hc in E. apply elem_of_cons in Hin as [?|Hin]; simplify_eq; [done|].
  apply list_elem_of_singleton in Hin. simplify_eq.
  destruct E as [?|?]; [left; by apply shares_line_sym|right; by apply linked_sym].
Qed.

Lemma revise_supported_noop {ord : SetOrder} b xi xj :
  xi ≠ xj → is_Some (domains b !! xi) → is_Some (domains b !! xj) →
  arc_supported b xi xj → revise b xi xj = Ok (false, b).
Proof.
  intros Hne [Di HDi] [Dj HDj] Hsup. unfold revise, dom_get. rewrite HDi. simpl.
  rewrite filterM_none; [done|]. intros x Hx%elem_of_iter_vals. rewrite HDj. simpl.
  destruct (Hsup Di Dj x HDi HDj Hx) as (y & Hy & Hs).
  assert (Hc : consistent_found (inequality_constraints b) xi xj x (iter_vals Dj) = true).
  { apply consistent_found_spec; [done|]. exists y. by rewrite elem_of_iter_vals. }
  by rewrite Hc.
Qed.

Lemma ac2_loop_stable {ord : SetOrder} fuel b q :
  (length q ≤ fuel)%nat →
  (∀ xi xj, (xi, xj) ∈ q →
     xi ≠ xj ∧ is_Some (domains b !! xi) ∧ is_Some (domains b !! xj) ∧ arc_supported b xi xj) →
  ac2_loop fuel b q = Ok (true, b).
Proof.
  revert q. induction fuel as [|fuel IH]; intros [|[xi xj] q] Hle Hq; simpl in *;
    try done; [lia|].
  destruct (Hq xi xj) as (Hne & Hi & Hj & Hsup); [by left|].
  rewrite revise_supported_noop by done. simpl. apply IH; [lia|].
  intros a c Hin. apply Hq. by right.
Qed.

(** X24. [ac2] is idempotent on a well-formed board: run again on the board
    it has made arc consistent, it answers True and removes nothing. *)
Theorem ac2_idempotent {ord : SetOrder} (b b' : FutoshikiBoard) :
  board_wf b → ac2 b = Ok (true, b') → ac2 b' = Ok (true, b').
Proof.
  intros Hwf Hr.
  destruct (ac2_wf b Hwf) as (r & b1 & Hr1 & Hwf' & (Hn & _ & Hcs) & _).
  rewrite Hr in Hr1. simplify_eq.
  apply ac2_loop_stable; [unfold ac2_bound; lia|].
  intros xi xj Hin. pose proof (initial_queue_constrained _ _ _ _ Hin) as Hc.
  apply initial_queue_sound in Hin as (Hi%elem_of_all_cells & Hj%elem_of_all_cells & Hne);
    [|apply NoDup_all_cells].
  split; [done|].
  destruct (wf_domains _ Hwf' xi Hi) as (Di & HDi & _).
  destruct (wf_domains _ Hwf' xj Hj) as (Dj & HDj & _).
  split_and!; [eauto..|].
  apply (ac2_supported _ _ Hr); [by rewrite <- Hn..|]. split; [done|]. by rewrite <- Hcs.
Qed.

(** ** MRV *)

Lemma row_major_irrefl v : ¬ row_major v v.
Proof. unfold row_major. lia. Qed.

Lemma row_major_asym v w : row_major v w → row_major w v → False.
Proof. unfold row_major. lia. Qed.

Section mrv.
Context (b : FutoshikiBoard).

Let step : option nat * option cell → cell → res (option nat * option cell) :=
  λ '(min_domain_size, best_var) var,
    D ← dom_get (domains b) var;
    let domain_size := size D in
    Ok (match min_domain_size with
        | Some m => if decide (domain_size < m)%nat
                    then (Some domain_size, Some var) else (Some m, best_var)
        | None => (Some domain_size, Some var)
        end).

Lemma mrv_fold l seen st st' :
  mrv_state b seen st → foldM step st l = Ok st' → mrv_state b (seen ++ l) st'.
Proof.
  revert seen st. induction l as [|var l IH]; intros seen st Hst Hr; simpl in Hr.
  - simplify_eq. by rewrite app_nil_r.
  - apply bind_Ok in Hr as (st1 & Hs & Hr).
    replace (seen ++ var :: l) with ((seen ++ [var]) ++ l) by by rewrite <- app_assoc.
    apply (IH _ st1); [|done]. clear IH Hr.
    destruct st as [[m|] [v|]]; simpl in Hst; try done; unfold step in Hs;
      apply bind_Ok in Hs as (D' & HD' & Hs); unfold dom_get in HD';
      destruct (domains b !! var) as [D0|] eqn:E; simplify_eq.
    + destruct Hst as (pre & post & D & -> & HD & <- & Hpre & Hpost).
      case_decide as Hlt; simpl.
      * exists (pre ++ v :: post), [], D'. split_and!; [done..| |by intros ? ?%elem_of_nil].
        intros w [Hw|[->|Hw]%elem_of_cons]%elem_of_app.
        -- destruct (Hpre w Hw) as (Dw & ? & ?). exists Dw. split; [done|lia].
        -- exists D. split; [done|lia].
        -- destruct (Hpost w Hw) as (Dw & ? & ?). exists Dw. split; [done|lia].
      * exists pre, (post ++ [var]), D. split_and!; [by rewrite <- app_assoc|done..|].
        intros w [Hw| ->%list_elem_of_singleton]%elem_of_app; [by apply Hpost|].
        exists D'. split; [done|lia].
    + simpl. exists [], [], D'. split_and!; [done..| |];
        by intros ? ?%elem_of_nil.
Qed.

End mrv.

(** X25. MRV on a well-formed board: [select_unassigned_variable_mrv] returns
    None exactly when no cell is unassigned; otherwise it returns an
    unassigned cell whose domain is no larger than the domain of any
    unassigned cell and strictly smaller than the domains of the unassigned
    cells that come before it in row-major order (ties go to the first
    cell). *)
Theorem select_mrv_first_minimum (b : FutoshikiBoard) :
  board_wf b →
  ∃ r, select_unassigned_variable_mrv b = Ok r ∧
    match r with
    | None => ∀ v, in_board (board_size b) v → cell_value (grid b) v ≠ 0
    | Some var =>
        in_board (board_size b) var ∧ cell_value (grid b) var = 0
        ∧ ∃ D, domains b !! var = Some D
            ∧ ∀ w Dw, in_board (board_size b) w → cell_value (grid b) w = 0 →
                      domains b !! w = Some Dw →
                      (size D ≤ size Dw)%nat ∧ (row_major w var → (size D < size Dw)%nat)
    end.
Proof.
  intros Hwf. unfold select_unassigned_variable_mrv.
  rewrite (get_unassigned_variables_wf b (wf_shape _ Hwf)). simpl.
  set (l := filter _ _).
  assert (Hl : ∀ v, v ∈ l ↔ in_board (board_size b) v ∧ cell_value (grid b) v = 0).
  { intros v. unfold l. by rewrite list_elem_of_filter, elem_of_all_cells, (comm (∧)). }
  assert (Hsorted : StronglySorted row_major l)
    by apply StronglySorted_filter, StronglySorted_all_cells.
  match goal with |- context [foldM ?f _ l] => set (step := f) end.
  destruct (foldM_total (λ _, True) step l (None, None)) as ([m r] & Hr & _); [|done|].
  { intros [m0 b0] v [Hv _]%Hl _. destruct (wf_domains _ Hwf v Hv) as (D & HD & _).
    unfold step, dom_get. rewrite HD. simpl. eauto. }
  rewrite Hr. simpl. exists r. split; [done|].
  pose proof (mrv_fold b l [] (None, None) (m, r) eq_refl Hr) as Hst. simpl in Hst.
  destruct m as [m|], r as [var|]; try done.
  - destruct Hst as (pre & post & D & Hlp & HD & <- & Hpre & Hpost).
    assert (Hvar : var ∈ l) by (rewrite Hlp; set_solver).
    apply Hl in Hvar as [Hvb Hv0]. split_and!; [done..|]. exists D. split; [done|].
    intros w Dw Hw Hw0 HDw.
    assert (Hwl : w ∈ l) by by apply Hl.
    rewrite Hlp in Hwl, Hsorted.
    apply StronglySorted_app in Hsorted as (Hbefore & _ & Hafter%StronglySorted_cons).
    destruct Hafter as [Hafter _]. rewrite Forall_forall in Hafter.
    apply elem_of_app in Hwl as [Hwp|[->|Hwp]%elem_of_cons].
    + destruct (Hpre w Hwp) as (Dw' & ? & ?). simplify_eq. split; [lia|]. intros _. lia.
    + simplify_eq. split; [done|]. by intros ?%row_major_irrefl.
    + destruct (Hpost w Hwp) as (Dw' & ? & ?). simplify_eq. split; [done|].
      intros Hrm. exfalso. eapply row_major_asym; [done|]. by apply Hafter.
  - intros v Hv Hv0. assert (Hin : v ∈ l) by by apply Hl.
    rewrite Hst in Hin. by apply elem_of_nil in Hin.
Qed.

(** ** LCV *)

Lemma insert_by_count_sorted x l :
  StronglySorted (λ a c : Z * Z, a.2 ≤ c.2) l →
  StronglySorted (λ a c : Z * Z, a.2 ≤ c.2) (insert_by_count x l).
Proof.
  induction 1 as [|y l Hl IH Hy]; simpl; [repeat constructor|].
  case_decide as Hle.
  - constructor; [by constructor|]. constructor; [done|].
    eapply Forall_impl; [done|]. simpl. intros; lia.
  - constructor; [done|]. rewrite (insert_by_count_perm x l). constructor; [lia|done].
Qed.

Lemma sort_by_count_sorted l : StronglySorted (λ a c : Z * Z, a.2 ≤ c.2) (sort_by_count l).
Proof.
  induction l as [|x l IH]; simpl; [constructor|]. by apply insert_by_count_sorted.
Qed.

Section lcv.
Context {ord : SetOrder}.

Lemma lcv_fold_counts b var l counts bi counts' b' :
  (∀ v, assign bi var v = assign b var v) →
  foldM (λ '(counts, b) value,
           b1 ← assign b var value;
           constraining_count ←
             foldM (λ acc neighbor, p ← lcv_neighbor_penalty b1 var value neighbor; Ok (acc + p))
                   0 (get_neighbors b1 var);
           b2 ← unassign b1 var;
           Ok (counts ++ [(value, constraining_count)], b2))
        (counts, bi) l = Ok (counts', b') →
  counts'.*1 = counts.*1 ++ l
  ∧ ∀ v c, (v, c) ∈ counts' → (v, c) ∈ counts ∨ lcv_constraining_count b var v = Ok c.
Proof.
  revert counts bi. induction l as [|value l IH]; intros counts bi Hsim Hr.
  - simpl in Hr. simplify_eq. rewrite app_nil_r. split; [done|]. by left.
  - rewrite foldM_cons in Hr. apply bind_Ok in Hr as ([counts1 b2] & Hstep & Hr).
    apply bind_Ok in Hstep as (b1 & Ha & Hstep). apply bind_Ok in Hstep as (c & Hc & Hstep).
    apply bind_Ok in Hstep as (b2' & Hu & Hstep). simplify_eq.
    apply IH in Hr as [Hfst Hcnt].
    + split.
      * rewrite Hfst, fmap_app. simpl. by rewrite <- app_assoc.
      * intros v c' Hin. destruct (Hcnt v c' Hin) as [Hin'|?]; [|by right].
        apply elem_of_app in Hin' as [?|Hin']; [by left|].
        apply list_elem_of_singleton in Hin'. simplify_eq. right.
        unfold lcv_constraining_count. rewrite <- Hsim, Ha. done.
    + intros v. rewrite <- Hsim, <- (assign_twice bi var value v), Ha. simpl.
      rewrite <- (assign_after_unassign b1 var v), Hu. done.
Qed.

End lcv.

Lemma order_domain_values_lcv_perm {ord : SetOrder} var b vals b' :
  order_domain_values_lcv var b = Ok (vals, b') →
  ∃ D counts, domains b !! var = Some D ∧ vals = (sort_by_count counts).*1
    ∧ counts.*1 = iter_vals D
    ∧ ∀ v c, (v, c) ∈ counts → lcv_constraining_count b var v = Ok c.
Proof.
  unfold order_domain_values_lcv. intros Hr. apply bind_Ok in Hr as (D & HD & Hr).
  apply bind_Ok in Hr as ([counts b1] & Hfold & Hr). simplify_eq.
  apply (lcv_fold_counts b) in Hfold as [Hfst Hcnt]; [|done]. simpl in Hfst.
  unfold dom_get in HD. destruct (domains b !! var) as [D0|]; simplify_eq.
  exists D, counts. split_and!; [done..|].
  intros v c Hin. destruct (Hcnt v c Hin) as [[]%elem_of_nil|?]; done.
Qed.

(** X26. LCV returns every value of the domain of [var] once, in ascending
    order of the constraining count the function computes for it. *)
Theorem lcv_sorted_by_count {ord : SetOrder} (var : cell) (b b' : FutoshikiBoard)
    (vals : list Z) :
  order_domain_values_lcv var b = Ok (vals, b') →
  ∃ D counts, domains b !! var = Some D
    ∧ vals ≡ₚ elements D
    ∧ Forall2 (λ v c, lcv_constraining_count b var v = Ok c) vals counts
    ∧ StronglySorted Z.le counts.
Proof.
  intros Hr. destruct (order_domain_values_lcv_perm _ _ _ _ Hr)
    as (D & counts & HD & -> & Hfst & Hcnt).
  exists D, (sort_by_count counts).*2. split_and!; [done| | |].
  - rewrite (sort_by_count_perm counts), Hfst. apply iter_vals_perm.
  - assert (Hall : Forall (λ vc, lcv_constraining_count b var vc.1 = Ok vc.2)
                     (sort_by_count counts)).
    { apply Forall_forall. intros [v c] Hin. rewrite (sort_by_count_perm counts) in Hin.
      by apply Hcnt. }
    clear Hr. induction Hall as [|[v c] l Hvc Hl IH]; simpl; by constructor.
  - eapply StronglySorted_fmap; [|apply sort_by_count_sorted]. done.
Qed.

(** ** The search: completeness *)

(** X27. The solver is complete, whatever the flags: on a freshly constructed
    board (size x size clue grid, constraints between cells of the board),
    if some solution keeps the clues then [solve] answers True, and the grid
    it leaves is a solution that keeps the clues. *)
Theorem solve_complete {ord : SetOrder} (size : Z) (initial_grid : option (list (list Z)))
    (constraints : option (list constraint)) (sol : list (list Z))
    (fc ac mrv lcv : bool) (count : Z) :
  grid_shape size (default (zero_grid size) (truthy initial_grid)) →
  (∀ a c op, (a, c, op) ∈ default [] (truthy constraints) →
             in_board size a ∧ in_board size c) →
  is_solution size (default [] (truthy constraints)) sol →
  extends size (default (zero_grid size) (truthy initial_grid)) sol →
  ∃ b s', __init__ size initial_grid constraints = Ok b
    ∧ (∀ fuel, (search_fuel b ≤ fuel)%nat →
               solve_fuel fuel (mkSolver b fc ac mrv lcv count) = Ok (true, s'))
    ∧ is_solution size (default [] (truthy constraints)) (grid (board s'))
    ∧ extends size (default (zero_grid size) (truthy initial_grid)) (grid (board s')).
Proof.
  intros Hs Hcs Hsol Hext.
  destruct (init_spec size initial_grid constraints Hs)
    as (b & d0 & Hb & Hn & Hg & Hbcs & _ & _).
  pose proof (extends_consistent _ _ _ _ Hsol Hext Hcs) as Hcon.
  destruct (init_wf size initial_grid constraints b Hb) as [_ Hwf].
  { by rewrite Hg. }
  { rewrite Hg. apply Hcon. }
  { by rewrite Hbcs. }
  { done. }
  assert (Hadm : admits b sol).
  { eapply init_admits; [done..|by rewrite Hbcs|by rewrite Hg]. }
  destruct (solve_spec (mkSolver b fc ac mrv lcv count)) as (r & s' & Hr & Hpost); simpl.
  { done. }
  { by rewrite Hn, Hg, Hbcs. }
  unfold search_post, solved_from in Hpost. simpl in Hpost.
  rewrite Hn, Hg, Hbcs in Hpost. destruct r.
  - destruct Hpost as (_ & _ & Hsol' & Hext'). exists b, s'. split_and!; [done| |done..].
    intros fuel Hfuel. by apply (solve_fuel_mono _ _ _ _ Hr).
  - destruct Hpost as [_ Hno]. exfalso. by apply (Hno sol).
Qed.

(** X28. A failed search is a refutation: when [_backtracking_search] answers
    False on a well-formed board, no solution keeps the assigned cells of its
    grid and fits its domains. *)
Theorem backtracking_search_refutes {ord : SetOrder} (fuel : nat) (s s' : CSPSolver) :
  board_wf (board s) →
  _backtracking_search fuel s = Ok (false, s') →
  ¬ ∃ sol, is_solution (board_size (board s)) (inequality_constraints (board s)) sol
           ∧ extends (board_size (board s)) (grid (board s)) sol
           ∧ admits (board s) sol.
Proof.
  intros Hwf Hr (sol & Hsol & Hext & Hadm).
  pose proof (extends_consistent _ _ _ _ Hsol Hext (wf_constraints _ Hwf)) as Hcon.
  destruct (backtracking_search_spec (S (unassigned_count (board s))) s Hwf Hcon)
    as (r & s1 & Hr1 & Hpost); [lia|].
  apply (backtracking_search_fuel_mono _ (fuel `max` S (unassigned_count (board s)))) in Hr;
    [|done|lia].
  apply (backtracking_search_fuel_mono _ (fuel `max` S (unassigned_count (board s)))) in Hr1;
    [|done|lia].
  rewrite Hr in Hr1. simplify_eq. destruct Hpost as [_ Hno]. by apply (Hno sol).
Qed.

(** ** The search: what failure restores, and the counter *)

Section restore.
Context {ord : SetOrder}.

Lemma try_values_failure_board (rec : CSPSolver → res (bool * CSPSolver)) var vals s s' :
  (∀ s1 s2, rec s1 = Ok (false, s2) → same_frame (board s1) (board s2)) →
  grid_get (grid (board s)) var = Ok 0 →
  try_values rec var vals s = Ok (false, s') → board s' = board s.
Proof.
  intros Hrec. revert s. induction vals as [|value rest IH]; intros s H0 Hr; simpl in Hr.
  - by simplify_eq.
  - apply bind_Ok in Hr as (x & _ & Hr). apply bind_Ok in Hr as (b1 & Ha & Hr).
    apply bind_Ok in Hr as (consistent & _ & Hr).
    apply bind_Ok in Hr as ([found s1] & Hstep & Hr).
    assert (found = false ∧ same_frame b1 (board s1)) as [-> Hfr].
    { destruct found.
      { exfalso. simplify_eq. }
      split; [done|]. destruct consistent; [|by simplify_eq].
      apply bind_Ok in Hstep as ([ok b2] & Hinf & Hstep).
      apply infer_frame in Hinf. destruct ok; [|by simplify_eq].
      apply Hrec in Hstep. etrans; [done|]. done. }
    apply bind_Ok in Hr as (b3 & Hu & Hr).
    destruct (assign_unassign_grid _ _ _ _ _ H0 Ha Hfr) as (b3' & Hu' & Hfr3).
    rewrite Hu in Hu'. simplify_eq.
    assert (Hb : set_domains b3' (domains (board s)) = board s).
    { unfold set_domains. destruct Hfr3 as (-> & -> & ->). apply board_eta. }
    rewrite Hb in Hr. apply IH in Hr; simpl; done.
Qed.

Lemma try_values_counter (rec : CSPSolver → res (bool * CSPSolver)) var vals s r s' :
  (∀ s1 r1 s2, rec s1 = Ok (r1, s2) →
     use_forward_checking s2 = use_forward_checking s1 ∧ use_ac2 s2 = use_ac2 s1
     ∧ use_mrv s2 = use_mrv s1 ∧ use_lcv s2 = use_lcv s1
     ∧ backtracks s1 ≤ backtracks s2) →
  try_values rec var vals s = Ok (r, s') →
  use_forward_checking s' = use_forward_checking s ∧ use_ac2 s' = use_ac2 s
  ∧ use_mrv s' = use_mrv s ∧ use_lcv s' = use_lcv s
  ∧ backtracks s ≤ backtracks s'
  ∧ (r = false → backtracks s + Z.of_nat (length vals) ≤ backtracks s').
Proof.
  intros Hrec. revert s. induction vals as [|value rest IH]; intros s Hr; simpl in Hr.
  - simplify_eq. simpl. split_and!; try done; lia.
  - apply bind_Ok in Hr as (x & _ & Hr). apply bind_Ok in Hr as (b1 & Ha & Hr).
    apply bind_Ok in Hr as (consistent & _ & Hr).
    apply bind_Ok in Hr as ([found s1] & Hstep & Hr).
    assert (H1 : use_forward_checking s1 = use_forward_checking s ∧ use_ac2 s1 = use_ac2 s
                 ∧ use_mrv s1 = use_mrv s ∧ use_lcv s1 = use_lcv s
                 ∧ backtracks s ≤ backtracks s1).
    { destruct consistent; [|simplify_eq; simpl; split_and!; try done; lia].
      apply bind_Ok in Hstep as ([ok b2] & Hinf & Hstep).
      destruct ok; [|simplify_eq; simpl; split_and!; try done; lia].
      apply Hrec in Hstep. simpl in Hstep. done. }
    destruct H1 as (F1 & F2 & F3 & F4 & Hle). destruct found.
    { simplify_eq. split_and!; try done. }
    apply bind_Ok in Hr as (b3 & Hu & Hr). apply IH in Hr. simpl in Hr.
    destruct Hr as (G1 & G2 & G3 & G4 & Hle' & Hf).
    rewrite length_cons. split_and!; try congruence; [lia|]. intros Hrf.
    specialize (Hf Hrf). lia.
Qed.

Lemma backtracking_search_counter fuel s r s' :
  _backtracking_search fuel s = Ok (r, s') →
  use_forward_checking s' = use_forward_checking s ∧ use_ac2 s' = use_ac2 s
  ∧ use_mrv s' = use_mrv s ∧ use_lcv s' = use_lcv s
  ∧ backtracks s ≤ backtracks s'.
Proof.
  revert s r s'. induction fuel as [|fuel IH]; intros s r s' Hr; simpl in Hr; [done|].
  apply bind_Ok in Hr as (l & Hl & Hr).
  destruct l as [|first l]; [simplify_eq; split_and!; try done; lia|].
  apply bind_Ok in Hr as (sel & Hsel & Hr). destruct sel as [var|]; [|done].
  apply bind_Ok in Hr as ([vals b] & Hvals & Hr).
  apply try_values_counter in Hr; [|by apply IH]. simpl in Hr.
  destruct Hr as (? & ? & ? & ? & ? & _). done.
Qed.

End restore.

(** X29. Without LCV a failed search restores the whole board, not only the
    grid: when [_backtracking_search] answers False, the size, the grid,
    every domain and the constraints are as the call found them; and so for
    [solve] when the AC-2 preprocessing is off as well. *)
Theorem failed_search_restores_board {ord : SetOrder} (fuel : nat) (s s' : CSPSolver) :
  use_lcv s = false →
  _backtracking_search fuel s = Ok (false, s')
  ∨ (use_ac2 s = false ∧ solve_fuel fuel s = Ok (false, s')) →
  board s' = board s.
Proof.
  assert (Hsearch : ∀ s0, use_lcv s0 = false →
            _backtracking_search fuel s0 = Ok (false, s') → board s' = board s0).
  { intros s0 Hlcv Hr. destruct fuel as [|fuel']; simpl in Hr; [done|].
    apply bind_Ok in Hr as (l & Hl & Hr). destruct l as [|first l]; [by simplify_eq|].
    apply bind_Ok in Hr as (sel & Hsel & Hr). destruct sel as [var|]; [|done].
    assert (Hvar : grid_get (grid (board s0)) var = Ok 0).
    { destruct (use_mrv s0).
      - apply select_unassigned_variable_mrv_Ok in Hsel as (l' & Hl' & Hv).
        by apply (get_unassigned_variables_Ok _ _ Hl') in Hv as [_ ?].
      - simplify_eq. apply (get_unassigned_variables_Ok _ _ Hl). by left. }
    rewrite Hlcv in Hr. apply bind_Ok in Hr as ([vals b] & Hvals & Hr).
    apply bind_Ok in Hvals as (D & _ & Hvals). simplify_eq.
    apply try_values_failure_board in Hr; [done| |done].
    intros s1 s2. apply backtracking_search_failure_frame. }
  intros Hlcv [Hr|[Hac Hr]]; [by apply Hsearch|].
  unfold solve_fuel in Hr. cbn [use_ac2 board] in Hr. rewrite Hac in Hr.
  by apply Hsearch in Hr.
Qed.

(** X30. A failed search has tried every value of the cell it chose: when
    [_backtracking_search] answers False, some unassigned cell has a domain
    each of whose values cost at least one backtrack. *)
Theorem failed_search_counts_values {ord : SetOrder} (fuel : nat) (s s' : CSPSolver) :
  _backtracking_search fuel s = Ok (false, s') →
  ∃ var D, grid_get (grid (board s)) var = Ok 0
    ∧ domains (board s) !! var = Some D
    ∧ backtracks s + Z.of_nat (size D) ≤ backtracks s'.
Proof.
  intros Hr. destruct fuel as [|fuel']; simpl in Hr; [done|].
  apply bind_Ok in Hr as (l & Hl & Hr). destruct l as [|first l]; [by simplify_eq|].
  apply bind_Ok in Hr as (sel & Hsel & Hr). destruct sel as [var|]; [|done].
  assert (Hvar : grid_get (grid (board s)) var = Ok 0).
  { destruct (use_mrv s).
    - apply select_unassigned_variable_mrv_Ok in Hsel as (l' & Hl' & Hv).
      by apply (get_unassigned_variables_Ok _ _ Hl') in Hv as [_ ?].
    - simplify_eq. apply (get_unassigned_variables_Ok _ _ Hl). by left. }
  apply bind_Ok in Hr as ([vals b] & Hvals & Hr).
  assert (∃ D, domains (board s) !! var = Some D ∧ length vals = size D) as (D & HD & Hlen).
  { destruct (use_lcv s).
    - destruct (order_domain_values_lcv_perm _ _ _ _ Hvals) as (D & counts & HD & -> & Hf & _).
      exists D. split; [done|].
      rewrite length_fmap, (sort_by_count_perm counts), <- (length_fmap fst), Hf.
      by rewrite (iter_vals_perm D).
    - apply bind_Ok in Hvals as (D & HD & Hvals). simplify_eq.
      unfold dom_get in HD. destruct (domains (board s) !! var) as [D0|]; simplify_eq.
      exists D. split; [done|]. by rewrite (iter_vals_perm D). }
  exists var, D. split_and!; [done..|].
  apply try_values_counter in Hr as (_ & _ & _ & _ & _ & Hf).
  - specialize (Hf eq_refl). simpl in Hf. lia.
  - intros s1 r1 s2. apply backtracking_search_counter.
Qed.

(** ** The further properties on concrete boards *)

Lemma one_clue_board_facts :
  board_size one_clue_board = 2 ∧ grid one_clue_board = one_clue_grid
  ∧ inequality_constraints one_clue_board = [].
Proof. by vm_compute. Qed.

Lemma clash_board_wf : board_wf clash_board.
Proof.
  assert (Hinit : __init__ 2 (Some [[1; 1]; [0; 0]]) None = Ok clash_board) by by vm_compute.
  refine (proj2 (init_wf 2 (Some [[1; 1]; [0; 0]]) None clash_board Hinit _ _ _ eq_refl)).
  - split; [done|]. by repeat constructor.
  - intros v Hv Hnz. cell_cases Hv; by vm_compute.
  - by intros a c op ?%elem_of_nil.
Qed.

(** X1, witness: the one-clue grid. *)
Lemma init_domains_exact_witness :
  ∃ b, __init__ 2 (Some one_clue_grid) None = Ok b
    ∧ grid b = default (zero_grid 2) (truthy (Some one_clue_grid))
    ∧ (∀ v, ¬ in_board 2 v → domains b !! v = None)
    ∧ ∀ v, in_board 2 v →
        ∃ D, domains b !! v = Some D
          ∧ ∀ y, y ∈ D ↔
              (if decide (cell_value (grid b) v = 0) then 1 ≤ y ≤ 2
               else y = cell_value (grid b) v)
              ∧ ∀ w, in_board 2 w → w ≠ v → shares_line w v → cell_value (grid b) w ≠ y.
Proof. apply (init_domains_exact 2 (Some one_clue_grid) None). exact one_clue_shape. Defined.

(** X3, witness: one row given for a 3 x 3 board. *)
Lemma init_short_grid_raises_witness : __init__ 3 (Some [[1; 0; 0]]) None = Raise IndexError.
Proof. apply (init_short_grid_raises 3 [[1; 0; 0]] None); [done|simpl; lia]. Defined.

(** X4, witness: the one-clue board. *)
Lemma get_unassigned_variables_spec_witness :
  ∃ l, get_unassigned_variables one_clue_board = Ok l
    ∧ (∀ v, v ∈ l ↔ in_board (board_size one_clue_board) v
                    ∧ cell_value (grid one_clue_board) v = 0)
    ∧ StronglySorted row_major l.
Proof.
  apply (get_unassigned_variables_spec one_clue_board). exact (wf_shape _ one_clue_board_wf).
Defined.

(** X5, witness: 2 is put at (0,1) of the one-clue board. *)
Lemma is_consistent_incremental_witness :
  ∃ ok, is_consistent one_clue_assigned (0, 1) 2 = Ok ok
    ∧ (ok = true ↔ consistent_grid (board_size one_clue_board)
                     (inequality_constraints one_clue_board) (grid one_clue_assigned)).
Proof.
  destruct one_clue_board_facts as (Hn & Hg & Hcs).
  apply (is_consistent_incremental one_clue_board one_clue_assigned (0, 1) 2).
  - exact (wf_shape _ one_clue_board_wf).
  - exact (wf_constraints _ one_clue_board_wf).
  - rewrite Hn, Hg, Hcs. exact one_clue_consistent.
  - rewrite Hn. split; simpl; lia.
  - rewrite Hn. lia.
  - vm_compute. reflexivity.
Defined.

(** X7, witness: (0,0) and (0,1) of the one-clue board. *)
Lemma get_neighbors_symmetric_witness :
  (0, 1) ∈ get_neighbors (ord := sorted_order) one_clue_board (0, 0)
  ↔ (0, 0) ∈ get_neighbors (ord := sorted_order) one_clue_board (0, 1).
Proof.
  destruct one_clue_board_facts as (Hn & _ & _).
  apply (get_neighbors_symmetric (ord := sorted_order) one_clue_board (0, 0) (0, 1));
    rewrite Hn; split; simpl; lia.
Defined.

(** X8, witness: a corner of the one-clue board has two neighbors. *)
Lemma get_neighbors_count_witness :
  Z.of_nat (length (get_neighbors (ord := sorted_order) one_clue_board (0, 0)))
  = 2 * (board_size one_clue_board - 1)
  ∧ (0, 0) ∉ get_neighbors (ord := sorted_order) one_clue_board (0, 0).
Proof.
  destruct one_clue_board_facts as (Hn & _ & Hcs).
  apply (get_neighbors_count (ord := sorted_order) one_clue_board (0, 0)); [done|].
  rewrite Hn. split; simpl; lia.
Defined.

(** X9, witness: on the one-clue board, [assign((-1,-1), 2)] writes the cell
    (1,1) and creates the key (-1,-1); [assign((0,2), 2)] raises. *)
Lemma assign_python_index_witness :
  (∃ b1, assign one_clue_board (-1, -1) 2 = Ok b1
     ∧ cell_value (grid b1) (1, 1) = 2
     ∧ domains b1 !! (-1, -1) = Some {[2]}
     ∧ domains b1 !! (1, 1) = domains one_clue_board !! (1, 1))
  ∧ assign one_clue_board (0, 2) 2 = Raise IndexError.
Proof.
  destruct one_clue_board_facts as (Hn & _ & _).
  pose proof (wf_shape _ one_clue_board_wf) as Hs.
  split.
  - destruct (proj1 (assign_python_index one_clue_board (-1, -1) 2 Hs))
      as (b1 & Hb1 & Hv & _ & Hd).
    { rewrite Hn. simpl. lia. }
    exists b1. split; [done|]. rewrite Hn in Hv. split; [exact Hv|].
    rewrite Hd. split; [apply lookup_insert_eq|by apply lookup_insert_ne].
  - apply (proj2 (assign_python_index one_clue_board (0, 2) 2 Hs)).
    rewrite Hn. simpl. lia.
Defined.

(** X11, witness: (0,1) and (1,0) of the one-clue board. *)
Lemma assign_commutes_witness :
  (b1 ← assign one_clue_board (0, 1) 2; assign b1 (1, 0) 2)
  = (b1 ← assign one_clue_board (1, 0) 2; assign b1 (0, 1) 2)
  ∧ ∃ b2, (b1 ← assign one_clue_board (0, 1) 2; assign b1 (1, 0) 2) = Ok b2.
Proof.
  destruct one_clue_board_facts as (Hn & _ & _).
  apply (assign_commutes one_clue_board (0, 1) (1, 0) 2 2).
  - exact (wf_shape _ one_clue_board_wf).
  - rewrite Hn. split; simpl; lia.
  - rewrite Hn. split; simpl; lia.
  - done.
Defined.


Lemma one_clue_assigned_facts :
  inequality_constraints one_clue_assigned = []
  ∧ forward_check (ord := sorted_order) one_clue_assigned (0, 1) 2
    = Ok (Some one_clue_pruned, one_clue_after_fc).
Proof. split; by vm_compute. Qed.

(** X14, witness: the forward check after 2 is put at (0,1) of the one-clue
    board. *)
Lemma forward_check_restore_witness :
  restore_pruned one_clue_pruned (domains one_clue_after_fc) = Ok (domains one_clue_assigned).
Proof.
  destruct one_clue_assigned_facts as [Hcs Hfc].
  apply (forward_check_restore (ord := sorted_order) one_clue_assigned one_clue_after_fc
           (0, 1) 2 one_clue_pruned); [|done].
  intros op Hin. rewrite Hcs in Hin. by apply elem_of_nil in Hin.
Defined.

(** X15, witness: the same call. *)
Lemma forward_check_success_effect_witness :
  (∀ nb D, nb ∈ get_neighbors (ord := sorted_order) one_clue_assigned (0, 1) →
           grid_get (grid one_clue_assigned) nb = Ok 0 →
           domains one_clue_assigned !! nb = Some D →
           ∃ D', domains one_clue_after_fc !! nb = Some D'
                 ∧ ∀ y, y ∈ D' ↔
                        y ∈ D ∧ jointly_satisfy (inequality_constraints one_clue_assigned)
                                  (0, 1) nb 2 y)
  ∧ (∀ k, ¬ (k ∈ get_neighbors (ord := sorted_order) one_clue_assigned (0, 1)
             ∧ grid_get (grid one_clue_assigned) k = Ok 0) →
          domains one_clue_after_fc !! k = domains one_clue_assigned !! k).
Proof.
  destruct one_clue_assigned_facts as [Hcs Hfc].
  apply (forward_check_success_effect (ord := sorted_order) one_clue_assigned
           one_clue_after_fc (0, 1) 2 one_clue_pruned); [| |done].
  - rewrite Hcs. intros i j a c op a' c' op' Hi. by rewrite lookup_nil in Hi.
  - intros op Hin. rewrite Hcs in Hin. by apply elem_of_nil in Hin.
Defined.

Lemma greater_board_facts :
  inequality_constraints greater_board = [((0, 0), (0, 1), OpGt)]
  ∧ forward_check (ord := sorted_order) greater_board (0, 0) 1
    = Ok (None, greater_board_after_fc).
Proof. split; by vm_compute. Qed.

(** X16, witness: (0,0) > (0,1) and 1 at (0,0). *)
Lemma forward_check_failure_reason_witness :
  ∃ nb D, nb ∈ get_neighbors (ord := sorted_order) greater_board (0, 0)
          ∧ grid_get (grid greater_board) nb = Ok 0
          ∧ domains greater_board !! nb = Some D
          ∧ ∀ y, y ∈ D →
                 ¬ jointly_satisfy (inequality_constraints greater_board) (0, 0) nb 1 y.
Proof.
  destruct greater_board_facts as [Hcs Hfc].
  apply (forward_check_failure_reason (ord := sorted_order) greater_board
           greater_board_after_fc (0, 0) 1); [| |done].
  - rewrite Hcs. intros [|i] [|j] a c op a' c' op' Hi Hj _; done.
  - intros op Hin. rewrite Hcs in Hin. apply list_elem_of_singleton in Hin. done.
Defined.

(** X17, witness: the one-clue board, 2 at (0,1). *)
Lemma forward_check_keeps_solutions_witness :
  ∃ r b', forward_check (ord := sorted_order) one_clue_board (0, 1) 2 = Ok (r, b')
    ∧ grid b' = grid one_clue_board
    ∧ ∀ sol, is_solution (board_size one_clue_board)
               (inequality_constraints one_clue_board) sol →
             cell_value sol (0, 1) = 2 → admits one_clue_board sol →
             is_Some r ∧ admits b' sol.
Proof.
  destruct one_clue_board_facts as (Hn & _ & _).
  apply (forward_check_keeps_solutions (ord := sorted_order) one_clue_board (0, 1) 2).
  - exact one_clue_board_wf.
  - rewrite Hn. split; simpl; lia.
  - rewrite Hn. lia.
Defined.

Lemma less_board_revise :
  revise (ord := sorted_order) less_board (0, 0) (0, 1) = Ok (true, less_board_revised).
Proof. by vm_compute. Qed.

(** X18, witness: (0,0) < (0,1); the value 2 of (0,0) has no support. *)
Lemma revise_effect_witness :
  ∃ Di Di', domains less_board !! (0, 0) = Some Di
    ∧ domains less_board_revised = <[(0, 0) := Di']> (domains less_board)
    ∧ same_frame less_board less_board_revised
    ∧ (∀ x, x ∈ Di' ↔
            x ∈ Di ∧ ∃ Dj y, domains less_board !! (0, 1) = Some Dj ∧ y ∈ Dj
                             ∧ supports (inequality_constraints less_board) (0, 0) (0, 1) x y)
    ∧ (true = true ↔ Di' ≠ Di).
Proof.
  apply (revise_effect (ord := sorted_order) less_board less_board_revised (0, 0) (0, 1) true);
    [done|exact less_board_revise].
Defined.

(** X20, witness: the same arc, revised again. *)
Lemma revise_idempotent_witness :
  revise (ord := sorted_order) less_board_revised (0, 0) (0, 1)
  = Ok (false, less_board_revised).
Proof.
  apply (revise_idempotent (ord := sorted_order) less_board less_board_revised
           (0, 0) (0, 1) true); [done|exact less_board_revise].
Defined.

(** X21, witness: the one-clue board. *)
Lemma ac2_keeps_solutions_witness :
  ∃ r b', ac2 (ord := sorted_order) one_clue_board = Ok (r, b')
    ∧ same_frame one_clue_board b' ∧ shrinks one_clue_board b'
    ∧ ∀ sol, is_solution (board_size one_clue_board)
               (inequality_constraints one_clue_board) sol →
             admits one_clue_board sol → r = true ∧ admits b' sol.
Proof. apply (ac2_keeps_solutions (ord := sorted_order) one_clue_board one_clue_board_wf). Defined.

(** X22, witness: two equal clues in a row. *)
Lemma ac2_false_empty_domain_witness : ∃ xi, domains clash_board_ac2 !! xi = Some ∅.
Proof.
  apply (ac2_false_empty_domain (ord := sorted_order) clash_board clash_board_ac2).
  vm_compute. reflexivity.
Defined.

Lemma one_clue_ac2_run : ac2 (ord := sorted_order) one_clue_board = Ok (true, one_clue_ac2).
Proof. by vm_compute. Qed.

(** X23, witness: the one-clue board after [ac2]; 1 is in the domain of
    (0,0), and the domain of (1,1) holds a value. *)
Lemma ac2_true_no_empty_domain_witness : ∃ y, y ∈ ({[1]} : gset Z).
Proof.
  destruct one_clue_board_facts as (Hn & _ & _).
  apply (ac2_true_no_empty_domain (ord := sorted_order) one_clue_board one_clue_ac2
           (0, 0) (1, 1) {[1]} {[1]} 1).
  - exact one_clue_board_wf.
  - exact one_clue_ac2_run.
  - rewrite Hn. split; simpl; lia.
  - rewrite Hn. split; simpl; lia.
  - vm_compute. reflexivity.
  - vm_compute. reflexivity.
  - by apply elem_of_singleton.
Defined.

(** X24, witness: the one-clue board. *)
Lemma ac2_idempotent_witness :
  ac2 (ord := sorted_order) one_clue_ac2 = Ok (true, one_clue_ac2).
Proof.
  apply (ac2_idempotent (ord := sorted_order) one_clue_board one_clue_ac2
           one_clue_board_wf one_clue_ac2_run).
Defined.

(** X25, witness: the one-clue board. *)
Lemma select_mrv_first_minimum_witness :
  ∃ r, select_unassigned_variable_mrv one_clue_board = Ok r ∧
    match r with
    | None => ∀ v, in_board (board_size one_clue_board) v →
                   cell_value (grid one_clue_board) v ≠ 0
    | Some var =>
        in_board (board_size one_clue_board) var ∧ cell_value (grid one_clue_board) var = 0
        ∧ ∃ D, domains one_clue_board !! var = Some D
            ∧ ∀ w Dw, in_board (board_size one_clue_board) w →
                      cell_value (grid one_clue_board) w = 0 →
                      domains one_clue_board !! w = Some Dw →
                      (size D ≤ size Dw)%nat ∧ (row_major w var → (size D < size Dw)%nat)
    end.
Proof. apply (select_mrv_first_minimum one_clue_board one_clue_board_wf). Defined.

(** X26, witness: the three values of (0,0) on the 3 x 3 board with
    (0,0) > (0,1). The set is iterated as 1, 2, 3; the value 1 counts 100
    (it leaves (0,1) no smaller value), 2 and 3 count 0, and the result is
    2, 3, 1. *)
Lemma lcv_sorted_by_count_witness :
  @iter_vals sorted_order (full_domain 3) = [1; 2; 3]
  ∧ order_domain_values_lcv (ord := sorted_order) (0, 0) greater_three_board
    = Ok ([2; 3; 1], greater_three_after_lcv)
  ∧ lcv_constraining_count (ord := sorted_order) greater_three_board (0, 0) <$> [2; 3; 1]
    = [Ok 0; Ok 0; Ok 100]
  ∧ ∃ D counts, domains greater_three_board !! (0, 0) = Some D
    ∧ [2; 3; 1] ≡ₚ elements D
    ∧ Forall2 (λ v c, lcv_constraining_count (ord := sorted_order) greater_three_board (0, 0) v
                      = Ok c) [2; 3; 1] counts
    ∧ StronglySorted Z.le counts.
Proof.
  split; [by vm_compute|]. split; [by vm_compute|]. split; [by vm_compute|].
  apply (lcv_sorted_by_count (ord := sorted_order) (0, 0) greater_three_board
           greater_three_after_lcv [2; 3; 1]).
  vm_compute. reflexivity.
Defined.

(** X27, witness: the one-clue puzzle, AC-2 and LCV on. *)
Lemma solve_complete_witness :
  ∃ b s', __init__ 2 (Some one_clue_grid) None = Ok b
    ∧ (∀ fuel, (search_fuel b ≤ fuel)%nat →
               solve_fuel (ord := sorted_order) fuel (mkSolver b false true false true 0)
               = Ok (true, s'))
    ∧ is_solution 2 (default [] (truthy None)) (grid (board s'))
    ∧ extends 2 (default (zero_grid 2) (truthy (Some one_clue_grid))) (grid (board s')).
Proof.
  apply (solve_complete (ord := sorted_order) 2 (Some one_clue_grid) None one_clue_solution).
  - exact one_clue_shape.
  - by intros a c op ?%elem_of_nil.
  - exact one_clue_solution_ok.
  - exact one_clue_extends.
Defined.

Lemma clash_search :
  _backtracking_search (ord := sorted_order) 5 clash_solver = Ok (false, clash_final).
Proof. by vm_compute. Qed.

(** X28, witness: two equal clues in a row; the search fails, and no
    solution keeps them. *)
Lemma backtracking_search_refutes_witness :
  _backtracking_search (ord := sorted_order) 5 clash_solver = Ok (false, clash_final)
  ∧ ¬ ∃ sol, is_solution (board_size (board clash_solver))
               (inequality_constraints (board clash_solver)) sol
             ∧ extends (board_size (board clash_solver)) (grid (board clash_solver)) sol
             ∧ admits (board clash_solver) sol.
Proof.
  split; [exact clash_search|].
  apply (backtracking_search_refutes (ord := sorted_order) 5 clash_solver clash_final
           clash_board_wf clash_search).
Defined.

(** X29, witness: the same failed search. *)
Lemma failed_search_restores_board_witness : board clash_final = board clash_solver.
Proof.
  apply (failed_search_restores_board (ord := sorted_order) 5 clash_solver clash_final);
    [done|]. left. exact clash_search.
Defined.

(** X30, witness: the same failed search. *)
Lemma failed_search_counts_values_witness :
  ∃ var D, grid_get (grid (board clash_solver)) var = Ok 0
    ∧ domains (board clash_solver) !! var = Some D
    ∧ backtracks clash_solver + Z.of_nat (size D) ≤ backtracks clash_final.
Proof.
  apply (failed_search_counts_values (ord := sorted_order) 5 clash_solver clash_final).
  exact clash_search.
Defined.
